(** * PhotoSwipe lightbox: the load/open orchestration of
    [src/js/lightbox/lightbox.js], embedded method by method.

    Object identity is modelled by names (natural numbers for DOM
    elements, classes, listener functions, viewer instances and lightbox
    instances; the chain of [bind]s for the click handler); JS numbers
    that the code only counts or compares are unbounded integers.
    [options] is always an object, as the header of the source describes
    it.  The registry [_pluginClasses] keeps the prototype line 31 gives
    it: no class is registered or resolved under the name [__proto__]
    (a string under that name is, and is ignored as the language ignores
    it).  Code of the collaborators (the viewer's constructor, [on],
    [init] and [close], a custom [getClickedIndexFn], listeners of the
    application) is taken to return normally and to leave the lightbox
    and [window.pswp] alone. *)

From Stdlib Require Import ZArith NArith DecimalString Lia.
From stdpp Require Import base list strings.

(** ** JavaScript values *)

Abbreviation Element := nat (only parsing).
Abbreviation ClassId := nat (only parsing).
Abbreviation FnId := nat (only parsing).
Abbreviation ViewerId := nat (only parsing).
Abbreviation LbId := nat (only parsing).

(** The values an index or a pointer coordinate takes here. *)
Inductive JsVal : Type :=
| VUndefined
| VNull
| VNum (z : Z).

(** [v >= 0]: [undefined] converts to NaN (false), [null] to 0. *)
Definition ge0 (v : JsVal) : bool :=
  match v with
  | VUndefined => false
  | VNull => true
  | VNum z => (0 <=? z)%Z
  end.

(** [!v] *)
Definition js_not (v : JsVal) : bool :=
  match v with
  | VUndefined | VNull => true
  | VNum z => (z =? 0)%Z
  end.

(** Truthiness of a string: only the empty string is falsy. *)
Definition str_truthy (s : string) : bool :=
  match s with
  | EmptyString => false
  | String _ _ => true
  end.

(** Truthiness of a property holding a string or [undefined]. *)
Definition opt_truthy (o : option string) : bool :=
  match o with
  | Some s => str_truthy s
  | None => false
  end.

(** Truthiness of a slot holding a viewer, [null] or [undefined]. *)
Definition occupied (slot : option ViewerId) : bool :=
  match slot with
  | Some _ => true
  | None => false
  end.

(** [v === false] *)
Definition is_false (v : option bool) : bool :=
  match v with
  | Some false => true
  | _ => false
  end.

(** A plugin reference: "Plugin class or path to module (string)". *)
Inductive PluginRef : Type :=
| PluginClass (c : ClassId)
| PluginPath (s : string).

Definition ref_truthy (r : PluginRef) : bool :=
  match r with
  | PluginClass _ => true
  | PluginPath s => str_truthy s
  end.

(** What [options.pswpModule] may hold; it is only handed to
    [dynamicImportModule]. *)
Inductive ModuleRef : Type :=
| ModuleClass (c : ClassId)
| ModulePath (s : string)
| ModuleUndefined.

(** An object as far as the code inspects one: its [default],
    [pluginKey] and [moduleClass] properties ([None] is [undefined]). *)
Record JsObject : Type := {
  o_default : option ClassId;
  pluginKey : option string;
  moduleClass : option PluginRef
}.

(** A value a member of the promise array resolves to. *)
Inductive JsItem : Type :=
| ItUndefined
| ItNull
| ItClass (c : ClassId)
| ItObject (o : JsObject).

(** A plain JS object ([{}], prototype [Object.prototype]) used as a
    string-keyed table: its own properties, each key once, in the order
    [Object.keys] lists them.  That order puts the keys that are array
    indices first, by ascending value, and the other names after them in
    the order they were created; assigning to an existing key keeps its
    place. *)
Definition Obj (V : Type) : Type := list (string * V).

(** An array index: the canonical decimal form of an integer from 0 to
    2^32 - 2 (["1"] and ["10"] are, ["01"], ["1.5"] and ["-1"] are not). *)
Definition array_index (k : string) : option N :=
  match NilZero.uint_of_string k with
  | Some d =>
      let n := N.of_uint d in
      if String.eqb (NilZero.string_of_uint (N.to_uint n)) k && (n <=? 4294967294)%N
      then Some n
      else None
  | None => None
  end.

(** [o[k]] for an own property. *)
Fixpoint obj_get {V : Type} (k : string) (o : Obj V) : option V :=
  match o with
  | [] => None
  | (k', v) :: rest => if String.eqb k' k then Some v else obj_get k rest
  end.

(** [o[k] = v] where [k] is an own property. *)
Fixpoint obj_replace {V : Type} (k : string) (v : V) (o : Obj V) : Obj V :=
  match o with
  | [] => []
  | (k', v') :: rest =>
      if String.eqb k' k then (k', v) :: rest else (k', v') :: obj_replace k v rest
  end.

(** A new array index [k] (of value [n]) takes its place among the
    indices: behind the smaller ones, before the first larger one or the
    first name. *)
Fixpoint obj_insert_index {V : Type} (n : N) (k : string) (v : V) (o : Obj V) : Obj V :=
  match o with
  | [] => [(k, v)]
  | (k', v') :: rest =>
      match array_index k' with
      | Some m =>
          if (m <? n)%N then (k', v') :: obj_insert_index n k v rest
          else (k, v) :: o
      | None => (k, v) :: o
      end
  end.

(** [o[k] = v].  The key [__proto__] is not a property of the table: the
    assignment reaches the setter inherited from [Object.prototype], which
    creates no own property (it replaces the prototype when [v] is an
    object and does nothing otherwise; no line of the lightbox reads a
    property the table does not own). *)
Definition obj_set {V : Type} (k : string) (v : V) (o : Obj V) : Obj V :=
  if String.eqb k "__proto__" then o
  else
    match obj_get k o with
    | Some _ => obj_replace k v o
    | None =>
        match array_index k with
        | Some n => obj_insert_index n k v o
        | None => o ++ [(k, v)]
        end
    end.

(** ** The data the lightbox works on *)

Record Point : Type := { point_x : JsVal; point_y : JsVal }.

Module Event.
Record t : Type := {
  target : Element;
  currentTarget : Element;
  clientX : JsVal;
  clientY : JsVal;
  ctrlKey : bool;
  metaKey : bool;
  altKey : bool;
  shiftKey : bool;
  which : Z
}.
End Event.

Inductive DataSource : Type :=
| DSGallery (gallery : Element)
| DSItems (items : list nat).

Module Options.
Record t : Type := {
  gallerySelector : option string;
  childSelector : option string;
  getClickedIndexFn : option (Event.t -> JsVal);
  pswpModule : ModuleRef;
  pswpCSS : option string;
  openPromise : option FnId;
  preloadFirstSlide : option bool;
  index : JsVal;
  initialPointerPos : option Point;
  dataSource : option DataSource
}.

Definition set_index (v : JsVal) (o : t) : t :=
  {| gallerySelector := gallerySelector o; childSelector := childSelector o;
     getClickedIndexFn := getClickedIndexFn o; pswpModule := pswpModule o;
     pswpCSS := pswpCSS o; openPromise := openPromise o;
     preloadFirstSlide := preloadFirstSlide o; index := v;
     initialPointerPos := initialPointerPos o; dataSource := dataSource o |}.

Definition set_initialPointerPos (p : option Point) (o : t) : t :=
  {| gallerySelector := gallerySelector o; childSelector := childSelector o;
     getClickedIndexFn := getClickedIndexFn o; pswpModule := pswpModule o;
     pswpCSS := pswpCSS o; openPromise := openPromise o;
     preloadFirstSlide := preloadFirstSlide o; index := index o;
     initialPointerPos := p; dataSource := dataSource o |}.

Definition set_dataSource (d : option DataSource) (o : t) : t :=
  {| gallerySelector := gallerySelector o; childSelector := childSelector o;
     getClickedIndexFn := getClickedIndexFn o; pswpModule := pswpModule o;
     pswpCSS := pswpCSS o; openPromise := openPromise o;
     preloadFirstSlide := preloadFirstSlide o; index := index o;
     initialPointerPos := initialPointerPos o; dataSource := d |}.
End Options.

(** The page-wide state the lightbox reads and writes: [window.pswp] (the
    singleton slot) and [window.navigator.onLine]. *)
Module Window.
Record t : Type := {
  pswp : option ViewerId;
  onLine : option bool
}.

Definition set_pswp (v : option ViewerId) (w : t) : t :=
  {| pswp := v; onLine := onLine w |}.
End Window.

(** What [this.onThumbnailsClick] evaluates to in one lightbox: the
    method the instance inherits from the prototype, or a function object
    made by [bind] (line 36).  Every [bind] makes a new object, so the
    function bound by one [init] is not the function bound by the next. *)
Inductive ClickListener : Type :=
| PrototypeMethod
| Bound (target : ClickListener).

#[global] Instance ClickListener_eq_dec : EqDecision ClickListener.
Proof. solve_decision. Defined.

(** The fields of a [PhotoSwipeLightbox] instance.  [shouldOpen] is only
    ever tested for truthiness, so it is a boolean ([undefined], its value
    after the constructor, is [false]); [_listeners] is [None] once
    [destroy] has set it to [null]; [this_onThumbnailsClick] is what
    [this.onThumbnailsClick] evaluates to. *)
Record Lightbox : Type := {
  options : Options.t;
  _additionalDynamicCSS : list string;
  _pluginClasses : Obj PluginRef;
  _uid : Z;
  shouldOpen : bool;
  pswp : option ViewerId;
  _listeners : option (Obj (list FnId));
  this_onThumbnailsClick : ClickListener
}.

Definition set_options (o : Options.t) (this : Lightbox) : Lightbox :=
  {| options := o;
     _additionalDynamicCSS := _additionalDynamicCSS this;
     _pluginClasses := _pluginClasses this;
     _uid := _uid this;
     shouldOpen := shouldOpen this;
     pswp := pswp this;
     _listeners := _listeners this;
     this_onThumbnailsClick := this_onThumbnailsClick this |}.

Definition set_additionalDynamicCSS (l : list string) (this : Lightbox) : Lightbox :=
  {| options := options this;
     _additionalDynamicCSS := l;
     _pluginClasses := _pluginClasses this;
     _uid := _uid this;
     shouldOpen := shouldOpen this;
     pswp := pswp this;
     _listeners := _listeners this;
     this_onThumbnailsClick := this_onThumbnailsClick this |}.

Definition set_pluginClasses (p : Obj PluginRef) (this : Lightbox) : Lightbox :=
  {| options := options this;
     _additionalDynamicCSS := _additionalDynamicCSS this;
     _pluginClasses := p;
     _uid := _uid this;
     shouldOpen := shouldOpen this;
     pswp := pswp this;
     _listeners := _listeners this;
     this_onThumbnailsClick := this_onThumbnailsClick this |}.

Definition set_uid (n : Z) (this : Lightbox) : Lightbox :=
  {| options := options this;
     _additionalDynamicCSS := _additionalDynamicCSS this;
     _pluginClasses := _pluginClasses this;
     _uid := n;
     shouldOpen := shouldOpen this;
     pswp := pswp this;
     _listeners := _listeners this;
     this_onThumbnailsClick := this_onThumbnailsClick this |}.

Definition set_shouldOpen (b : bool) (this : Lightbox) : Lightbox :=
  {| options := options this;
     _additionalDynamicCSS := _additionalDynamicCSS this;
     _pluginClasses := _pluginClasses this;
     _uid := _uid this;
     shouldOpen := b;
     pswp := pswp this;
     _listeners := _listeners this;
     this_onThumbnailsClick := this_onThumbnailsClick this |}.

Definition set_pswp (v : option ViewerId) (this : Lightbox) : Lightbox :=
  {| options := options this;
     _additionalDynamicCSS := _additionalDynamicCSS this;
     _pluginClasses := _pluginClasses this;
     _uid := _uid this;
     shouldOpen := shouldOpen this;
     pswp := v;
     _listeners := _listeners this;
     this_onThumbnailsClick := this_onThumbnailsClick this |}.

Definition set_listeners (l : option (Obj (list FnId))) (this : Lightbox) : Lightbox :=
  {| options := options this;
     _additionalDynamicCSS := _additionalDynamicCSS this;
     _pluginClasses := _pluginClasses this;
     _uid := _uid this;
     shouldOpen := shouldOpen this;
     pswp := pswp this;
     _listeners := l;
     this_onThumbnailsClick := this_onThumbnailsClick this |}.

Definition set_onThumbnailsClick (f : ClickListener) (this : Lightbox) : Lightbox :=
  {| options := options this;
     _additionalDynamicCSS := _additionalDynamicCSS this;
     _pluginClasses := _pluginClasses this;
     _uid := _uid this;
     shouldOpen := shouldOpen this;
     pswp := pswp this;
     _listeners := _listeners this;
     this_onThumbnailsClick := f |}.

(** Calls the lightbox makes on its collaborators, as a log in call order. *)
Inductive ExtCall : Type :=
| preventDefault
| dynamicImportModule (m : ModuleRef)
| dynamicImportPlugin (pluginKey : string) (pluginClass : PluginRef)
| call_openPromise (f : FnId)
| lazyLoadSlide (index : JsVal)
| loadCSS (href : string)
| addEventListener (galleryElement : Element) (listener : ClickListener)
| removeEventListener (galleryElement : Element) (listener : ClickListener)
| pswp_close (v : ViewerId).

(** The first-slide warm-up among the collaborator calls. *)
Definition is_lazyLoadSlide (c : ExtCall) : bool :=
  match c with
  | lazyLoadSlide _ => true
  | _ => false
  end.

(** What [Promise.all(promiseArray).then(...)] leaves behind: the members
    of the array (each named by the call that returned it) and the [uid]
    the callback closes over. *)
Record Join : Type := {
  uid : Z;
  promiseArray : list ExtCall
}.

(** The outcome of a method call: the value returned, [this] afterwards,
    the collaborator calls made and the join registered, if any. *)
Record Ret (A : Type) : Type := {
  value : A;
  this_after : Lightbox;
  calls : list ExtCall;
  joined : option Join
}.
Arguments value {A} _.
Arguments this_after {A} _.
Arguments calls {A} _.
Arguments joined {A} _.

(** ** The platform

    [specialKeyUsed] (util.js) and the DOM queries are not part of
    lightbox.js; they are parameters, and a platform is the page as it is
    at one moment.  A node list holds each element once.  A child
    selector, where one is configured, is a valid selector.
    [document.querySelectorAll] throws a SyntaxError on a gallery
    selector that is not valid ([None]), and the empty selector is not
    valid. *)
Record Platform : Type := {
  specialKeyUsed : Event.t -> bool;
  closest : Element -> string -> option Element;
  querySelectorAll : Element -> string -> list Element;
  document_querySelectorAll : string -> option (list Element);
  querySelectorAll_NoDup : forall g s, NoDup (querySelectorAll g s);
  document_querySelectorAll_NoDup :
    forall s els, document_querySelectorAll s = Some els -> NoDup els;
  document_querySelectorAll_empty : document_querySelectorAll EmptyString = None
}.

(** ** constructor, addPlugin, addCSS *)

(** Modelled from the spec: the base class (core/base.js) is not under
    src/; it owns the "registered cross-cutting listener table"
    [_listeners], empty after [super()]. *)
Definition base_listeners : option (Obj (list FnId)) := Some [].

Definition constructor (opts : Options.t) : Lightbox :=
  {| options := opts;
     _additionalDynamicCSS := [];
     _pluginClasses := [];
     _uid := 0;
     shouldOpen := false;
     pswp := None;
     _listeners := base_listeners;
     this_onThumbnailsClick := PrototypeMethod |}.

Definition addPlugin (this : Lightbox) (name : string) (pluginClass : PluginRef) : Lightbox :=
  set_pluginClasses (obj_set name pluginClass (_pluginClasses this)) this.

Definition addCSS (this : Lightbox) (href : string) : Lightbox :=
  set_additionalDynamicCSS (_additionalDynamicCSS this ++ [href]) this.

(** ** getClickedIndex *)

(** The [for] loop of lines 97-101, from position [i] on: the first
    position holding [clickedChild], or falling out of the loop. *)
Fixpoint find_child (clickedChild : Element) (childElements : list Element) (i : Z) : JsVal :=
  match childElements with
  | [] => VUndefined
  | el :: rest =>
      if Nat.eqb clickedChild el then VNum i
      else find_child clickedChild rest (i + 1)
  end.

Definition getClickedIndex (P : Platform) (this : Lightbox) (e : Event.t) : JsVal :=
  match Options.getClickedIndexFn (options this) with
  | Some fn => fn e
  | None =>
      let clickedTarget := Event.target e in
      let clickedGallery := Event.currentTarget e in
      match Options.childSelector (options this) with
      | Some sel =>
          if str_truthy sel then
            let clickedChild := closest P clickedTarget sel in
            let childElements := querySelectorAll P clickedGallery sel in
            match clickedChild with
            | Some c => find_child c childElements 0
            | None => VUndefined
            end
          else VNum 0
      | None => VNum 0
      end
  end.

(** ** preload *)

(** [options.preloadFirstSlide !== false] *)
Definition not_false (b : option bool) : bool :=
  match b with
  | Some false => false
  | _ => true
  end.

Definition preload (this : Lightbox) (index : JsVal) (dataSource : option DataSource)
  : Ret unit :=
  let options :=
    match dataSource with
    | Some _ => Options.set_dataSource dataSource (options this)
    | None => options this
    end in
  (* the main module *)
  let log := [dynamicImportModule (Options.pswpModule options)] in
  let promiseArray := [dynamicImportModule (Options.pswpModule options)] in
  (* plugin modules *)
  let plugins :=
    map (fun kv => dynamicImportPlugin (fst kv) (snd kv)) (_pluginClasses this) in
  let log := log ++ plugins in
  let promiseArray := promiseArray ++ plugins in
  (* custom-defined promise, if any *)
  let custom :=
    match Options.openPromise options with
    | Some f => [call_openPromise f]
    | None => []
    end in
  let log := log ++ custom in
  let promiseArray := promiseArray ++ custom in
  (* the first slide: called, not pushed *)
  let log :=
    if not_false (Options.preloadFirstSlide options) && ge0 index
    then log ++ [lazyLoadSlide index] else log in
  (* main CSS *)
  let css :=
    match Options.pswpCSS options with
    | Some href => if str_truthy href then [loadCSS href] else []
    | None => []
    end in
  let log := log ++ css in
  let promiseArray := promiseArray ++ css in
  (* additional CSS *)
  let extra := map loadCSS (_additionalDynamicCSS this) in
  let log := log ++ extra in
  let promiseArray := promiseArray ++ extra in
  let uid := (_uid this + 1)%Z in
  {| value := tt;
     this_after := set_uid uid (set_options options this);
     calls := log;
     joined := Some {| uid := uid; promiseArray := promiseArray |} |}.

(** ** loadAndOpen *)

Definition loadAndOpen (window : Window.t) (this : Lightbox) (index : JsVal)
    (dataSource : option DataSource) (initialPoint : option Point) : Ret bool :=
  if occupied (Window.pswp window) then
    {| value := false; this_after := this; calls := []; joined := None |}
  else
    let this := set_options (Options.set_index index (options this)) this in
    let this :=
      set_options (Options.set_initialPointerPos initialPoint (options this)) this in
    let this := set_shouldOpen true this in
    let r := preload this index dataSource in
    {| value := true; this_after := this_after r; calls := calls r;
       joined := joined r |}.

(** ** onThumbnailsClick *)

Definition onThumbnailsClick (P : Platform) (window : Window.t) (this : Lightbox)
    (e : Event.t) : Ret unit :=
  if specialKeyUsed P e
     || occupied (Window.pswp window)
     || is_false (Window.onLine window)
  then {| value := tt; this_after := this; calls := []; joined := None |}
  else
    let initialPoint :=
      if js_not (Event.clientX e) && js_not (Event.clientY e) then None
      else Some {| point_x := Event.clientX e; point_y := Event.clientY e |} in
    let clickedIndex := getClickedIndex P this e in
    let dataSource := Some (DSGallery (Event.currentTarget e)) in
    if ge0 clickedIndex then
      let r := loadAndOpen window this clickedIndex dataSource initialPoint in
      {| value := tt; this_after := this_after r;
         calls := preventDefault :: calls r; joined := joined r |}
    else {| value := tt; this_after := this; calls := []; joined := None |}.

(** ** _openPhotoswipe *)

(** A listener registered on a viewer: one replayed from the lightbox's
    table, or the arrow function of lines 226-230, which closes over the
    lightbox that opened the viewer. *)
Inductive Handler : Type :=
| UserListener (fn : FnId)
| ClearPublicVariables (owner : LbId).

(** A viewer instance as the lightbox sees it.  [new C(null, this.options)]
    and [pswp.pluginClasses = this._pluginClasses] hand over references,
    not copies: the viewer records whose objects it shares. *)
Record Viewer : Type := {
  v_class : ClassId;
  v_options : LbId;
  pluginClasses : option LbId;
  v_on : list (string * Handler);
  v_init : bool;
  v_destroyed : bool
}.

Definition set_destroyed (v : Viewer) : Viewer :=
  {| v_class := v_class v; v_options := v_options v;
     pluginClasses := pluginClasses v; v_on := v_on v; v_init := v_init v;
     v_destroyed := true |}.

(** How a call ends: by returning, or by an exception thrown on the way
    (a TypeError in [_openPhotoswipe], a SyntaxError of the selector query
    in [init] and [destroy]). *)
Inductive Completion : Type :=
| Returned
| Thrown.

Record Opened : Type := {
  window_after : Window.t;
  lightbox_after : Lightbox;
  created : option Viewer;
  completion : Completion
}.

(** The outcome of a call that returns without building a viewer. *)
Definition rejected (window : Window.t) (this : Lightbox) : Opened :=
  {| window_after := window; lightbox_after := this; created := None;
     completion := Returned |}.

(** The class line 210-212 instantiates: [module.default] when
    [typeof module === "object"] (which includes [null], where reading
    [.default] throws), [module] itself otherwise; [None] when the
    [new] expression throws. *)
Definition constructor_of (module : JsItem) : option ClassId :=
  match module with
  | ItObject o => o_default o
  | ItNull => None
  | ItClass c => Some c
  | ItUndefined => None
  end.

(** [Object.keys(this._listeners).forEach(name => ...forEach(fn => pswp.on(name, fn)))] *)
Definition map_listeners (ls : Obj (list FnId)) : list (string * Handler) :=
  flat_map (fun nf => map (fun fn => (fst nf, UserListener fn)) (snd nf)) ls.

(** [self] names the lightbox [this] and [fresh] the object [new]
    returns. *)
Definition _openPhotoswipe (window : Window.t) (this : Lightbox) (self : LbId)
    (fresh : ViewerId) (module : JsItem) (uid : Z) : Opened :=
  if negb (uid =? _uid this)%Z && shouldOpen this then
    {| window_after := window; lightbox_after := this; created := None;
       completion := Returned |}
  else
    let this := set_shouldOpen false this in
    if occupied (Window.pswp window) then
      {| window_after := window; lightbox_after := this; created := None;
         completion := Returned |}
    else
      match constructor_of module with
      | None =>
          {| window_after := window; lightbox_after := this; created := None;
             completion := Thrown |}
      | Some c =>
          let this := set_pswp (Some fresh) this in
          let window := Window.set_pswp (Some fresh) window in
          match _listeners this with
          | None =>
              {| window_after := window; lightbox_after := this;
                 created := Some {| v_class := c; v_options := self;
                                    pluginClasses := Some self; v_on := [];
                                    v_init := false; v_destroyed := false |};
                 completion := Thrown |}
          | Some ls =>
              {| window_after := window; lightbox_after := this;
                 created := Some {| v_class := c; v_options := self;
                                    pluginClasses := Some self;
                                    v_on := map_listeners ls
                                            ++ [("destroy"%string, ClearPublicVariables self)];
                                    v_init := true; v_destroyed := false |};
                 completion := Returned |}
          end
      end.

(** ** The callback of [Promise.all(promiseArray).then(...)] (lines 178-189) *)

(** [if (item && item.pluginKey && item.moduleClass)
       this._pluginClasses[item.pluginKey] = item.moduleClass] *)
Definition merge_plugin (plugins : Obj PluginRef) (item : JsItem) : Obj PluginRef :=
  match item with
  | ItObject o =>
      match pluginKey o, moduleClass o with
      | Some k, Some c =>
          if str_truthy k && ref_truthy c then obj_set k c plugins else plugins
      | _, _ => plugins
      end
  | _ => plugins
  end.

Definition then_callback (window : Window.t) (this : Lightbox) (self : LbId)
    (fresh : ViewerId) (iterableModules : list JsItem) (uid : Z) : Opened :=
  let this :=
    set_pluginClasses (fold_left merge_plugin iterableModules (_pluginClasses this)) this in
  if shouldOpen this then
    let mainModule := nth 0 iterableModules ItUndefined in
    _openPhotoswipe window this self fresh mainModule uid
  else
    {| window_after := window; lightbox_after := this; created := None;
       completion := Returned |}.

(** ** init and destroy *)

(** A selector argument converted to a string. *)
Definition selector_text (sel : option string) : string :=
  match sel with
  | Some s => s
  | None => "undefined"
  end.

Definition init (P : Platform) (this : Lightbox) : Ret Completion :=
  let this := set_onThumbnailsClick (Bound (this_onThumbnailsClick this)) this in
  if opt_truthy (Options.gallerySelector (options this)) then
    match
      document_querySelectorAll P (selector_text (Options.gallerySelector (options this)))
    with
    | Some galleryElements =>
        {| value := Returned; this_after := this;
           calls := map (fun galleryElement =>
                           addEventListener galleryElement (this_onThumbnailsClick this))
                      galleryElements;
           joined := None |}
    | None => {| value := Thrown; this_after := this; calls := []; joined := None |}
    end
  else {| value := Returned; this_after := this; calls := []; joined := None |}.

Definition destroy (P : Platform) (this : Lightbox) : Ret Completion :=
  let closing :=
    match pswp this with
    | Some v => [pswp_close v]
    | None => []
    end in
  let this := set_shouldOpen false this in
  let this := set_listeners None this in
  match
    document_querySelectorAll P (selector_text (Options.gallerySelector (options this)))
  with
  | Some galleryElements =>
      {| value := Returned; this_after := this;
         calls := closing
                  ++ map (fun galleryElement =>
                            removeEventListener galleryElement
                              (this_onThumbnailsClick this))
                       galleryElements;
         joined := None |}
  | None => {| value := Thrown; this_after := this; calls := closing; joined := None |}
  end.

(** ** The page: several lightboxes, one window, the event loop

    The methods above run to completion one at a time; what happens in
    between (the click handler of a lightbox is called, a join settles, a
    viewer announces its destruction) is an action on the whole page.
    The page state holds the window, the lightboxes, the viewers and the
    joins; the listeners on the elements are followed through the call
    logs of [init] and [destroy] (see [listeners_after]). *)

(** A join that [preload] registered, with the lightbox whose callback it
    holds; a promise settles once. *)
Record Pending : Type := {
  owner : LbId;
  p_join : Join;
  settled : bool
}.

Definition settle (p : Pending) : Pending :=
  {| owner := owner p; p_join := p_join p; settled := true |}.

Record World : Type := {
  w_window : Window.t;
  w_lightboxes : list Lightbox;
  w_heap : list Viewer;
  w_joins : list Pending
}.

Inductive Action : Type :=
| New (opts : Options.t)
| Click (i : LbId) (e : Event.t)
| CallInit (i : LbId)
| CallLoadAndOpen (i : LbId) (index : JsVal) (dataSource : option DataSource)
    (initialPoint : option Point)
| CallPreload (i : LbId) (index : JsVal) (dataSource : option DataSource)
| CallOpenPhotoswipe (i : LbId) (module : JsItem) (uid : Z)
| CallAddPlugin (i : LbId) (name : string) (pluginClass : PluginRef)
| CallAddCSS (i : LbId) (href : string)
| CallDestroy (i : LbId)
| SetShouldOpen (i : LbId) (b : bool)
| JoinFulfilled (j : nat) (iterableModules : list JsItem)
| JoinRejected (j : nat)
| ViewerDestroyed (v : ViewerId)
| SetOnLine (o : option bool).

Definition pending_of (i : LbId) (j : option Join) : list Pending :=
  match j with
  | Some j => [{| owner := i; p_join := j; settled := false |}]
  | None => []
  end.

Definition commit {A : Type} (i : LbId) (r : Ret A) (w : World) : World :=
  {| w_window := w_window w;
     w_lightboxes := <[i := this_after r]> (w_lightboxes w);
     w_heap := w_heap w;
     w_joins := w_joins w ++ pending_of i (joined r) |}.

Definition commit_opened (i : LbId) (o : Opened) (w : World) : World :=
  {| w_window := window_after o;
     w_lightboxes := <[i := lightbox_after o]> (w_lightboxes w);
     w_heap := w_heap w ++ option_list (created o);
     w_joins := w_joins w |}.

Definition set_lightbox (i : LbId) (this : Lightbox) (w : World) : World :=
  {| w_window := w_window w;
     w_lightboxes := <[i := this]> (w_lightboxes w);
     w_heap := w_heap w;
     w_joins := w_joins w |}.

Definition mark_settled (j : nat) (w : World) : World :=
  {| w_window := w_window w;
     w_lightboxes := w_lightboxes w;
     w_heap := w_heap w;
     w_joins := alter settle j (w_joins w) |}.

(** One listener of a viewer receiving ['destroy'].  Listeners replayed
    from the lightbox's table are the application's and leave the page
    state modelled here alone; the arrow function of lines 226-230 clears
    [this.pswp] of its lightbox and [window.pswp]. *)
Definition run_destroy_listener (w : World) (h : string * Handler) : World :=
  match h with
  | (name, ClearPublicVariables i) =>
      if String.eqb name "destroy" then
        {| w_window := Window.set_pswp None (w_window w);
           w_lightboxes := alter (set_pswp None) i (w_lightboxes w);
           w_heap := w_heap w;
           w_joins := w_joins w |}
      else w
  | (_, UserListener _) => w
  end.

Definition mark_destroyed (v : ViewerId) (w : World) : World :=
  {| w_window := w_window w;
     w_lightboxes := w_lightboxes w;
     w_heap := alter set_destroyed v (w_heap w);
     w_joins := w_joins w |}.

(** Modelled from the spec: the viewer (core, not under src/) "must emit
    exactly one close notification per opened lifetime"; a second
    ['destroy'] of the same viewer is not an action of the page. *)
Definition viewer_destroyed (v : ViewerId) (w : World) : World :=
  match w_heap w !! v with
  | Some vw =>
      if v_destroyed vw then w
      else fold_left run_destroy_listener (v_on vw) (mark_destroyed v w)
  | None => w
  end.

Definition join_fulfilled (j : nat) (iterableModules : list JsItem) (w : World) : World :=
  match w_joins w !! j with
  | Some p =>
      if settled p
         || negb (length iterableModules =? length (promiseArray (p_join p)))
      then w
      else
        match w_lightboxes w !! owner p with
        | Some this =>
            mark_settled j
              (commit_opened (owner p)
                 (then_callback (w_window w) this (owner p) (length (w_heap w))
                    iterableModules (uid (p_join p)))
                 w)
        | None => w
        end
  | None => w
  end.

(** [.then] is given no rejection handler: a rejected join runs no code of
    the lightbox. *)
Definition join_rejected (j : nat) (w : World) : World :=
  match w_joins w !! j with
  | Some p => if settled p then w else mark_settled j w
  | None => w
  end.

Definition step (P : Platform) (w : World) (a : Action) : World :=
  match a with
  | New opts =>
      {| w_window := w_window w;
         w_lightboxes := w_lightboxes w ++ [constructor opts];
         w_heap := w_heap w;
         w_joins := w_joins w |}
  | Click i e =>
      match w_lightboxes w !! i with
      | Some this => commit i (onThumbnailsClick P (w_window w) this e) w
      | None => w
      end
  | CallInit i =>
      match w_lightboxes w !! i with
      | Some this => commit i (init P this) w
      | None => w
      end
  | CallLoadAndOpen i index dataSource initialPoint =>
      match w_lightboxes w !! i with
      | Some this =>
          commit i (loadAndOpen (w_window w) this index dataSource initialPoint) w
      | None => w
      end
  | CallPreload i index dataSource =>
      match w_lightboxes w !! i with
      | Some this => commit i (preload this index dataSource) w
      | None => w
      end
  | CallOpenPhotoswipe i module uid =>
      match w_lightboxes w !! i with
      | Some this =>
          commit_opened i
            (_openPhotoswipe (w_window w) this i (length (w_heap w)) module uid) w
      | None => w
      end
  | CallAddPlugin i name pluginClass =>
      match w_lightboxes w !! i with
      | Some this => set_lightbox i (addPlugin this name pluginClass) w
      | None => w
      end
  | CallAddCSS i href =>
      match w_lightboxes w !! i with
      | Some this => set_lightbox i (addCSS this href) w
      | None => w
      end
  | CallDestroy i =>
      match w_lightboxes w !! i with
      | Some this => commit i (destroy P this) w
      | None => w
      end
  | SetShouldOpen i b =>
      match w_lightboxes w !! i with
      | Some this => set_lightbox i (set_shouldOpen b this) w
      | None => w
      end
  | JoinFulfilled j iterableModules => join_fulfilled j iterableModules w
  | JoinRejected j => join_rejected j w
  | ViewerDestroyed v => viewer_destroyed v w
  | SetOnLine o =>
      {| w_window := {| Window.pswp := Window.pswp (w_window w); Window.onLine := o |};
         w_lightboxes := w_lightboxes w;
         w_heap := w_heap w;
         w_joins := w_joins w |}
  end.

Definition run (P : Platform) (w : World) (l : list Action) : World :=
  fold_left (step P) l w.

(** A page starts with no lightbox, an empty slot and nothing in flight. *)
Definition start (o : option bool) : World :=
  {| w_window := {| Window.pswp := None; Window.onLine := o |};
     w_lightboxes := [];
     w_heap := [];
     w_joins := [] |}.

Inductive reachable (P : Platform) : World -> Prop :=
| reach_start : forall o, reachable P (start o)
| reach_step : forall w a, reachable P w -> reachable P (step P w a).

(** A viewer that was constructed and has not announced its destruction. *)
Definition is_open (w : World) (v : ViewerId) : Prop :=
  exists vw, w_heap w !! v = Some vw /\ v_destroyed vw = false.

(** The actions from which [_openPhotoswipe] can run: a direct call, or
    the callback of a join. *)
Definition reaches_gate (a : Action) : Prop :=
  match a with
  | CallOpenPhotoswipe _ _ _ | JoinFulfilled _ _ => True
  | _ => False
  end.

(** ** Notions the statements use *)

(** Two lightboxes that differ at most in [this.pswp]. *)
Definition same_but_pswp (lb lb' : Lightbox) : Prop :=
  set_pswp None lb' = set_pswp None lb.

(** How an action can leave lightbox [i] of the page, from [lb] before to
    [lb'] after: untouched, or as the method the action runs on it leaves
    it. *)
Definition lightbox_after_action (P : Platform) (w : World) (a : Action)
    (i : LbId) (lb lb' : Lightbox) : Prop :=
  lb' = lb \/
  match a with
  | Click i' e =>
      i' = i /\ lb' = this_after (onThumbnailsClick P (w_window w) lb e)
  | CallInit i' => i' = i /\ lb' = this_after (init P lb)
  | CallLoadAndOpen i' index dataSource initialPoint =>
      i' = i
      /\ lb' = this_after (loadAndOpen (w_window w) lb index dataSource initialPoint)
  | CallPreload i' index dataSource =>
      i' = i /\ lb' = this_after (preload lb index dataSource)
  | CallOpenPhotoswipe i' module uid =>
      i' = i
      /\ lb' = lightbox_after
                (_openPhotoswipe (w_window w) lb i (length (w_heap w)) module uid)
  | CallAddPlugin i' name pluginClass => i' = i /\ lb' = addPlugin lb name pluginClass
  | CallAddCSS i' href => i' = i /\ lb' = addCSS lb href
  | CallDestroy i' => i' = i /\ lb' = this_after (destroy P lb)
  | SetShouldOpen i' b => i' = i /\ lb' = set_shouldOpen b lb
  | JoinFulfilled j iterableModules =>
      exists p, w_joins w !! j = Some p /\ owner p = i /\ settled p = false
                /\ lb' = lightbox_after
                           (then_callback (w_window w) lb i (length (w_heap w))
                              iterableModules (uid (p_join p)))
  | ViewerDestroyed v => same_but_pswp lb lb'
  | _ => False
  end.

(** The actions that can take [shouldOpen] of lightbox [i] from true to
    false. *)
Definition may_clear_flag (w : World) (i : LbId) (a : Action) : Prop :=
  match a with
  | CallOpenPhotoswipe i' _ _ => i' = i
  | CallDestroy i' => i' = i
  | SetShouldOpen i' b => i' = i /\ b = false
  | JoinFulfilled j _ => exists p, w_joins w !! j = Some p /\ owner p = i
  | _ => False
  end.

(** What holds of the slot and the heap in every state of the page: an
    open viewer is the one in the slot, and a viewer whose opening ran to
    the end carries the listener that clears the slot. *)
Definition slot_invariant (w : World) : Prop :=
  (forall v, is_open w v -> Window.pswp (w_window w) = Some v)
  /\ (forall v vw, w_heap w !! v = Some vw -> v_init vw = true ->
        exists i, ("destroy"%string, ClearPublicVariables i) ∈ v_on vw).

(** A method that registers a join has advanced the token by one and the
    join carries the new token; one that registers none has left the
    token alone. *)
Definition token_advanced {A : Type} (this : Lightbox) (r : Ret A) : Prop :=
  match joined r with
  | Some j => uid j = _uid (this_after r) /\ _uid (this_after r) = (_uid this + 1)%Z
  | None => _uid (this_after r) = _uid this
  end.

(** Every join on record belongs to a lightbox of the page and carries a
    token that lightbox has reached. *)
Definition token_invariant (w : World) : Prop :=
  forall k p, w_joins w !! k = Some p ->
    exists lb, w_lightboxes w !! owner p = Some lb /\ (uid (p_join p) <= _uid lb)%Z.

(** Where an entry of the record of joins comes from: it was there before
    the action (settled or not), or a method run by the action registered
    it, with the token the lightbox has just advanced to. *)
Definition join_origin (w w' : World) (k : nat) (p' : Pending) : Prop :=
  (exists p, w_joins w !! k = Some p /\ owner p' = owner p /\ p_join p' = p_join p)
  \/ (k = length (w_joins w)
      /\ exists lb lb', w_lightboxes w !! owner p' = Some lb
                        /\ w_lightboxes w' !! owner p' = Some lb'
                        /\ uid (p_join p') = _uid lb'
                        /\ _uid lb' = (_uid lb + 1)%Z).

(** ** A small page to run the model on

    A gallery (element 10) with three links (1, 2, 3, matched by the
    selector [a]), each wrapping an image (11, 12, 13). *)

Definition demo_closest (el : Element) (sel : string) : option Element :=
  if String.eqb sel "a" then
    match el with
    | 1 | 11 => Some 1
    | 2 | 12 => Some 2
    | 3 | 13 => Some 3
    | _ => None
    end
  else None.

Definition demo_querySelectorAll (g : Element) (sel : string) : list Element :=
  if Nat.eqb g 10 && String.eqb sel "a" then [1; 2; 3] else [].

Definition demo_querySelectorAll_NoDup (g : Element) (s : string) :
  NoDup (demo_querySelectorAll g s).
Proof.
  unfold demo_querySelectorAll.
  destruct (Nat.eqb g 10 && String.eqb s "a"); [|constructor].
  apply (bool_decide_unpack _). vm_compute. exact I.
Qed.

Definition demo_document (s : string) : option (list Element) :=
  if String.eqb s ".gallery" then Some [10]
  else if String.eqb s EmptyString then None
  else Some [].

Definition demo_document_NoDup (s : string) (els : list Element) :
  demo_document s = Some els -> NoDup els.
Proof.
  unfold demo_document.
  destruct (String.eqb s ".gallery"); [|destruct (String.eqb s EmptyString)];
    intros H; try discriminate H; injection H as <-.
  - apply NoDup_singleton.
  - constructor.
Qed.

Definition demo_platform : Platform :=
  {| specialKeyUsed := fun e =>
       Event.ctrlKey e || Event.metaKey e || Event.altKey e || Event.shiftKey e
       || (Event.which e =? 2)%Z;
     closest := demo_closest;
     querySelectorAll := demo_querySelectorAll;
     document_querySelectorAll := demo_document;
     querySelectorAll_NoDup := demo_querySelectorAll_NoDup;
     document_querySelectorAll_NoDup := demo_document_NoDup;
     document_querySelectorAll_empty := eq_refl |}.

Definition demo_options : Options.t :=
  {| Options.gallerySelector := Some ".gallery"%string;
     Options.childSelector := Some "a"%string;
     Options.getClickedIndexFn := None;
     Options.pswpModule := ModulePath "photoswipe.esm.js";
     Options.pswpCSS := Some "photoswipe.css"%string;
     Options.openPromise := None;
     Options.preloadFirstSlide := None;
     Options.index := VUndefined;
     Options.initialPointerPos := None;
     Options.dataSource := None |}.

Definition demo_click (t : Element) (ctrl : bool) : Event.t :=
  {| Event.target := t; Event.currentTarget := 10;
     Event.clientX := VNum 5; Event.clientY := VNum 7;
     Event.ctrlKey := ctrl; Event.metaKey := false; Event.altKey := false;
     Event.shiftKey := false; Event.which := 1 |}.

Definition demo_window : Window.t :=
  {| Window.pswp := None; Window.onLine := Some true |}.

(** What the main module and a plugin acquisition resolve to. *)
Definition demo_module : JsItem :=
  ItObject {| o_default := Some 7; pluginKey := None; moduleClass := None |}.

Definition demo_plugin (name : string) (c : ClassId) : JsItem :=
  ItObject {| o_default := None; pluginKey := Some name;
              moduleClass := Some (PluginClass c) |}.

(** A page with one lightbox, just constructed. *)
Definition demo_one_lightbox : World :=
  step demo_platform (start (Some true)) (New demo_options).

(** Two clicks in quick succession on a page with one lightbox and one
    lazily loaded plugin: joins 0 and 1 carry tokens 1 and 2. *)
Definition demo_two_clicks : World :=
  run demo_platform (start (Some true))
    [New demo_options; CallAddPlugin 0 "zoom" (PluginPath "zoom.js");
     Click 0 (demo_click 12 false); Click 0 (demo_click 13 false)].

Definition demo_results : list JsItem :=
  [demo_module; demo_plugin "zoom" 9; ItUndefined].

(** The second attempt's join settles first and opens viewer 0. *)
Definition demo_opened : World :=
  run demo_platform demo_two_clicks [JoinFulfilled 1 demo_results].

(** A page whose lightbox has a lazily loaded plugin registered under the
    empty name, with a [loadAndOpen] in flight (join 0: the module, the
    plugin, the stylesheet). *)
Definition demo_unnamed_plugin : World :=
  run demo_platform (start (Some true))
    [New demo_options; CallAddPlugin 0 EmptyString (PluginPath "lazy.js");
     CallLoadAndOpen 0 (VNum 0) None None].

(** ** Notions for the further properties *)

(** The calls that start an acquisition or the warm-up. *)
Definition is_load_call (c : ExtCall) : bool :=
  match c with
  | dynamicImportModule _ | dynamicImportPlugin _ _ | call_openPromise _
  | lazyLoadSlide _ | loadCSS _ => true
  | _ => false
  end.

(** The test of lines 49-51. *)
Definition passes_through (P : Platform) (window : Window.t) (e : Event.t) : bool :=
  specialKeyUsed P e || occupied (Window.pswp window)
  || is_false (Window.onLine window).

(** The [initialPoint] of lines 62-66. *)
Definition initialPoint_of (e : Event.t) : option Point :=
  if js_not (Event.clientX e) && js_not (Event.clientY e) then None
  else Some {| point_x := Event.clientX e; point_y := Event.clientY e |}.

(** The pair the guard of line 180 accepts in an item, if any. *)
Definition accepted (item : JsItem) : option (string * PluginRef) :=
  match item with
  | ItObject o =>
      match pluginKey o, moduleClass o with
      | Some k, Some c => if str_truthy k && ref_truthy c then Some (k, c) else None
      | _, _ => None
      end
  | _ => None
  end.

(** A key that is a name, not an array index. *)
Definition is_name (k : string) : bool :=
  match array_index k with
  | Some _ => false
  | None => true
  end.

(** A key that [Object.keys] may list behind the array index [n]: a
    larger index, or a name. *)
Definition later_key (n : N) (k : string) : bool :=
  match array_index k with
  | Some m => (n <? m)%N
  | None => true
  end.

(** A list of keys in the order of [Object.keys]: behind an array index
    come larger indices and names, behind a name only names. *)
Fixpoint keys_ordered (ks : list string) : bool :=
  match ks with
  | [] => true
  | k :: rest =>
      match array_index k with
      | Some n => forallb (later_key n) rest && keys_ordered rest
      | None => forallb is_name rest
      end
  end.

(** The click listeners one lightbox has on the elements of the page,
    as pairs of an element and a function object of that lightbox.
    [addEventListener] with a pair that is already there adds nothing;
    [removeEventListener] takes the pair away if it is there. *)
Definition on_listener_call (ls : list (Element * ClickListener)) (c : ExtCall)
  : list (Element * ClickListener) :=
  match c with
  | addEventListener el f =>
      if bool_decide ((el, f) ∈ ls) then ls else ls ++ [(el, f)]
  | removeEventListener el f =>
      List.filter (fun p => negb (bool_decide (p = (el, f)))) ls
  | _ => ls
  end.

(** The listeners after a log of calls. *)
Definition listeners_after (ls : list (Element * ClickListener)) (log : list ExtCall)
  : list (Element * ClickListener) :=
  fold_left on_listener_call log ls.

(** A registry that is a well-formed table: each key once, the keys in
    the order of [Object.keys], and [__proto__] not among them. *)
Definition registry_ok (reg : Obj PluginRef) : Prop :=
  NoDup (map fst reg)
  /\ keys_ordered (map fst reg) = true
  /\ obj_get "__proto__" reg = None.

(** The plugin acquisitions among the collaborator calls. *)
Definition is_plugin_call (c : ExtCall) : bool :=
  match c with
  | dynamicImportPlugin _ _ => true
  | _ => false
  end.

(** The actions that set [shouldOpen] of lightbox [i]: a click that
    reaches it, [loadAndOpen], a write of [true] to the public field. *)
Definition sets_flag (i : LbId) (a : Action) : bool :=
  match a with
  | Click i' _ | CallLoadAndOpen i' _ _ _ => Nat.eqb i' i
  | SetShouldOpen i' b => Nat.eqb i' i && b
  | _ => false
  end.

(** The options the lightbox is configured with, the three it writes
    itself ([index], [initialPointerPos], [dataSource]) blanked out. *)
Definition configuration (o : Options.t) : Options.t :=
  Options.set_index VUndefined
    (Options.set_initialPointerPos None (Options.set_dataSource None o)).

(** [lb'] is a later state of [lb]: same configuration, a stylesheet list
    that was only appended to, a registry that lost no name, a token that
    did not go back. *)
Definition grows (lb lb' : Lightbox) : Prop :=
  configuration (options lb') = configuration (options lb)
  /\ (exists more, _additionalDynamicCSS lb' = _additionalDynamicCSS lb ++ more)
  /\ (forall k, is_Some (obj_get k (_pluginClasses lb)) ->
                is_Some (obj_get k (_pluginClasses lb')))
  /\ (_uid lb <= _uid lb')%Z.

(** The tokens of the joins a lightbox has registered, oldest first. *)
Definition tokens_of (i : LbId) (joins : list Pending) : list Z :=
  map (fun p => uid (p_join p)) (List.filter (fun p => Nat.eqb (owner p) i) joins).

(** 1, 2, ..., n *)
Definition first_tokens (n : Z) : list Z := map Z.of_nat (seq 1 (Z.to_nat n)).

(** The token of every lightbox counts the joins it has registered, and
    their tokens are 1, 2, ... in order. *)
Definition counts (lbs : list Lightbox) (joins : list Pending) : Prop :=
  forall i lb, lbs !! i = Some lb ->
    (0 <= _uid lb)%Z /\ tokens_of i joins = first_tokens (_uid lb).

(** [this.pswp] and the slot agree: a lightbox that holds a viewer holds
    the one in the slot and built it; the viewer in the slot is held by
    the lightbox that built it; the listener that clears the slot sits on
    ['destroy'] of a viewer of its own lightbox. *)
Definition held (slot : option ViewerId) (lbs : list Lightbox) (heap : list Viewer)
  : Prop :=
  (forall i lb v, lbs !! i = Some lb -> pswp lb = Some v ->
     slot = Some v /\ exists vw, heap !! v = Some vw /\ v_options vw = i)
  /\ (forall v, slot = Some v ->
        exists vw lb, heap !! v = Some vw /\ lbs !! v_options vw = Some lb
                      /\ pswp lb = Some v)
  /\ (forall v vw name i, heap !! v = Some vw ->
        (name, ClearPublicVariables i) ∈ v_on vw ->
        i = v_options vw /\ name = "destroy"%string).

(** Results whose first item is [null]: a module that yields no
    constructor. *)
Definition demo_bad_results : list JsItem :=
  [ItNull; demo_plugin "zoom" 9; ItUndefined].

(** On a page with one fresh lightbox: [destroy], then a [loadAndOpen]
    whose join is fulfilled, then the destroy announcement of the viewer
    that was built. *)
Definition demo_after_destroy : World :=
  run demo_platform demo_one_lightbox
    [CallDestroy 0; CallLoadAndOpen 0 (VNum 0) None None;
     JoinFulfilled 0 [demo_module; ItUndefined]; ViewerDestroyed 0].

(** The lightbox of the demo page after the two clicks, and after the
    second join has opened its viewer. *)
Definition demo_clicked : Lightbox :=
  default (constructor demo_options) (w_lightboxes demo_two_clicks !! 0).

Definition demo_holding : Lightbox :=
  default (constructor demo_options) (w_lightboxes demo_opened !! 0).

(** * Properties *)

(** ** Tables *)

Lemma obj_get_app {V : Type} (k : string) (o o' : Obj V) :
  obj_get k (o ++ o') = match obj_get k o with Some v => Some v | None => obj_get k o' end.
Proof.
  induction o as [|[k0 v0] rest IH]; simpl; [reflexivity|].
  destruct (String.eqb k0 k); [reflexivity | exact IH].
Qed.

Lemma obj_get_replace {V : Type} (k k' : string) (v : V) (o : Obj V) :
  obj_get k' (obj_replace k v o)
  = if String.eqb k k' then option_map (fun _ => v) (obj_get k o) else obj_get k' o.
Proof.
  induction o as [|[k0 v0] rest IH]; simpl.
  - now destruct (String.eqb k k').
  - destruct (String.eqb_spec k0 k) as [->|Hne]; simpl.
    + now destruct (String.eqb k k').
    + destruct (String.eqb_spec k0 k') as [->|Hne'].
      * destruct (String.eqb_spec k k') as [->|_]; [contradiction | reflexivity].
      * exact IH.
Qed.

Lemma obj_get_insert_index {V : Type} (n : N) (k k' : string) (v : V) (o : Obj V) :
  obj_get k o = None ->
  obj_get k' (obj_insert_index n k v o)
  = if String.eqb k k' then Some v else obj_get k' o.
Proof.
  induction o as [|[k0 v0] rest IH]; simpl; intros Hk.
  - reflexivity.
  - destruct (String.eqb_spec k0 k) as [->|Hne]; [discriminate Hk|].
    destruct (array_index k0) as [m|]; [destruct (m <? n)%N|]; simpl;
      try reflexivity.
    rewrite (IH Hk).
    destruct (String.eqb_spec k0 k') as [->|Hne']; [|reflexivity].
    destruct (String.eqb_spec k k') as [->|_]; [contradiction | reflexivity].
Qed.

Lemma obj_set_proto {V : Type} (v : V) (o : Obj V) : obj_set "__proto__" v o = o.
Proof. reflexivity. Qed.

(** What one assignment changes: the key assigned to, unless it is
    [__proto__], and no other. *)
Lemma obj_get_set {V : Type} (k k' : string) (v : V) (o : Obj V) :
  obj_get k' (obj_set k v o)
  = if String.eqb k k' && negb (String.eqb k "__proto__") then Some v
    else obj_get k' o.
Proof.
  unfold obj_set. destruct (String.eqb k "__proto__"); simpl.
  { now rewrite andb_false_r. }
  rewrite andb_true_r.
  destruct (obj_get k o) as [x|] eqn:Hk.
  - rewrite obj_get_replace, Hk. reflexivity.
  - destruct (array_index k) as [n|].
    + now apply obj_get_insert_index.
    + rewrite obj_get_app. simpl.
      destruct (String.eqb_spec k k') as [<-|_]; [now rewrite Hk|].
      now destruct (obj_get k' o).
Qed.

Lemma obj_get_set_eq {V : Type} (k : string) (v : V) (o : Obj V) :
  k <> "__proto__"%string -> obj_get k (obj_set k v o) = Some v.
Proof.
  intros Hk. rewrite obj_get_set, String.eqb_refl.
  now destruct (String.eqb_spec k "__proto__").
Qed.

Lemma obj_get_set_ne {V : Type} (k k' : string) (v : V) (o : Obj V) :
  k <> k' -> obj_get k' (obj_set k v o) = obj_get k' o.
Proof.
  intros Hne. rewrite obj_get_set.
  now destruct (String.eqb_spec k k').
Qed.

(** An assignment removes no key. *)
Lemma obj_set_keeps {V : Type} (k k' : string) (v : V) (o : Obj V) :
  is_Some (obj_get k' o) -> is_Some (obj_get k' (obj_set k v o)).
Proof.
  intros Hk'. rewrite obj_get_set.
  destruct (String.eqb k k' && negb (String.eqb k "__proto__")); eauto.
Qed.

(** ** The world as a record *)

Lemma world_eta (w : World) :
  {| w_window := w_window w; w_lightboxes := w_lightboxes w;
     w_heap := w_heap w; w_joins := w_joins w |} = w.
Proof. now destruct w. Qed.

Lemma commit_nothing {A : Type} (i : LbId) (r : Ret A) (w : World) (this : Lightbox) :
  w_lightboxes w !! i = Some this ->
  this_after r = this -> joined r = None ->
  commit i r w = w.
Proof.
  intros Hi Ht Hj. unfold commit, pending_of. rewrite Ht, Hj.
  rewrite app_nil_r, (list_insert_id _ _ _ Hi). apply world_eta.
Qed.

Lemma reachable_run (P : Platform) (l : list Action) :
  forall w, reachable P w -> reachable P (run P w l).
Proof.
  induction l as [|a l IH]; intros w Hw; simpl.
  - exact Hw.
  - apply IH. now apply reach_step.
Qed.

(** ** getClickedIndex: the search loop *)

Lemma find_child_absent (c : Element) (l : list Element) :
  forall i, c ∉ l -> find_child c l i = VUndefined.
Proof.
  induction l as [|el rest IH]; intros i Hc; simpl; [reflexivity|].
  apply not_elem_of_cons in Hc as [Hne Hrest].
  destruct (Nat.eqb c el) eqn:E.
  - apply Nat.eqb_eq in E. contradiction.
  - now apply IH.
Qed.

Lemma find_child_position (c : Element) (l : list Element) :
  forall (N : nat) (i : Z),
    NoDup l -> l !! N = Some c -> find_child c l i = VNum (i + Z.of_nat N).
Proof.
  induction l as [|el rest IH]; intros N i Hnd HN; [discriminate|].
  apply NoDup_cons in Hnd as [Hnotin Hnd]. simpl.
  destruct N as [|N]; simpl in HN.
  - injection HN as ->. rewrite Nat.eqb_refl. f_equal. lia.
  - destruct (Nat.eqb c el) eqn:E.
    + apply Nat.eqb_eq in E. subst el.
      exfalso. apply Hnotin. apply list_elem_of_lookup. now exists N.
    + rewrite (IH N (i + 1)%Z Hnd HN). f_equal. lia.
Qed.

(** C5: with no custom index function, [getClickedIndex] returns 0 when no
    child selector is configured; with a child selector it returns N when
    the closest ancestor-or-self of the target matching the selector is
    the N-th (0-based) element of the container's [querySelectorAll], and
    [undefined] when nothing matches (no closest match, or the match is
    not among the container's items).  The method has no exceptional
    outcome: it is a total function into values. *)
Theorem getClickedIndex_resolves (P : Platform) (this : Lightbox) (e : Event.t) :
  Options.getClickedIndexFn (options this) = None ->
  (opt_truthy (Options.childSelector (options this)) = false ->
   getClickedIndex P this e = VNum 0)
  /\ (forall sel : string,
        Options.childSelector (options this) = Some sel ->
        str_truthy sel = true ->
        (forall (c : Element) (N : nat),
            closest P (Event.target e) sel = Some c ->
            querySelectorAll P (Event.currentTarget e) sel !! N = Some c ->
            getClickedIndex P this e = VNum (Z.of_nat N))
        /\ (closest P (Event.target e) sel = None ->
            getClickedIndex P this e = VUndefined)
        /\ (forall c : Element,
               closest P (Event.target e) sel = Some c ->
               c ∉ querySelectorAll P (Event.currentTarget e) sel ->
               getClickedIndex P this e = VUndefined)).
Proof.
  intros Hfn. unfold getClickedIndex. rewrite Hfn. split.
  - destruct (Options.childSelector (options this)) as [sel|]; simpl; [|reflexivity].
    now intros ->.
  - intros sel Hsel Htruthy. rewrite Hsel, Htruthy. repeat split.
    + intros c N Hc HN. rewrite Hc.
      now rewrite (find_child_position c _ N 0%Z (querySelectorAll_NoDup P _ _) HN).
    + now intros ->.
    + intros c Hc Hnotin. rewrite Hc. now apply find_child_absent.
Qed.

Lemma getClickedIndex_resolves_witness :
  getClickedIndex demo_platform (constructor demo_options) (demo_click 12 false) = VNum 1
  /\ getClickedIndex demo_platform (constructor demo_options) (demo_click 10 false)
     = VUndefined.
Proof.
  pose proof (getClickedIndex_resolves demo_platform (constructor demo_options)
                (demo_click 12 false) eq_refl) as [_ H12].
  pose proof (getClickedIndex_resolves demo_platform (constructor demo_options)
                (demo_click 10 false) eq_refl) as [_ H10].
  split.
  - exact (proj1 (H12 "a"%string eq_refl eq_refl) 2 1 eq_refl eq_refl).
  - exact (proj1 (proj2 (H10 "a"%string eq_refl eq_refl)) eq_refl).
Defined.

(** ** onThumbnailsClick *)

(** C4: when a special key was held, or the slot is occupied, or the
    runtime reports being offline, the click handler returns at once: it
    makes no call at all (in particular no [preventDefault]), leaves the
    lightbox as it was (so the load token does not advance) and registers
    no join; the page is the same afterwards. *)
Theorem onThumbnailsClick_passes_through (P : Platform) (window : Window.t)
    (this : Lightbox) (e : Event.t) :
  specialKeyUsed P e = true
  \/ is_Some (Window.pswp window)
  \/ Window.onLine window = Some false ->
  onThumbnailsClick P window this e
  = {| value := tt; this_after := this; calls := []; joined := None |}
  /\ (forall (w : World) (i : LbId),
         w_window w = window -> w_lightboxes w !! i = Some this ->
         step P w (Click i e) = w).
Proof.
  intros Hpass.
  assert (Hret : onThumbnailsClick P window this e
                 = {| value := tt; this_after := this; calls := []; joined := None |}).
  { unfold onThumbnailsClick.
    destruct Hpass as [Hkey | [[v Hslot] | Hoff]].
    - now rewrite Hkey.
    - rewrite Hslot. simpl. now rewrite orb_true_r.
    - rewrite Hoff. simpl. now rewrite orb_true_r. }
  split; [exact Hret|].
  intros w i Hw Hi. simpl. rewrite Hi, Hw, Hret.
  now apply (commit_nothing i _ w this).
Qed.

Lemma onThumbnailsClick_passes_through_witness :
  onThumbnailsClick demo_platform demo_window (constructor demo_options)
    (demo_click 12 true)
  = {| value := tt; this_after := constructor demo_options; calls := [];
       joined := None |}
  /\ step demo_platform demo_opened (Click 0 (demo_click 12 false)) = demo_opened.
Proof.
  split.
  - exact (proj1 (onThumbnailsClick_passes_through demo_platform demo_window
                    (constructor demo_options) (demo_click 12 true)
                    (or_introl eq_refl))).
  - refine (proj2 (onThumbnailsClick_passes_through demo_platform
                     (w_window demo_opened) _ (demo_click 12 false)
                     (or_intror (or_introl (ex_intro _ 0 eq_refl))))
              demo_opened 0 eq_refl _).
    vm_compute. reflexivity.
Defined.

(** ** loadAndOpen *)

(** C10: [loadAndOpen] returns a boolean.  With the slot occupied it
    returns [false], leaves the lightbox untouched, makes no call and
    registers no join, so the page is the same afterwards.  With the slot empty it stores [index] and
    [initialPoint] in the options, sets [shouldOpen], runs [preload] on
    the lightbox so prepared (which registers a join) and returns
    [true]. *)
Theorem loadAndOpen_returns (window : Window.t) (this : Lightbox) (index : JsVal)
    (dataSource : option DataSource) (initialPoint : option Point) :
  (is_Some (Window.pswp window) ->
   loadAndOpen window this index dataSource initialPoint
   = {| value := false; this_after := this; calls := []; joined := None |})
  /\ (Window.pswp window = None ->
      let prepared :=
        set_shouldOpen true
          (set_options
             (Options.set_initialPointerPos initialPoint
                (Options.set_index index (options this))) this) in
      let r := loadAndOpen window this index dataSource initialPoint in
      value r = true
      /\ Options.index (options (this_after r)) = index
      /\ Options.initialPointerPos (options (this_after r)) = initialPoint
      /\ shouldOpen (this_after r) = true
      /\ this_after r = this_after (preload prepared index dataSource)
      /\ calls r = calls (preload prepared index dataSource)
      /\ joined r = joined (preload prepared index dataSource)
      /\ is_Some (joined r))
  /\ (forall (P : Platform) (w : World) (i : LbId),
         is_Some (Window.pswp window) ->
         w_window w = window -> w_lightboxes w !! i = Some this ->
         step P w (CallLoadAndOpen i index dataSource initialPoint) = w).
Proof.
  assert (Hocc : is_Some (Window.pswp window) ->
                 loadAndOpen window this index dataSource initialPoint
                 = {| value := false; this_after := this; calls := []; joined := None |}).
  { intros [v Hv]. unfold loadAndOpen. now rewrite Hv. }
  split; [exact Hocc|]. split.
  - intros Hv. unfold loadAndOpen. rewrite Hv. simpl.
    repeat split; try reflexivity; try (now destruct dataSource); eauto.
  - intros P w i Hslot Hw Hi. cbn [step]. rewrite Hi, Hw, (Hocc Hslot).
    now apply (commit_nothing i _ w this).
Qed.

Lemma loadAndOpen_returns_witness :
  loadAndOpen (w_window demo_opened) (constructor demo_options) (VNum 1) None None
  = {| value := false; this_after := constructor demo_options; calls := [];
       joined := None |}
  /\ value (loadAndOpen demo_window (constructor demo_options) (VNum 1) None None)
     = true.
Proof.
  split.
  - exact (proj1 (loadAndOpen_returns (w_window demo_opened)
                    (constructor demo_options) (VNum 1) None None)
             (ex_intro _ 0 eq_refl)).
  - exact (proj1 (proj1 (proj2 (loadAndOpen_returns demo_window
                                  (constructor demo_options) (VNum 1) None None))
                    eq_refl)).
Defined.

(** ** preload *)

Lemma filter_map_none {A B : Type} (f : B -> bool) (g : A -> B) (l : list A) :
  (forall a, f (g a) = false) -> List.filter f (map g l) = [].
Proof.
  intros Hf. induction l as [|a l IH]; simpl; [reflexivity|].
  now rewrite Hf.
Qed.

Lemma filter_map_all {A B : Type} (f : B -> bool) (g : A -> B) (l : list A) :
  (forall a, f (g a) = true) -> List.filter f (map g l) = map g l.
Proof.
  intros Hf. induction l as [|a l IH]; simpl; [reflexivity|].
  now rewrite Hf, IH.
Qed.

Lemma preload_keeps_shouldOpen (this : Lightbox) (index : JsVal)
    (dataSource : option DataSource) :
  shouldOpen (this_after (preload this index dataSource)) = shouldOpen this.
Proof. reflexivity. Qed.

(** C9: [preload] awaits exactly the calls it makes other than the
    first-slide warm-up: [lazyLoadSlide] is never a member of the promise
    array, so what the join delivers to the callback, and with it the
    decision at [_openPhotoswipe], has no input from the warm-up.  The
    warm-up is called (once, with [index]) exactly when
    [preloadFirstSlide] is not [false] and [index >= 0], and not at all
    otherwise. *)
Theorem preload_warm_up_not_awaited (this : Lightbox) (index : JsVal)
    (dataSource : option DataSource) :
  let r := preload this index dataSource in
  let enabled :=
    not_false (Options.preloadFirstSlide (options this)) && ge0 index in
  (exists j, joined r = Some j
             /\ promiseArray j
                = List.filter (fun c => negb (is_lazyLoadSlide c)) (calls r)
             /\ forall v, lazyLoadSlide v ∉ promiseArray j)
  /\ (enabled = true -> List.filter is_lazyLoadSlide (calls r) = [lazyLoadSlide index])
  /\ (enabled = false -> forall v, lazyLoadSlide v ∉ calls r)
  /\ (forall z, index = VNum z ->
        (enabled = true <->
         Options.preloadFirstSlide (options this) <> Some false /\ (0 <= z)%Z)).
Proof.
  intros r enabled.
  assert (Hpf : Options.preloadFirstSlide
                  (match dataSource with
                   | Some _ => Options.set_dataSource dataSource (options this)
                   | None => options this
                   end) = Options.preloadFirstSlide (options this))
    by now destruct dataSource.
  assert (Hcss : forall o : option string,
             List.filter is_lazyLoadSlide
               (match o with
                | Some href => if str_truthy href then [loadCSS href] else []
                | None => []
                end) = []
             /\ List.filter (fun c => negb (is_lazyLoadSlide c))
                  (match o with
                   | Some href => if str_truthy href then [loadCSS href] else []
                   | None => []
                   end)
                = match o with
                  | Some href => if str_truthy href then [loadCSS href] else []
                  | None => []
                  end).
  { intros [href|]; [destruct (str_truthy href)|]; split; reflexivity. }
  assert (Hcustom : forall o : option FnId,
             List.filter is_lazyLoadSlide
               (match o with Some f => [call_openPromise f] | None => [] end) = []
             /\ List.filter (fun c => negb (is_lazyLoadSlide c))
                  (match o with Some f => [call_openPromise f] | None => [] end)
                = match o with Some f => [call_openPromise f] | None => [] end).
  { intros [f|]; split; reflexivity. }
  assert (Hfilter :
            List.filter (fun c => negb (is_lazyLoadSlide c)) (calls r)
            = match joined r with Some j => promiseArray j | None => [] end
            /\ List.filter is_lazyLoadSlide (calls r)
               = if enabled then [lazyLoadSlide index] else []).
  { subst r enabled. unfold preload. cbv zeta. rewrite Hpf.
    cbn [calls joined promiseArray].
    destruct (not_false (Options.preloadFirstSlide (options this)) && ge0 index);
      rewrite !List.filter_app;
      rewrite ?(proj1 (Hcss _)), ?(proj2 (Hcss _)),
        ?(proj1 (Hcustom _)), ?(proj2 (Hcustom _));
      rewrite ?(filter_map_none is_lazyLoadSlide), ?(filter_map_all (fun c => negb (is_lazyLoadSlide c)))
        by reflexivity;
      cbn [List.filter is_lazyLoadSlide negb app];
      rewrite ?app_nil_r; split; reflexivity. }
  destruct Hfilter as [Hawait Hwarm].
  split; [|split; [|split]].
  - assert (Hj : is_Some (joined r)) by (subst r; unfold preload; eauto).
    destruct Hj as [j Hj]. rewrite Hj in Hawait.
    exists j. split; [exact Hj|]. split; [now symmetry|].
    intros v Hin. rewrite <- Hawait in Hin.
    apply list_elem_of_In, List.filter_In in Hin as [_ Hin]. discriminate.
  - intros He. now rewrite Hwarm, He.
  - intros He v Hin. rewrite He in Hwarm.
    assert (Hin' : List.In (lazyLoadSlide v) (List.filter is_lazyLoadSlide (calls r))).
    { apply List.filter_In. split; [now apply list_elem_of_In | reflexivity]. }
    now rewrite Hwarm in Hin'.
  - intros z ->. subst enabled. simpl. rewrite andb_true_iff, Z.leb_le.
    destruct (Options.preloadFirstSlide (options this)) as [[]|]; simpl;
      intuition congruence.
Qed.

Lemma preload_warm_up_not_awaited_witness :
  List.filter is_lazyLoadSlide (calls (preload (constructor demo_options) (VNum 0) None))
  = [lazyLoadSlide (VNum 0)]
  /\ forall v, lazyLoadSlide v ∉ calls (preload (constructor demo_options) (VNum (-1)) None).
Proof.
  split.
  - exact (proj1 (proj2 (preload_warm_up_not_awaited (constructor demo_options)
                           (VNum 0) None)) eq_refl).
  - exact (proj1 (proj2 (proj2 (preload_warm_up_not_awaited (constructor demo_options)
                                  (VNum (-1)) None))) eq_refl).
Defined.

(** ** _openPhotoswipe *)

(** A stale token is turned away while the flag is set: nothing changes. *)
Lemma openPhotoswipe_stale (window : Window.t) (this : Lightbox) (self : LbId)
    (fresh : ViewerId) (module : JsItem) (uid : Z) :
  uid <> _uid this -> shouldOpen this = true ->
  _openPhotoswipe window this self fresh module uid = rejected window this.
Proof.
  intros Hne Hflag. unfold _openPhotoswipe. rewrite Hflag.
  destruct (Z.eqb_spec uid (_uid this)); [contradiction | reflexivity].
Qed.

(** With the slot occupied no viewer is built, the slot keeps its viewer
    and the call returns. *)
Lemma openPhotoswipe_occupied (window : Window.t) (this : Lightbox) (self : LbId)
    (fresh : ViewerId) (module : JsItem) (uid : Z) :
  is_Some (Window.pswp window) ->
  let r := _openPhotoswipe window this self fresh module uid in
  created r = None /\ window_after r = window /\ completion r = Returned
  /\ pswp (lightbox_after r) = pswp this.
Proof.
  intros [v Hv]. unfold _openPhotoswipe.
  destruct (negb (uid =? _uid this)%Z && shouldOpen this); simpl.
  - repeat split.
  - rewrite Hv. simpl. repeat split.
Qed.

(** What [_openPhotoswipe] never touches, and what an opening implies. *)
Lemma openPhotoswipe_frame (window : Window.t) (this : Lightbox) (self : LbId)
    (fresh : ViewerId) (module : JsItem) (uid : Z) :
  let r := _openPhotoswipe window this self fresh module uid in
  _uid (lightbox_after r) = _uid this
  /\ _pluginClasses (lightbox_after r) = _pluginClasses this
  /\ options (lightbox_after r) = options this
  /\ Window.onLine (window_after r) = Window.onLine window
  /\ (shouldOpen (lightbox_after r) = true -> shouldOpen this = true)
  /\ match created r with
     | Some v =>
         Window.pswp window = None
         /\ Window.pswp (window_after r) = Some fresh
         /\ pswp (lightbox_after r) = Some fresh
         /\ v_destroyed v = false
         /\ (v_init v = true ->
             ("destroy"%string, ClearPublicVariables self) ∈ v_on v)
     | None => window_after r = window /\ pswp (lightbox_after r) = pswp this
     end.
Proof.
  unfold _openPhotoswipe.
  destruct (negb (uid =? _uid this)%Z && shouldOpen this); simpl.
  { repeat split; auto. }
  destruct (Window.pswp window) as [v|] eqn:Hslot; simpl.
  { repeat split; auto; discriminate. }
  destruct (constructor_of module) as [c|]; simpl.
  2:{ repeat split; auto; discriminate. }
  destruct (_listeners this) as [ls|]; simpl.
  - repeat split; auto; try discriminate.
    intros _. apply elem_of_app. right. apply list_elem_of_singleton. reflexivity.
  - repeat split; auto; discriminate.
Qed.

(** A call that no line of the lightbox makes: [_openPhotoswipe] called
    by hand with [shouldOpen] false and an empty slot does not cancel.
    The guard [uid !== this._uid && this.shouldOpen] is false whenever the
    flag is, so the call falls through, builds a viewer and publishes it
    in the slot, whether the token is stale (1 against 2) or current.
    The page is one where the flag was cleared through the public field
    after a [loadAndOpen] (token 1): a direct call with the stale token 0
    opens viewer 0 there. *)
Example openPhotoswipe_by_hand_with_flag_cleared :
  let this := set_uid 2 (constructor demo_options) in
  let stale := _openPhotoswipe demo_window this 0 0 (ItClass 7) 1 in
  let current := _openPhotoswipe demo_window this 0 0 (ItClass 7) 2 in
  let page :=
    run demo_platform (start (Some true))
      [New demo_options; CallLoadAndOpen 0 (VNum 0) None None;
       SetShouldOpen 0 false] in
  (shouldOpen this = false /\ _uid this = 2%Z /\ Window.pswp demo_window = None)
  /\ (is_Some (created stale) /\ Window.pswp (window_after stale) = Some 0
      /\ completion stale = Returned)
  /\ (is_Some (created current) /\ Window.pswp (window_after current) = Some 0)
  /\ (Window.pswp (w_window page) = None /\ w_heap page = []
      /\ map _uid (w_lightboxes page) = [1%Z]
      /\ map shouldOpen (w_lightboxes page) = [false]
      /\ length (w_heap (step demo_platform page
                           (CallOpenPhotoswipe 0 (ItClass 7) 0))) = 1
      /\ Window.pswp (w_window (step demo_platform page
                                  (CallOpenPhotoswipe 0 (ItClass 7) 0))) = Some 0).
Proof.
  vm_compute. repeat split; eauto.
Qed.

(** ** The callback of the join *)

Lemma fold_merge_snoc (items : list JsItem) (x : JsItem) (reg : Obj PluginRef) :
  fold_left merge_plugin (items ++ [x]) reg
  = merge_plugin (fold_left merge_plugin items reg) x.
Proof. now rewrite fold_left_app. Qed.

Lemma merge_plugin_accepted (reg : Obj PluginRef) (item : JsItem) :
  merge_plugin reg item
  = match accepted item with
    | Some (k, c) => obj_set k c reg
    | None => reg
    end.
Proof.
  destruct item as [| | |o]; try reflexivity. simpl.
  destruct (pluginKey o) as [k|]; [|reflexivity].
  destruct (moduleClass o) as [c|]; [|reflexivity].
  now destruct (str_truthy k && ref_truthy c).
Qed.

Lemma merged_keeps_names (items : list JsItem) :
  forall (reg : Obj PluginRef) (k : string),
    is_Some (obj_get k reg) -> is_Some (obj_get k (fold_left merge_plugin items reg)).
Proof.
  induction items as [|item items IH]; intros reg k Hk; simpl; [exact Hk|].
  apply IH. rewrite merge_plugin_accepted.
  destruct (accepted item) as [[k' c']|]; [|exact Hk].
  now apply obj_set_keeps.
Qed.

Lemma merged_other_names (items : list JsItem) :
  forall (reg : Obj PluginRef) (k : string),
    (forall item c, item ∈ items -> accepted item <> Some (k, c)) ->
    obj_get k (fold_left merge_plugin items reg) = obj_get k reg.
Proof.
  induction items as [|item items IH]; intros reg k Hno; simpl; [reflexivity|].
  rewrite IH.
  - rewrite merge_plugin_accepted.
    destruct (accepted item) as [[k' c']|] eqn:Hacc; [|reflexivity].
    apply obj_get_set_ne. intros ->.
    apply (Hno item c'); [apply elem_of_cons; now left | exact Hacc].
  - intros item' c Hin. apply Hno. apply elem_of_cons. now right.
Qed.

(** At its turn an accepted pair is written under its name, unless the
    name is [__proto__]. *)
Lemma merged_at_its_turn (items : list JsItem) (reg : Obj PluginRef) (n : nat)
    (item : JsItem) (k : string) (c : PluginRef) :
  items !! n = Some item -> accepted item = Some (k, c) ->
  k <> "__proto__"%string ->
  obj_get k (fold_left merge_plugin (take (S n) items) reg) = Some c.
Proof.
  intros Hn Hacc Hk.
  rewrite (take_S_r _ _ _ Hn), fold_merge_snoc, merge_plugin_accepted, Hacc.
  now apply obj_get_set_eq.
Qed.

(** A join that carries a stale token opens nothing, whatever the flag. *)
Lemma then_callback_stale (window : Window.t) (this : Lightbox) (self : LbId)
    (fresh : ViewerId) (items : list JsItem) (uid : Z) :
  uid <> _uid this ->
  let r := then_callback window this self fresh items uid in
  created r = None /\ window_after r = window /\ completion r = Returned
  /\ pswp (lightbox_after r) = pswp this
  /\ shouldOpen (lightbox_after r) = shouldOpen this.
Proof.
  intros Hne. unfold then_callback. simpl.
  destruct (shouldOpen this) eqn:Hflag.
  - rewrite openPhotoswipe_stale by (simpl; auto). simpl. auto.
  - simpl. auto.
Qed.

Lemma then_callback_frame (window : Window.t) (this : Lightbox) (self : LbId)
    (fresh : ViewerId) (items : list JsItem) (uid : Z) :
  let r := then_callback window this self fresh items uid in
  _uid (lightbox_after r) = _uid this
  /\ _pluginClasses (lightbox_after r)
     = fold_left merge_plugin items (_pluginClasses this)
  /\ options (lightbox_after r) = options this
  /\ Window.onLine (window_after r) = Window.onLine window
  /\ (shouldOpen (lightbox_after r) = true -> shouldOpen this = true)
  /\ match created r with
     | Some v =>
         Window.pswp window = None
         /\ Window.pswp (window_after r) = Some fresh
         /\ pswp (lightbox_after r) = Some fresh
         /\ v_destroyed v = false
         /\ (v_init v = true ->
             ("destroy"%string, ClearPublicVariables self) ∈ v_on v)
     | None => window_after r = window /\ pswp (lightbox_after r) = pswp this
     end.
Proof.
  unfold then_callback. simpl.
  destruct (shouldOpen this) eqn:Hflag.
  - pose proof (openPhotoswipe_frame window
                  (set_pluginClasses
                     (fold_left merge_plugin items (_pluginClasses this)) this)
                  self fresh (nth 0 items ItUndefined) uid) as H.
    simpl in H. destruct H as (H1 & H2 & H3 & H4 & H5 & H6).
    repeat split; auto.
  - simpl. repeat split; auto; congruence.
Qed.

(** C8, as first stated, fails: a plugin registered under the empty name
    resolves to the pair (empty name, class 9), the join settles, and the
    registry still holds the unresolved path under that name.  Nor is a
    pair named [__proto__] written back: the registry has no such key
    afterwards. *)
Lemma unnamed_plugin_not_written_back :
  map (fun p => promiseArray (p_join p)) (w_joins demo_unnamed_plugin)
  = [[dynamicImportModule (ModulePath "photoswipe.esm.js");
      dynamicImportPlugin EmptyString (PluginPath "lazy.js");
      loadCSS "photoswipe.css"]]
  /\ map (fun this => obj_get EmptyString (_pluginClasses this))
       (w_lightboxes
          (step demo_platform demo_unnamed_plugin
             (JoinFulfilled 0 [demo_module; demo_plugin EmptyString 9; ItUndefined])))
     = [Some (PluginPath "lazy.js")]
  /\ length (w_heap
               (step demo_platform demo_unnamed_plugin
                  (JoinFulfilled 0 [demo_module; demo_plugin EmptyString 9; ItUndefined])))
     = 1
  /\ map (fun this => _pluginClasses this)
       (w_lightboxes
          (step demo_platform demo_unnamed_plugin
             (JoinFulfilled 0
                [demo_module;
                 ItObject {| o_default := None; pluginKey := Some "__proto__"%string;
                             moduleClass := Some (PluginPath "lazy.js") |};
                 ItUndefined])))
     = [[(EmptyString, PluginPath "lazy.js")]].
Proof. vm_compute. repeat split. Qed.

(** ** The page, step by step *)

Section Page.

Context (P : Platform).

(** One case per action, with the names the proofs below use. *)
Ltac case_action a :=
  destruct a as [opts | i0 e | i0 | i0 idx ds pt | i0 idx ds | i0 m u | i0 nm pc
                 | i0 href | i0 | i0 b | j items | j | v | o].

(** *** How one action changes the window and the heap *)

Lemma run_destroy_listeners_frame (hs : list (string * Handler)) :
  forall w : World,
    let w' := fold_left run_destroy_listener hs w in
    w_heap w' = w_heap w
    /\ w_joins w' = w_joins w
    /\ Window.onLine (w_window w') = Window.onLine (w_window w)
    /\ length (w_lightboxes w') = length (w_lightboxes w)
    /\ (forall i lb, w_lightboxes w !! i = Some lb ->
          exists lb', w_lightboxes w' !! i = Some lb' /\ same_but_pswp lb lb')
    /\ (Window.pswp (w_window w') = Window.pswp (w_window w)
        \/ Window.pswp (w_window w') = None)
    /\ (Window.pswp (w_window w) = None -> Window.pswp (w_window w') = None)
    /\ (forall i, ("destroy"%string, ClearPublicVariables i) ∈ hs ->
          Window.pswp (w_window w') = None).
Proof.
  induction hs as [|h hs IH]; intros w; simpl.
  - repeat split; auto.
    + intros i lb Hi. now exists lb.
    + intros i Hin. now apply elem_of_nil in Hin.
  - specialize (IH (run_destroy_listener w h)). simpl in IH.
    destruct IH as (Hheap & Hjoins & Hon & Hlen & Hlbs & Hslot & Hnone & Hclear).
    assert (Hone :
              w_heap (run_destroy_listener w h) = w_heap w
              /\ w_joins (run_destroy_listener w h) = w_joins w
              /\ Window.onLine (w_window (run_destroy_listener w h))
                 = Window.onLine (w_window w)
              /\ length (w_lightboxes (run_destroy_listener w h))
                 = length (w_lightboxes w)
              /\ (forall i lb, w_lightboxes w !! i = Some lb ->
                    exists lb', w_lightboxes (run_destroy_listener w h) !! i = Some lb'
                                /\ same_but_pswp lb lb')
              /\ (Window.pswp (w_window (run_destroy_listener w h))
                  = Window.pswp (w_window w)
                  \/ Window.pswp (w_window (run_destroy_listener w h)) = None)
              /\ (forall i, h = ("destroy"%string, ClearPublicVariables i) ->
                    Window.pswp (w_window (run_destroy_listener w h)) = None)).
    { destruct h as [name [fn | i0]]; simpl.
      - repeat split; auto; [intros i lb Hi; now exists lb | discriminate].
      - destruct (String.eqb name "destroy") eqn:E; simpl.
        + repeat split; auto.
          * apply length_alter.
          * intros i lb Hi. rewrite list_lookup_alter.
            destruct (decide (i0 = i)) as [->|Hne].
            -- rewrite Hi. simpl. eexists. split; [reflexivity|]. reflexivity.
            -- now exists lb.
        + repeat split; auto; [intros i lb Hi; now exists lb|].
          intros i Hh. injection Hh as -> _. discriminate E. }
    destruct Hone as (Hheap1 & Hjoins1 & Hon1 & Hlen1 & Hlbs1 & Hslot1 & Hclear1).
    repeat split.
    + congruence.
    + congruence.
    + congruence.
    + congruence.
    + intros i lb Hi. destruct (Hlbs1 i lb Hi) as (lb1 & Hi1 & Hs1).
      destruct (Hlbs i lb1 Hi1) as (lb' & Hi' & Hs').
      exists lb'. split; [exact Hi'|]. unfold same_but_pswp in *. congruence.
    + destruct Hslot as [Hslot | Hslot]; [|now right].
      destruct Hslot1 as [Hslot1 | Hslot1]; [left | right]; congruence.
    + intros Hw. apply Hnone. destruct Hslot1 as [Hslot1 | Hslot1]; congruence.
    + intros i Hin. apply elem_of_cons in Hin as [Hin | Hin].
      * apply Hnone. now apply (Hclear1 i).
      * now apply (Hclear i).
Qed.

(** The slot and the heap after [_openPhotoswipe] (or the callback of a
    join) has run: unchanged, or one viewer more, built on an empty slot
    and published in it. *)
Lemma commit_opened_window_heap (i self : LbId) (o : Opened) (w : World) :
  match created o with
  | Some v =>
      Window.pswp (w_window w) = None
      /\ Window.pswp (window_after o) = Some (length (w_heap w))
      /\ pswp (lightbox_after o) = Some (length (w_heap w))
      /\ v_destroyed v = false
      /\ (v_init v = true -> ("destroy"%string, ClearPublicVariables self) ∈ v_on v)
  | None => window_after o = w_window w
  end ->
  let w' := commit_opened i o w in
  (Window.pswp (w_window w') = Window.pswp (w_window w) /\ w_heap w' = w_heap w)
  \/ (Window.pswp (w_window w) = None
      /\ Window.pswp (w_window w') = Some (length (w_heap w))
      /\ exists v, w_heap w' = w_heap w ++ [v] /\ v_destroyed v = false
                   /\ (v_init v = true ->
                       exists i', ("destroy"%string, ClearPublicVariables i') ∈ v_on v)).
Proof.
  unfold commit_opened. simpl. destruct (created o) as [v|]; simpl.
  - intros (Hempty & Hslot & _ & Hlive & Hh). right.
    repeat split; auto. exists v. repeat split; auto.
    intros Hinit. exists self. auto.
  - intros Hw. left. rewrite Hw, app_nil_r. auto.
Qed.

Lemma step_window_heap (w : World) (a : Action) :
  let w' := step P w a in
  (Window.pswp (w_window w') = Window.pswp (w_window w) /\ w_heap w' = w_heap w)
  \/ (reaches_gate a
      /\ Window.pswp (w_window w) = None
      /\ Window.pswp (w_window w') = Some (length (w_heap w))
      /\ exists v, w_heap w' = w_heap w ++ [v] /\ v_destroyed v = false
                   /\ (v_init v = true ->
                       exists i, ("destroy"%string, ClearPublicVariables i) ∈ v_on v))
  \/ (exists v vw,
         a = ViewerDestroyed v /\ w_heap w !! v = Some vw /\ v_destroyed vw = false
         /\ w_heap w' = alter set_destroyed v (w_heap w)
         /\ (Window.pswp (w_window w') = Window.pswp (w_window w)
             \/ Window.pswp (w_window w') = None)
         /\ (forall i, ("destroy"%string, ClearPublicVariables i) ∈ v_on vw ->
               Window.pswp (w_window w') = None)).
Proof.
  case_action a; simpl;
    try (destruct (w_lightboxes w !! i0) as [this|]; simpl; now left);
    try (now left).
  - (* _openPhotoswipe called directly *)
    destruct (w_lightboxes w !! i0) as [this|] eqn:Hi0; [|now left].
    pose proof (openPhotoswipe_frame (w_window w) this i0 (length (w_heap w)) m u)
      as (_ & _ & _ & _ & _ & Hc).
    destruct (commit_opened_window_heap i0 i0
                (_openPhotoswipe (w_window w) this i0 (length (w_heap w)) m u) w)
      as [H | H].
    + destruct (created _); intuition.
    + now left.
    + right. left. split; [exact I | exact H].
  - (* a join is fulfilled *)
    unfold join_fulfilled.
    destruct (w_joins w !! j) as [p|]; [|now left].
    destruct (settled p || negb (length items =? length (promiseArray (p_join p))));
      [now left|].
    destruct (w_lightboxes w !! owner p) as [this|] eqn:Hi0; [|now left].
    pose proof (then_callback_frame (w_window w) this (owner p) (length (w_heap w))
                  items (uid (p_join p))) as (_ & _ & _ & _ & _ & Hc).
    destruct (commit_opened_window_heap (owner p) (owner p)
                (then_callback (w_window w) this (owner p) (length (w_heap w))
                   items (uid (p_join p))) w) as [H | H].
    + destruct (created _); intuition.
    + left. exact H.
    + right. left. split; [exact I | exact H].
  - (* a join is rejected *)
    unfold join_rejected.
    destruct (w_joins w !! j) as [p|]; [|now left].
    destruct (settled p); now left.
  - (* a viewer announces its destruction *)
    unfold viewer_destroyed.
    destruct (w_heap w !! v) as [vw|] eqn:Hv; [|now left].
    destruct (v_destroyed vw) eqn:Hd; [now left|].
    right. right. exists v, vw.
    pose proof (run_destroy_listeners_frame (v_on vw) (mark_destroyed v w))
      as (Hheap & _ & _ & _ & _ & Hslot & _ & Hclear).
    simpl in *. repeat split; auto.
Qed.

(** *** The singleton slot *)

Lemma slot_invariant_start (o : option bool) : slot_invariant (start o).
Proof.
  split.
  - intros v (vw & Hv & _). discriminate Hv.
  - intros v vw Hv. discriminate Hv.
Qed.

Lemma slot_invariant_step (w : World) (a : Action) :
  slot_invariant w -> slot_invariant (step P w a).
Proof.
  intros [Hopen Hwired].
  destruct (step_window_heap w a)
    as [[Hslot Hheap] | [(_ & Hempty & Hslot & v & Hheap & Hlive & Hh)
                        | (v & vw & _ & Hv & Hlive & Hheap & _ & _)]].
  - split.
    + intros v (vw & Hv & Hd). rewrite Hslot. apply Hopen. exists vw.
      rewrite <- Hheap. auto.
    + intros v vw Hv. rewrite Hheap in Hv. now apply (Hwired v).
  - split.
    + intros v' (vw' & Hv' & Hd'). rewrite Hheap in Hv'.
      apply lookup_snoc_Some in Hv' as [[_ Hv'] | [-> _]].
      * assert (Hv'' : Window.pswp (w_window w) = Some v')
          by (apply Hopen; now exists vw').
        congruence.
      * exact Hslot.
    + intros v' vw' Hv'. rewrite Hheap in Hv'.
      apply lookup_snoc_Some in Hv' as [[_ Hv'] | [_ <-]].
      * now apply (Hwired v').
      * exact Hh.
  - assert (Hv0 : Window.pswp (w_window w) = Some v)
      by (apply Hopen; now exists vw).
    split.
    + intros v' (vw' & Hv' & Hd'). exfalso.
      rewrite Hheap, list_lookup_alter in Hv'.
      destruct (decide (v = v')) as [<-|Hne].
      * rewrite Hv in Hv'. simpl in Hv'. injection Hv' as <-. discriminate Hd'.
      * assert (Hv'' : Window.pswp (w_window w) = Some v')
          by (apply Hopen; now exists vw').
        congruence.
    + intros v' vw' Hv'. rewrite Hheap, list_lookup_alter in Hv'.
      destruct (decide (v = v')) as [<-|Hne].
      * rewrite Hv in Hv'. simpl in Hv'. injection Hv' as <-. simpl.
        now apply (Hwired v).
      * now apply (Hwired v').
Qed.

Lemma reachable_slot_invariant (w : World) :
  reachable P w -> slot_invariant w.
Proof.
  induction 1 as [o | w a _ IH].
  - apply slot_invariant_start.
  - now apply slot_invariant_step.
Qed.

(** X17: in every reachable state of the page a viewer that is open is
    the one in the slot, so two open viewers are the same one.  An action
    changes the slot only in two ways: a run of [_openPhotoswipe] that
    found it empty publishes the viewer it has just built, or a viewer's
    destroy announcement clears it.  Hence whenever a viewer is built the
    slot was empty just before, and after the destroy announcement of a
    viewer whose opening ran to its end ([init] was reached) the slot is
    empty. *)
Theorem singleton_slot (w : World) (a : Action) :
  reachable P w ->
  let w' := step P w a in
  (forall v, is_open w v -> Window.pswp (w_window w) = Some v)
  /\ (forall v1 v2, is_open w v1 -> is_open w v2 -> v1 = v2)
  /\ (Window.pswp (w_window w') <> Window.pswp (w_window w) ->
      (reaches_gate a
       /\ Window.pswp (w_window w) = None
       /\ Window.pswp (w_window w') = Some (length (w_heap w))
       /\ length (w_heap w') = S (length (w_heap w))
       /\ is_open w' (length (w_heap w)))
      \/ (exists v, a = ViewerDestroyed v /\ is_open w v
                    /\ Window.pswp (w_window w') = None))
  /\ (length (w_heap w') <> length (w_heap w) ->
      reaches_gate a
      /\ Window.pswp (w_window w) = None
      /\ Window.pswp (w_window w') = Some (length (w_heap w)))
  /\ (forall v vw,
         a = ViewerDestroyed v -> w_heap w !! v = Some vw ->
         v_destroyed vw = false -> v_init vw = true ->
         Window.pswp (w_window w') = None).
Proof.
  intros Hreach w'. subst w'.
  destruct (reachable_slot_invariant w Hreach) as [Hopen Hwired].
  split; [exact Hopen|]. split.
  { intros v1 v2 H1 H2. apply Hopen in H1, H2. congruence. }
  destruct (step_window_heap w a)
    as [[Hslot Hheap] | [(Hgate & Hempty & Hslot & v & Hheap & Hlive & Hh)
                        | (v & vw & Ha & Hv & Hlive & Hheap & Hslot & Hclear)]].
  - split; [intros Hne; congruence|]. split; [intros Hne; congruence|].
    intros v vw Ha Hv Hlive Hinit. clear Hslot Hheap. subst a. simpl.
    unfold viewer_destroyed. rewrite Hv, Hlive.
    destruct (Hwired v vw Hv Hinit) as [i Hi].
    now apply (run_destroy_listeners_frame (v_on vw) (mark_destroyed v w)) in Hi.
  - split.
    { intros _. left. repeat split; auto.
      - rewrite Hheap, length_app. simpl. lia.
      - exists v. split; [|exact Hlive]. rewrite Hheap. now apply list_lookup_middle. }
    split; [auto|].
    intros v0 vw0 Ha. subst a. destruct Hgate.
  - split.
    { intros Hne. right. exists v. split; [exact Ha|]. split; [now exists vw|].
      destruct Hslot; congruence. }
    split.
    { intros Hne. rewrite Hheap, length_alter in Hne. congruence. }
    intros v0 vw0 Ha0 Hv0 _ Hinit. rewrite Ha in Ha0. injection Ha0 as <-.
    rewrite Hv in Hv0. injection Hv0 as <-.
    destruct (Hwired v vw Hv Hinit) as [i Hi]. now apply (Hclear i).
Qed.

(** *** How one action changes a lightbox *)

Lemma insert_lookup_cases (l : list Lightbox) (i i0 : LbId) (this x lb : Lightbox) :
  l !! i0 = Some this -> l !! i = Some lb ->
  exists lb', <[i0 := x]> l !! i = Some lb'
              /\ (i0 <> i /\ lb' = lb \/ i0 = i /\ this = lb /\ lb' = x).
Proof.
  intros Hi0 Hi. destruct (decide (i0 = i)) as [->|Hne].
  - exists x. split.
    + apply list_lookup_insert_eq. now apply lookup_lt_Some in Hi.
    + right. repeat split. congruence.
  - exists lb. split; [now rewrite list_lookup_insert_ne | now left].
Qed.

Lemma init_this (this : Lightbox) :
  this_after (init P this)
  = set_onThumbnailsClick (Bound (this_onThumbnailsClick this)) this
  /\ joined (init P this) = None.
Proof.
  unfold init.
  destruct (opt_truthy _); [destruct (document_querySelectorAll P _)|]; now split.
Qed.

Lemma destroy_this (this : Lightbox) :
  this_after (destroy P this) = set_listeners None (set_shouldOpen false this)
  /\ joined (destroy P this) = None.
Proof.
  unfold destroy. destruct (document_querySelectorAll P _); now split.
Qed.

Lemma step_lightbox (w : World) (a : Action) (i : LbId) (lb : Lightbox) :
  w_lightboxes w !! i = Some lb ->
  exists lb', w_lightboxes (step P w a) !! i = Some lb'
              /\ lightbox_after_action P w a i lb lb'.
Proof.
  intros Hi. unfold lightbox_after_action.
  case_action a; simpl;
    try (destruct (w_lightboxes w !! i0) as [this|] eqn:Hi0; simpl;
         [ match goal with
           | |- context [<[?i1 := ?x]> _] =>
               destruct (insert_lookup_cases _ i i1 this x lb Hi0 Hi)
                 as (lb' & Hlb' & [[_ Heq] | (Hi0i & Hthis & Heq)]);
               exists lb'; (split; [exact Hlb'|]); subst; auto
           end
         | exists lb; auto ]).
  - exists lb. split; [now apply lookup_app_l_Some | now left].
  - unfold join_fulfilled.
    destruct (w_joins w !! j) as [p|] eqn:Hj; [|exists lb; auto].
    destruct (settled p) eqn:Hs; simpl; [exists lb; auto|].
    destruct (negb (length items =? length (promiseArray (p_join p))));
      [exists lb; auto|].
    destruct (w_lightboxes w !! owner p) as [this|] eqn:Hi0; [|exists lb; auto].
    simpl.
    match goal with
    | |- context [<[owner p := ?x]> _] =>
        destruct (insert_lookup_cases _ i (owner p) this x lb Hi0 Hi)
          as (lb' & Hlb' & [[_ ->] | (Ho & -> & ->)])
    end.
    + exists lb. auto.
    + eexists. split; [exact Hlb'|]. right. exists p. rewrite Ho. auto.
  - unfold join_rejected.
    destruct (w_joins w !! j) as [p|]; [|exists lb; auto].
    destruct (settled p); exists lb; auto.
  - unfold viewer_destroyed.
    destruct (w_heap w !! v) as [vw|]; [|exists lb; auto].
    destruct (v_destroyed vw); [exists lb; auto|].
    pose proof (run_destroy_listeners_frame (v_on vw) (mark_destroyed v w))
      as (_ & _ & _ & _ & Hlbs & _).
    destruct (Hlbs i lb Hi) as (lb' & Hlb' & Hsame).
    exists lb'. auto.
  - exists lb. auto.
Qed.

(** *** The load token *)

Lemma preload_token_advanced (this : Lightbox) (index : JsVal)
    (dataSource : option DataSource) :
  token_advanced this (preload this index dataSource).
Proof. unfold token_advanced. simpl. auto. Qed.

Lemma loadAndOpen_token_advanced (window : Window.t) (this : Lightbox)
    (index : JsVal) (dataSource : option DataSource) (initialPoint : option Point) :
  token_advanced this (loadAndOpen window this index dataSource initialPoint).
Proof.
  unfold token_advanced, loadAndOpen.
  destruct (occupied (Window.pswp window)); simpl; auto.
Qed.

Lemma onThumbnailsClick_token_advanced (window : Window.t)
    (this : Lightbox) (e : Event.t) :
  token_advanced this (onThumbnailsClick P window this e).
Proof.
  unfold onThumbnailsClick.
  destruct (specialKeyUsed P e || occupied (Window.pswp window)
            || is_false (Window.onLine window)); [reflexivity|].
  destruct (ge0 (getClickedIndex P this e)); [|reflexivity].
  apply (loadAndOpen_token_advanced window this).
Qed.

Lemma token_advanced_le {A : Type} (this : Lightbox) (r : Ret A) :
  token_advanced this r -> (_uid this <= _uid (this_after r))%Z.
Proof. unfold token_advanced. destruct (joined r); intros; lia. Qed.

Lemma same_but_pswp_fields (lb lb' : Lightbox) :
  same_but_pswp lb lb' ->
  _uid lb' = _uid lb /\ shouldOpen lb' = shouldOpen lb
  /\ _pluginClasses lb' = _pluginClasses lb /\ options lb' = options lb.
Proof.
  unfold same_but_pswp. intros H.
  repeat split;
    [ apply (f_equal _uid) in H | apply (f_equal shouldOpen) in H
    | apply (f_equal _pluginClasses) in H | apply (f_equal options) in H ];
    exact H.
Qed.

Lemma lightbox_after_action_uid (w : World) (a : Action) (i : LbId)
    (lb lb' : Lightbox) :
  lightbox_after_action P w a i lb lb' -> (_uid lb <= _uid lb')%Z.
Proof.
  intros [-> | H]; [lia|].
  case_action a;
    try (exfalso; exact H).
  - destruct H as [_ ->].
    apply token_advanced_le, onThumbnailsClick_token_advanced.
  - destruct H as [_ ->]. rewrite (proj1 (init_this lb)). simpl. lia.
  - destruct H as [_ ->].
    apply token_advanced_le, loadAndOpen_token_advanced.
  - destruct H as [_ ->].
    apply token_advanced_le, preload_token_advanced.
  - destruct H as [_ ->].
    pose proof (openPhotoswipe_frame (w_window w) lb i (length (w_heap w)) m u)
      as [Hu _]. simpl in Hu. lia.
  - destruct H as [_ ->]. simpl. lia.
  - destruct H as [_ ->]. simpl. lia.
  - destruct H as [_ ->]. rewrite (proj1 (destroy_this lb)). simpl. lia.
  - destruct H as [_ ->]. simpl. lia.
  - destruct H as (p & _ & _ & _ & ->).
    pose proof (then_callback_frame (w_window w) lb i (length (w_heap w))
                  items (uid (p_join p))) as [Hu _]. simpl in Hu. lia.
  - apply same_but_pswp_fields in H as [Hu _]. lia.
Qed.

Lemma commit_join_origin {A : Type} (i : LbId) (r : Ret A) (w : World)
    (this : Lightbox) (k : nat) (p' : Pending) :
  w_lightboxes w !! i = Some this -> token_advanced this r ->
  w_joins (commit i r w) !! k = Some p' ->
  join_origin w (commit i r w) k p'.
Proof.
  intros Hi Htok Hk. unfold commit in *. simpl in *.
  apply lookup_app_Some in Hk as [Hk | [Hlen Hk]].
  - left. now exists p'.
  - right. unfold token_advanced in Htok. unfold pending_of in Hk.
    destruct (joined r) as [j|]; [|discriminate Hk].
    destruct (k - length (w_joins w)) as [|n] eqn:Hn; [|discriminate Hk].
    injection Hk as <-. simpl. split; [lia|].
    exists this, (this_after r). repeat split; try apply Htok; auto.
    apply list_lookup_insert_eq. now apply lookup_lt_Some in Hi.
Qed.

Lemma alter_settle_origin (w w' : World) (j k : nat) (p' : Pending) :
  alter settle j (w_joins w) !! k = Some p' -> join_origin w w' k p'.
Proof.
  intros Hk. left. rewrite list_lookup_alter in Hk.
  destruct (decide (j = k)) as [->|_].
  - destruct (w_joins w !! k) as [p|]; [|discriminate Hk].
    injection Hk as <-. now exists p.
  - now exists p'.
Qed.

Lemma step_join_origin (w : World) (a : Action) (k : nat)
    (p' : Pending) :
  w_joins (step P w a) !! k = Some p' -> join_origin w (step P w a) k p'.
Proof.
  case_action a; cbn [step];
    try (destruct (w_lightboxes w !! i0) as [this|] eqn:Hi0);
    try (intros Hk; left; exists p'; split; [exact Hk | split; reflexivity]).
  - apply (commit_join_origin i0 _ w this); auto.
    apply onThumbnailsClick_token_advanced.
  - apply (commit_join_origin i0 _ w this); auto.
    unfold token_advanced. now rewrite (proj2 (init_this this)), (proj1 (init_this this)).
  - apply (commit_join_origin i0 _ w this); auto.
    apply loadAndOpen_token_advanced.
  - apply (commit_join_origin i0 _ w this); auto.
    apply preload_token_advanced.
  - apply (commit_join_origin i0 _ w this); auto.
    unfold token_advanced.
    now rewrite (proj2 (destroy_this this)), (proj1 (destroy_this this)).
  - unfold join_fulfilled.
    destruct (w_joins w !! j) as [p|]; [|intros Hk; left; now exists p'].
    destruct (settled p || _); [intros Hk; left; now exists p'|].
    destruct (w_lightboxes w !! owner p); [|intros Hk; left; now exists p'].
    simpl. apply alter_settle_origin.
  - unfold join_rejected.
    destruct (w_joins w !! j) as [p|]; [|intros Hk; left; now exists p'].
    destruct (settled p); [intros Hk; left; now exists p'|].
    simpl. apply alter_settle_origin.
  - unfold viewer_destroyed.
    destruct (w_heap w !! v) as [vw|]; [|intros Hk; left; now exists p'].
    destruct (v_destroyed vw); [intros Hk; left; now exists p'|].
    pose proof (run_destroy_listeners_frame (v_on vw) (mark_destroyed v w))
      as (_ & Hjoins & _).
    simpl in Hjoins. rewrite Hjoins. intros Hk; left; now exists p'.
Qed.

Lemma token_invariant_step (w : World) (a : Action) :
  token_invariant w -> token_invariant (step P w a).
Proof.
  intros Hinv k p' Hk.
  destruct (step_join_origin w a k p' Hk)
    as [(p & Hp & Ho & Hj) | (_ & lb & lb' & _ & Hlb' & Hu & _)].
  - destruct (Hinv k p Hp) as (lb & Hlb & Hle).
    destruct (step_lightbox w a (owner p) lb Hlb) as (lb' & Hlb' & Hact).
    apply lightbox_after_action_uid in Hact.
    exists lb'. rewrite Ho, Hj. split; [exact Hlb' | lia].
  - exists lb'. split; [exact Hlb' | lia].
Qed.

Lemma reachable_token_invariant (w : World) :
  reachable P w -> token_invariant w.
Proof.
  induction 1 as [o | w a _ IH].
  - intros k p Hk. discriminate Hk.
  - now apply token_invariant_step.
Qed.

(** C6: [preload] advances the load token by exactly one and the join it
    registers captures the new value.  On a reachable page the record of
    joins holds one entry per earlier [preload] (each call appends its
    own), and the token a further [preload] on lightbox [i] captures is
    strictly greater than the token of every entry of that lightbox. *)
Theorem preload_token_strictly_greater (w : World) (i : LbId)
    (this : Lightbox) (index : JsVal) (dataSource : option DataSource) :
  reachable P w ->
  w_lightboxes w !! i = Some this ->
  let r := preload this index dataSource in
  _uid (this_after r) = (_uid this + 1)%Z
  /\ (exists j, joined r = Some j /\ uid j = (_uid this + 1)%Z
                /\ w_joins (step P w (CallPreload i index dataSource))
                   = w_joins w ++ [{| owner := i; p_join := j; settled := false |}])
  /\ (forall k p, w_joins w !! k = Some p -> owner p = i ->
        (uid (p_join p) < _uid this + 1)%Z).
Proof.
  intros Hreach Hi r. split; [reflexivity|]. split.
  - eexists. split; [reflexivity|]. split; [reflexivity|].
    simpl. now rewrite Hi.
  - intros k p Hk Ho.
    destruct (reachable_token_invariant w Hreach k p Hk) as (lb & Hlb & Hle).
    rewrite Ho, Hi in Hlb. injection Hlb as <-. lia.
Qed.

(** *** The shouldOpen flag *)

Lemma loadAndOpen_keeps_flag_set (window : Window.t) (this : Lightbox)
    (index : JsVal) (dataSource : option DataSource) (initialPoint : option Point) :
  shouldOpen this = true ->
  shouldOpen (this_after (loadAndOpen window this index dataSource initialPoint)) = true.
Proof.
  intros Hflag. unfold loadAndOpen.
  now destruct (occupied (Window.pswp window)).
Qed.

Lemma onThumbnailsClick_keeps_flag_set (window : Window.t)
    (this : Lightbox) (e : Event.t) :
  shouldOpen this = true ->
  shouldOpen (this_after (onThumbnailsClick P window this e)) = true.
Proof.
  intros Hflag. unfold onThumbnailsClick.
  destruct (specialKeyUsed P e || occupied (Window.pswp window)
            || is_false (Window.onLine window)); [exact Hflag|].
  destruct (ge0 (getClickedIndex P this e)); [|exact Hflag].
  now apply loadAndOpen_keeps_flag_set.
Qed.

Lemma action_clears_flag (w : World) (a : Action) (i : LbId)
    (lb lb' : Lightbox) :
  lightbox_after_action P w a i lb lb' ->
  shouldOpen lb = true -> shouldOpen lb' = false -> may_clear_flag w i a.
Proof.
  intros [-> | H] Hset Hclear; [congruence|].
  case_action a;
    try (exfalso; exact H).
  - destruct H as [_ ->].
    rewrite onThumbnailsClick_keeps_flag_set in Hclear by exact Hset. discriminate.
  - destruct H as [_ ->]. rewrite (proj1 (init_this lb)) in Hclear.
    simpl in Hclear. congruence.
  - destruct H as [_ ->].
    rewrite loadAndOpen_keeps_flag_set in Hclear by exact Hset. discriminate.
  - destruct H as [_ ->]. rewrite preload_keeps_shouldOpen in Hclear. congruence.
  - destruct H as [Hi _]. exact Hi.
  - destruct H as [_ ->]. simpl in Hclear. congruence.
  - destruct H as [_ ->]. simpl in Hclear. congruence.
  - destruct H as [Hi _]. exact Hi.
  - destruct H as [Hi ->]. simpl in Hclear. split; [exact Hi | exact Hclear].
  - destruct H as (p & Hp & Ho & _). exists p. auto.
  - apply same_but_pswp_fields in H as (_ & Hflag & _). congruence.
Qed.

(** C2, as first stated, fails: [preload] called on its own leaves
    [shouldOpen] as it was (unset after the constructor), advances the
    token all the same, and the join it registered opens nothing when it
    settles. *)
Lemma preload_alone_leaves_shouldOpen_unset :
  shouldOpen (this_after (preload (constructor demo_options) (VNum 0) None)) = false
  /\ _uid (this_after (preload (constructor demo_options) (VNum 0) None)) = 1%Z
  /\ map settled
       (w_joins (run demo_platform (start (Some true))
                   [New demo_options; CallPreload 0 (VNum 0) None;
                    JoinFulfilled 0 [demo_module; ItUndefined]])) = [true]
  /\ w_heap (run demo_platform (start (Some true))
               [New demo_options; CallPreload 0 (VNum 0) None;
                JoinFulfilled 0 [demo_module; ItUndefined]]) = [].
Proof. vm_compute. repeat split. Qed.

(** C2 (amended): [preload] never writes [shouldOpen].  The flag is set
    by [loadAndOpen], when the slot is empty, before it calls [preload]:
    [preload] runs on a lightbox whose flag is already true and whose
    token is not yet advanced, so the flag is true before the token is
    incremented and before the join is awaited.  Once true, the flag of a
    lightbox is cleared only by an action that runs [_openPhotoswipe] on
    it (directly or from the callback of one of its joins), by [destroy],
    or by a write of [false] to the public field. *)
Theorem shouldOpen_set_by_loadAndOpen (w : World) (a : Action)
    (i : LbId) (lb : Lightbox) (index : JsVal) (dataSource : option DataSource)
    (initialPoint : option Point) :
  w_lightboxes w !! i = Some lb ->
  shouldOpen (this_after (preload lb index dataSource)) = shouldOpen lb
  /\ (Window.pswp (w_window w) = None ->
      let prepared :=
        set_shouldOpen true
          (set_options
             (Options.set_initialPointerPos initialPoint
                (Options.set_index index (options lb))) lb) in
      let r := loadAndOpen (w_window w) lb index dataSource initialPoint in
      shouldOpen prepared = true
      /\ _uid prepared = _uid lb
      /\ this_after r = this_after (preload prepared index dataSource)
      /\ shouldOpen (this_after r) = true
      /\ _uid (this_after r) = (_uid lb + 1)%Z)
  /\ (shouldOpen lb = true ->
      forall lb', w_lightboxes (step P w a) !! i = Some lb' ->
                  shouldOpen lb' = false -> may_clear_flag w i a).
Proof.
  intros Hi. split; [reflexivity|]. split.
  - intros Hslot. unfold loadAndOpen. rewrite Hslot. simpl. repeat split.
  - intros Hset lb' Hlb' Hclear.
    destruct (step_lightbox w a i lb Hi) as (lb'' & Hlb'' & Hact).
    rewrite Hlb' in Hlb''. injection Hlb'' as <-.
    now apply (action_clears_flag w a i lb lb').
Qed.

(** *** A rejected join *)



(** *** Overlapping loads *)

(** A join that settles with a token its lightbox has moved past builds
    no viewer and leaves the window alone, whatever the flag says: the
    callback either skips [_openPhotoswipe] (flag false) or is turned away
    by its guard (flag true). *)
Lemma stale_join_opens_nothing (w : World) (j : nat)
    (items : list JsItem) (p : Pending) (lb : Lightbox) :
  w_joins w !! j = Some p ->
  w_lightboxes w !! owner p = Some lb ->
  uid (p_join p) <> _uid lb ->
  w_heap (step P w (JoinFulfilled j items)) = w_heap w
  /\ w_window (step P w (JoinFulfilled j items)) = w_window w.
Proof.
  intros Hj Hlb Hstale. cbn [step]. unfold join_fulfilled. rewrite Hj.
  destruct (settled p || _); [auto|]. rewrite Hlb.
  pose proof (then_callback_stale (w_window w) lb (owner p) (length (w_heap w))
                items (uid (p_join p)) Hstale) as (Hc & Hw & _).
  unfold mark_settled, commit_opened. simpl. rewrite Hc, Hw. simpl.
  now rewrite app_nil_r.
Qed.

(** What the callback of a join does with a lightbox whose token has
    moved on, whose flag is not set, or on a page whose slot is occupied:
    it builds nothing, leaves the window alone and returns. *)
Lemma then_callback_turned_away (window : Window.t) (this : Lightbox) (self : LbId)
    (fresh : ViewerId) (items : list JsItem) (uid : Z) :
  uid <> _uid this \/ shouldOpen this = false \/ is_Some (Window.pswp window) ->
  let r := then_callback window this self fresh items uid in
  created r = None /\ window_after r = window /\ completion r = Returned.
Proof.
  intros [Hstale | [Hflag | Hslot]].
  - pose proof (then_callback_stale window this self fresh items uid Hstale)
      as (Hc & Hw & Hr & _). auto.
  - unfold then_callback. cbn [shouldOpen set_pluginClasses]. rewrite Hflag.
    now cbn.
  - unfold then_callback. cbn [shouldOpen set_pluginClasses].
    destruct (shouldOpen this); [|now cbn].
    pose proof (openPhotoswipe_occupied window
                  (set_pluginClasses
                     (fold_left merge_plugin items (_pluginClasses this)) this)
                  self fresh (nth 0 items ItUndefined) uid Hslot)
      as (Hc & Hw & Hr & _). auto.
Qed.

(** The page after a join was fulfilled and its callback built nothing
    and left the window alone. *)
Lemma join_fulfilled_built_nothing (w : World) (j : nat) (items : list JsItem)
    (p : Pending) (lb : Lightbox) :
  w_joins w !! j = Some p -> w_lightboxes w !! owner p = Some lb ->
  let r := then_callback (w_window w) lb (owner p) (length (w_heap w)) items
             (uid (p_join p)) in
  created r = None -> window_after r = w_window w ->
  w_heap (step P w (JoinFulfilled j items)) = w_heap w
  /\ w_window (step P w (JoinFulfilled j items)) = w_window w.
Proof.
  intros Hj Hlb r Hc Hw. cbn [step]. unfold join_fulfilled. rewrite Hj.
  destruct (settled p || _); [auto|]. rewrite Hlb.
  unfold mark_settled, commit_opened. cbn [w_heap w_window]. fold r.
  rewrite Hc, Hw. cbn. now rewrite app_nil_r.
Qed.

(** C1: [_openPhotoswipe] has one caller, the callback of a join (line
    187), which calls it only while [shouldOpen] is set and skips the
    call otherwise.  For every such call: when the token is not the
    current one, or the slot is occupied, no viewer is built, the slot is
    unchanged and the call returns.  So for every fulfilled join, when
    its token is not the current one, or [shouldOpen] is false at that
    time, or the slot is occupied, no viewer is built, the window (with
    the slot) and the heap are unchanged, and the callback returns.  Of
    two joins of one lightbox, the one with the smaller token is stale
    whenever it settles: it opens nothing, so only the later attempt may
    open a viewer. *)
Theorem open_gate_turns_away (w : World) (j : nat) (items : list JsItem)
    (p : Pending) (lb : Lightbox) :
  reachable P w ->
  w_joins w !! j = Some p -> w_lightboxes w !! owner p = Some lb ->
  let merged :=
    set_pluginClasses (fold_left merge_plugin items (_pluginClasses lb)) lb in
  let r := then_callback (w_window w) lb (owner p) (length (w_heap w)) items
             (uid (p_join p)) in
  let w' := step P w (JoinFulfilled j items) in
  (r = if shouldOpen lb
       then _openPhotoswipe (w_window w) merged (owner p) (length (w_heap w))
              (nth 0 items ItUndefined) (uid (p_join p))
       else rejected (w_window w) merged)
  /\ (forall window this self fresh module uid,
        shouldOpen this = true ->
        uid <> _uid this \/ is_Some (Window.pswp window) ->
        let o := _openPhotoswipe window this self fresh module uid in
        created o = None /\ window_after o = window /\ completion o = Returned)
  /\ (uid (p_join p) <> _uid lb \/ shouldOpen lb = false
      \/ is_Some (Window.pswp (w_window w)) ->
      created r = None /\ window_after r = w_window w /\ completion r = Returned
      /\ w_heap w' = w_heap w /\ w_window w' = w_window w)
  /\ (forall j2 p2,
        w_joins w !! j2 = Some p2 -> owner p2 = owner p ->
        (uid (p_join p) < uid (p_join p2))%Z ->
        uid (p_join p) <> _uid lb
        /\ w_heap w' = w_heap w /\ w_window w' = w_window w).
Proof.
  intros Hreach Hj Hlb merged r w'.
  assert (Haway : uid (p_join p) <> _uid lb \/ shouldOpen lb = false
                  \/ is_Some (Window.pswp (w_window w)) ->
                  created r = None /\ window_after r = w_window w
                  /\ completion r = Returned
                  /\ w_heap w' = w_heap w /\ w_window w' = w_window w).
  { intros Hcase.
    destruct (then_callback_turned_away (w_window w) lb (owner p) (length (w_heap w))
                items (uid (p_join p)) Hcase) as (Hc & Hw & Hr).
    split; [exact Hc|]. split; [exact Hw|]. split; [exact Hr|].
    now apply (join_fulfilled_built_nothing w j items p lb). }
  split; [|split; [|split; [exact Haway|]]].
  - subst r. unfold then_callback. cbn [shouldOpen set_pluginClasses].
    now destruct (shouldOpen lb).
  - intros window this self fresh module uid0 Hflag [Hstale | Hslot].
    + rewrite openPhotoswipe_stale by assumption. now cbn.
    + pose proof (openPhotoswipe_occupied window this self fresh module uid0 Hslot)
        as (Hc & Hw & Hr & _). auto.
  - intros j2 p2 Hj2 Ho Hlt.
    destruct (reachable_token_invariant w Hreach j2 p2 Hj2) as (lb2 & Hlb2 & Hle).
    rewrite Ho, Hlb in Hlb2. injection Hlb2 as <-.
    assert (Hstale : uid (p_join p) <> _uid lb) by lia.
    split; [exact Hstale|]. apply Haway. now left.
Qed.

(** C8 (amended): when a join settles, a plugin acquisition that resolved
    to a pair with a non-empty name other than [__proto__] and a truthy
    reference is written into the registry under its name at its turn.
    The merge is complete before [_openPhotoswipe] is consulted (which
    receives the merged lightbox and leaves the registry alone), it
    happens whether or not the token is stale, and a stale token
    suppresses only the construction.  The reference is still the one
    under that name at the end unless a later member of the same join
    is accepted under that name. *)
Theorem join_merges_resolved_plugins (w : World) (j n : nat) (p : Pending)
    (lb : Lightbox) (items : list JsItem) (name : string) (ref : PluginRef)
    (o : JsObject) (k : string) (c : PluginRef) :
  w_joins w !! j = Some p -> settled p = false ->
  length items = length (promiseArray (p_join p)) ->
  w_lightboxes w !! owner p = Some lb ->
  promiseArray (p_join p) !! n = Some (dynamicImportPlugin name ref) ->
  items !! n = Some (ItObject o) ->
  pluginKey o = Some k -> moduleClass o = Some c ->
  str_truthy k = true -> k <> "__proto__"%string -> ref_truthy c = true ->
  let merged :=
    set_pluginClasses (fold_left merge_plugin items (_pluginClasses lb)) lb in
  let r := then_callback (w_window w) lb (owner p) (length (w_heap w)) items
             (uid (p_join p)) in
  let w' := step P w (JoinFulfilled j items) in
  obj_get k (fold_left merge_plugin (take (S n) items) (_pluginClasses lb)) = Some c
  /\ r = (if shouldOpen lb
          then _openPhotoswipe (w_window w) merged (owner p) (length (w_heap w))
                 (nth 0 items ItUndefined) (uid (p_join p))
          else rejected (w_window w) merged)
  /\ w_lightboxes w' !! owner p = Some (lightbox_after r)
  /\ _pluginClasses (lightbox_after r) = _pluginClasses merged
  /\ (uid (p_join p) <> _uid lb -> w_heap w' = w_heap w /\ w_window w' = w_window w)
  /\ ((forall m item c', n < m -> items !! m = Some item ->
                         accepted item <> Some (k, c')) ->
      obj_get k (_pluginClasses (lightbox_after r)) = Some c).
Proof.
  intros Hj Hs Hlen Hlb _ Hn Hk Hc Hkt Hproto Hct merged r w'.
  assert (Hacc : accepted (ItObject o) = Some (k, c)).
  { cbn. now rewrite Hk, Hc, Hkt, Hct. }
  pose proof (merged_at_its_turn items (_pluginClasses lb) n _ k c Hn Hacc Hproto)
    as Hturn.
  pose proof (then_callback_frame (w_window w) lb (owner p) (length (w_heap w)) items
                (uid (p_join p))) as (_ & Hreg & _).
  fold r in Hreg.
  split; [exact Hturn|]. split; [|split; [|split; [exact Hreg|split]]].
  - subst r. unfold then_callback. cbn [shouldOpen set_pluginClasses].
    now destruct (shouldOpen lb).
  - subst w'. cbn [step]. unfold join_fulfilled.
    rewrite Hj, Hs, Hlen, Nat.eqb_refl, Hlb. cbn [orb negb].
    unfold mark_settled, commit_opened. cbn [w_lightboxes].
    apply list_lookup_insert_eq. now apply lookup_lt_Some in Hlb.
  - intros Hstale.
    destruct (then_callback_turned_away (w_window w) lb (owner p) (length (w_heap w))
                items (uid (p_join p)) (or_introl Hstale)) as (Hcr & Hw & _).
    now apply (join_fulfilled_built_nothing w j items p lb).
  - intros Hlater. rewrite Hreg.
    rewrite <- (take_drop (S n) items) at 1. rewrite fold_left_app.
    rewrite merged_other_names; [exact Hturn|].
    intros item c' Hin. apply list_elem_of_lookup in Hin as [m Hm].
    rewrite lookup_drop in Hm. apply (Hlater (S n + m)); [lia | exact Hm].
Qed.

End Page.

(** ** The demo page *)

Lemma open_gate_turns_away_witness :
  reachable demo_platform demo_opened
  /\ map (fun q => uid (p_join q)) (w_joins demo_opened) = [1%Z; 2%Z]
  /\ Window.pswp (w_window demo_opened) = Some 0
  /\ w_heap (step demo_platform demo_opened (JoinFulfilled 0 demo_results))
     = w_heap demo_opened
  /\ w_window (step demo_platform demo_opened (JoinFulfilled 0 demo_results))
     = w_window demo_opened.
Proof.
  assert (Hreach : reachable demo_platform demo_opened)
    by (apply reachable_run, reachable_run, reach_start).
  split; [exact Hreach|]. split; [vm_compute; reflexivity|].
  split; [vm_compute; reflexivity|].
  refine (proj2 (proj2 (proj2
            (proj1 (proj2 (proj2
               (open_gate_turns_away demo_platform demo_opened 0 demo_results
                  {| owner := 0;
                     p_join :=
                       {| uid := 1;
                          promiseArray :=
                            [dynamicImportModule (ModulePath "photoswipe.esm.js");
                             dynamicImportPlugin "zoom" (PluginPath "zoom.js");
                             loadCSS "photoswipe.css"] |};
                     settled := false |}
                  demo_holding Hreach _ _))) _)))).
  - vm_compute. reflexivity.
  - vm_compute. reflexivity.
  - left. vm_compute. discriminate.
Defined.

Lemma join_merges_resolved_plugins_witness :
  obj_get "zoom"
    (_pluginClasses
       (lightbox_after
          (then_callback (w_window demo_two_clicks) demo_clicked 0
             (length (w_heap demo_two_clicks)) demo_results 1)))
  = Some (PluginClass 9)
  /\ w_heap (step demo_platform demo_two_clicks (JoinFulfilled 0 demo_results))
     = w_heap demo_two_clicks.
Proof.
  pose proof (join_merges_resolved_plugins demo_platform demo_two_clicks 0 1
                {| owner := 0;
                   p_join :=
                     {| uid := 1;
                        promiseArray :=
                          [dynamicImportModule (ModulePath "photoswipe.esm.js");
                           dynamicImportPlugin "zoom" (PluginPath "zoom.js");
                           loadCSS "photoswipe.css"] |};
                   settled := false |}
                demo_clicked demo_results "zoom" (PluginPath "zoom.js")
                {| o_default := None; pluginKey := Some "zoom"%string;
                   moduleClass := Some (PluginClass 9) |}
                "zoom" (PluginClass 9)
                ltac:(vm_compute; reflexivity) eq_refl eq_refl
                ltac:(vm_compute; reflexivity) eq_refl eq_refl eq_refl eq_refl
                eq_refl ltac:(discriminate) eq_refl)
    as (_ & _ & _ & _ & Hstale & Hlast).
  split.
  - apply Hlast. intros m item c' Hm Hitem.
    destruct m as [|[|[|m]]]; try lia; [|discriminate Hitem].
    cbn in Hitem. injection Hitem as <-. discriminate.
  - apply Hstale. vm_compute. discriminate.
Defined.

Lemma singleton_slot_witness :
  reachable demo_platform demo_two_clicks
  /\ Window.pswp (w_window demo_two_clicks) = None
  /\ Window.pswp (w_window demo_opened) = Some 0
  /\ Window.pswp (w_window (step demo_platform demo_opened (ViewerDestroyed 0)))
     = None.
Proof.
  assert (Hreach : reachable demo_platform demo_two_clicks)
    by apply reachable_run, reach_start.
  assert (Hreach' : reachable demo_platform demo_opened)
    by now apply reachable_run.
  split; [exact Hreach|].
  pose proof (singleton_slot demo_platform demo_two_clicks
                (JoinFulfilled 1 demo_results) Hreach) as (_ & _ & _ & Hbuilt & _).
  assert (Hgrows : length (w_heap (step demo_platform demo_two_clicks
                                     (JoinFulfilled 1 demo_results)))
                   <> length (w_heap demo_two_clicks))
    by (vm_compute; discriminate).
  destruct (Hbuilt Hgrows) as (_ & Hbefore & Hafter).
  split; [exact Hbefore|]. split; [exact Hafter|].
  refine (proj2 (proj2 (proj2 (proj2
            (singleton_slot demo_platform demo_opened (ViewerDestroyed 0) Hreach'))))
            0 {| v_class := 7; v_options := 0; pluginClasses := Some 0;
                 v_on := [("destroy"%string, ClearPublicVariables 0)];
                 v_init := true; v_destroyed := false |}
            eq_refl _ eq_refl eq_refl).
  vm_compute. reflexivity.
Defined.

(** C3 (the code departs from the claim): the slot is not empty after
    every close notification.  On a page with one lightbox, [destroy()]
    followed by [loadAndOpen(0)]: the join is fulfilled, the callback
    builds viewer 0 and publishes it in [this.pswp] and in the slot, and
    [Object.keys(this._listeners)] throws on the [null] that [destroy]
    left, before the handler that clears the slot is registered.  The
    page is reachable, viewer 0 is open and in the slot; when it
    announces its destruction the slot still holds it, no viewer is open
    any more, and a later [loadAndOpen] is refused. *)
Theorem slot_occupied_after_close :
  let before :=
    run demo_platform demo_one_lightbox
      [CallDestroy 0; CallLoadAndOpen 0 (VNum 0) None None;
       JoinFulfilled 0 [demo_module; ItUndefined]] in
  let after := step demo_platform before (ViewerDestroyed 0) in
  reachable demo_platform before
  /\ is_open before 0
  /\ Window.pswp (w_window before) = Some 0
  /\ map v_destroyed (w_heap after) = [true]
  /\ (forall v, ~ is_open after v)
  /\ Window.pswp (w_window after) = Some 0
  /\ value (loadAndOpen (w_window after) (constructor demo_options) (VNum 1) None None)
     = false.
Proof.
  intros before after.
  split; [apply reachable_run, reach_step, reach_start|].
  split.
  { exists {| v_class := 7; v_options := 0; pluginClasses := Some 0; v_on := [];
              v_init := false; v_destroyed := false |}.
    split; vm_compute; reflexivity. }
  split; [vm_compute; reflexivity|]. split; [vm_compute; reflexivity|].
  split; [|split; vm_compute; reflexivity].
  intros v (vw & Hv & Hlive).
  assert (Hheap : w_heap after
                  = [{| v_class := 7; v_options := 0; pluginClasses := Some 0;
                        v_on := []; v_init := false; v_destroyed := true |}])
    by (vm_compute; reflexivity).
  rewrite Hheap in Hv. destruct v as [|v]; [|destruct v; discriminate Hv].
  injection Hv as <-. discriminate Hlive.
Qed.

Lemma preload_token_strictly_greater_witness :
  reachable demo_platform demo_two_clicks
  /\ map (fun p => (owner p, uid (p_join p))) (w_joins demo_two_clicks)
     = [(0, 1%Z); (0, 2%Z)]
  /\ forall k p, w_joins demo_two_clicks !! k = Some p -> owner p = 0 ->
                 (uid (p_join p) < 3)%Z.
Proof.
  assert (Hreach : reachable demo_platform demo_two_clicks)
    by apply reachable_run, reach_start.
  split; [exact Hreach|]. split; [reflexivity|].
  assert (Hi : w_lightboxes demo_two_clicks !! 0 = Some demo_clicked)
    by (vm_compute; reflexivity).
  assert (Hu : (_uid demo_clicked + 1 = 3)%Z) by (vm_compute; reflexivity).
  pose proof (preload_token_strictly_greater demo_platform demo_two_clicks 0
                demo_clicked (VNum 0) None Hreach Hi) as (_ & _ & Hless).
  rewrite Hu in Hless. exact Hless.
Defined.

Lemma shouldOpen_set_by_loadAndOpen_witness :
  shouldOpen
    (this_after
       (loadAndOpen (w_window demo_one_lightbox) (constructor demo_options)
          (VNum 1) None None))
  = true.
Proof.
  exact (proj1 (proj2 (proj2 (proj2
           (proj1 (proj2
              (shouldOpen_set_by_loadAndOpen demo_platform demo_one_lightbox
                 (CallPreload 0 (VNum 1) None) 0 (constructor demo_options)
                 (VNum 1) None None eq_refl))
              eq_refl))))).
Defined.


(** Tokens 1 then 2 on one lightbox; attempt 2 settles first and opens
    viewer 0, attempt 1 settles last and opens nothing. *)
Example two_attempts_late_first_settles :
  map (fun p => uid (p_join p)) (w_joins demo_two_clicks) = [1%Z; 2%Z]
  /\ Window.pswp (w_window demo_opened) = Some 0
  /\ length (w_heap demo_opened) = 1
  /\ w_heap (step demo_platform demo_opened (JoinFulfilled 0 demo_results))
     = w_heap demo_opened
  /\ w_window (step demo_platform demo_opened (JoinFulfilled 0 demo_results))
     = w_window demo_opened.
Proof. vm_compute. repeat split. Qed.

(** * Further properties of the methods *)

(** ** getClickedIndex: what a returned index means *)

Lemma find_child_sound (c : Element) (l : list Element) :
  forall (i z : Z),
    find_child c l i = VNum z ->
    (i <= z)%Z /\ l !! Z.to_nat (z - i) = Some c
    /\ (z < i + Z.of_nat (length l))%Z.
Proof.
  induction l as [|el rest IH]; intros i z H; simpl in H; [discriminate|].
  destruct (Nat.eqb c el) eqn:E.
  - apply Nat.eqb_eq in E. subst el. injection H as <-.
    rewrite Z.sub_diag. simpl. repeat split; [lia | lia].
  - destruct (IH (i + 1)%Z z H) as (Hle & Hnth & Hlt).
    replace (Z.to_nat (z - i)) with (S (Z.to_nat (z - (i + 1)))) by lia.
    simpl. repeat split; [lia | exact Hnth | lia].
Qed.

Lemma find_child_not_null (c : Element) (l : list Element) :
  forall i : Z, find_child c l i <> VNull.
Proof.
  induction l as [|el rest IH]; intros i; simpl; [discriminate|].
  destruct (Nat.eqb c el); [discriminate | apply IH].
Qed.

(** X1: with no custom index function, [getClickedIndex] never returns
    [null] or a negative number; a number it returns is 0 when no child
    selector is configured, and otherwise a valid position in the
    container's [querySelectorAll] list, the one holding the closest
    match of the click target. *)
Theorem getClickedIndex_sound (P : Platform) (this : Lightbox) (e : Event.t) :
  Options.getClickedIndexFn (options this) = None ->
  getClickedIndex P this e <> VNull
  /\ forall z : Z,
       getClickedIndex P this e = VNum z ->
       (0 <= z)%Z
       /\ (opt_truthy (Options.childSelector (options this)) = false /\ z = 0%Z
           \/ exists sel c,
                Options.childSelector (options this) = Some sel
                /\ str_truthy sel = true
                /\ closest P (Event.target e) sel = Some c
                /\ querySelectorAll P (Event.currentTarget e) sel !! Z.to_nat z
                   = Some c
                /\ (z < Z.of_nat
                          (length (querySelectorAll P (Event.currentTarget e) sel)))%Z).
Proof.
  intros Hfn. unfold getClickedIndex. rewrite Hfn.
  destruct (Options.childSelector (options this)) as [sel|] eqn:Hsel; simpl.
  - destruct (str_truthy sel) eqn:Ht.
    + destruct (closest P (Event.target e) sel) as [c|] eqn:Hc.
      * split; [apply find_child_not_null|].
        intros z Hz. apply find_child_sound in Hz as (Hle & Hnth & Hlt).
        rewrite Z.sub_0_r in Hnth. split; [exact Hle|]. right.
        exists sel, c. repeat split; auto.
      * split; [discriminate|]. intros z Hz. discriminate Hz.
    + split; [discriminate|]. intros z Hz. injection Hz as <-.
      split; [lia|]. left. auto.
  - split; [discriminate|]. intros z Hz. injection Hz as <-.
    split; [lia|]. left. auto.
Qed.

Lemma getClickedIndex_sound_witness :
  getClickedIndex demo_platform (constructor demo_options) (demo_click 13 false)
  <> VNull
  /\ demo_querySelectorAll 10 "a" !! 2 = Some 3.
Proof.
  pose proof (getClickedIndex_sound demo_platform (constructor demo_options)
                (demo_click 13 false) eq_refl) as [Hnull Hnum].
  split; [exact Hnull|].
  destruct (Hnum 2%Z eq_refl) as (_ & [[Hfalse _] | (sel & c & Hsel & _ & Hc & Hnth & _)]).
  - discriminate Hfalse.
  - injection Hsel as <-. simpl in Hc. injection Hc as <-. exact Hnth.
Defined.

(** ** onThumbnailsClick: interception *)

Lemma Forall_map_loads {A : Type} (f : A -> ExtCall) (l : list A) :
  (forall a, is_load_call (f a) = true) ->
  Forall (fun c => is_load_call c = true) (map f l).
Proof.
  intros Hf. induction l as [|a l IH]; simpl; constructor; auto.
Qed.

Lemma preload_calls_are_loads (this : Lightbox) (index : JsVal)
    (dataSource : option DataSource) :
  Forall (fun c => is_load_call c = true) (calls (preload this index dataSource)).
Proof.
  unfold preload. cbn [calls].
  assert (Hcss : forall o : option string,
             Forall (fun c => is_load_call c = true)
               (match o with
                | Some href => if str_truthy href then [loadCSS href] else []
                | None => []
                end)).
  { intros [href|]; [destruct (str_truthy href)|]; repeat constructor. }
  assert (Hcustom : forall o : option FnId,
             Forall (fun c => is_load_call c = true)
               (match o with Some f => [call_openPromise f] | None => [] end)).
  { intros [f|]; repeat constructor. }
  destruct (not_false _ && ge0 index);
    repeat (apply Forall_app; split);
    auto using Forall_map_loads; repeat constructor.
Qed.

Lemma preload_never_prevents (this : Lightbox) (index : JsVal)
    (dataSource : option DataSource) :
  preventDefault ∉ calls (preload this index dataSource).
Proof.
  intros Hin.
  pose proof (preload_calls_are_loads this index dataSource) as Hall.
  rewrite Forall_forall in Hall. apply Hall in Hin. discriminate Hin.
Qed.

(** X2: the click handler calls [preventDefault] exactly when the click
    is not passed through and the resolved index satisfies [>= 0].  Then
    [preventDefault] is its first call and is made once, a load is always
    started ([loadAndOpen] cannot refuse, the slot having just been seen
    empty): one join is registered, the token advances by one and
    [shouldOpen] is set.  In every other case the handler makes no call
    and changes nothing, even though the click was not passed through. *)
Theorem onThumbnailsClick_intercepts (P : Platform) (window : Window.t)
    (this : Lightbox) (e : Event.t) :
  let r := onThumbnailsClick P window this e in
  (preventDefault ∈ calls r <->
   passes_through P window e = false /\ ge0 (getClickedIndex P this e) = true)
  /\ (preventDefault ∈ calls r ->
      exists rest j,
        calls r = (preventDefault :: rest)
        /\ (preventDefault ∉ rest)
        /\ joined r = Some j /\ uid j = (_uid this + 1)%Z
        /\ _uid (this_after r) = (_uid this + 1)%Z
        /\ shouldOpen (this_after r) = true)
  /\ (preventDefault ∉ calls r ->
      r = {| value := tt; this_after := this; calls := []; joined := None |}).
Proof.
  intros r. subst r. unfold onThumbnailsClick, passes_through.
  destruct (specialKeyUsed P e || occupied (Window.pswp window)
            || is_false (Window.onLine window)) eqn:Hpass.
  { cbn [calls]. split; [|split].
    - split; [intros H; now apply elem_of_nil in H | intros [H _]; discriminate H].
    - intros H. now apply elem_of_nil in H.
    - reflexivity. }
  destruct (ge0 (getClickedIndex P this e)) eqn:Hge.
  2:{ cbn [calls]. split; [|split].
      - split; [intros H; now apply elem_of_nil in H | intros [_ H]; discriminate H].
      - intros H. now apply elem_of_nil in H.
      - reflexivity. }
  assert (Hslot : occupied (Window.pswp window) = false).
  { destruct (occupied (Window.pswp window)); [|reflexivity].
    now rewrite orb_true_r in Hpass. }
  unfold loadAndOpen. rewrite Hslot. cbn [calls joined this_after].
  split; [|split].
  - split; [auto | intros _; apply elem_of_cons; now left].
  - intros _. eexists _, _. split; [reflexivity|].
    split; [apply preload_never_prevents|]. repeat split.
  - intros Hnot. exfalso. apply Hnot. apply elem_of_cons. now left.
Qed.

Lemma onThumbnailsClick_intercepts_witness :
  preventDefault
  ∈ calls (onThumbnailsClick demo_platform demo_window (constructor demo_options)
             (demo_click 12 false))
  /\ onThumbnailsClick demo_platform demo_window (constructor demo_options)
       (demo_click 10 false)
     = {| value := tt; this_after := constructor demo_options; calls := [];
          joined := None |}.
Proof.
  split.
  - exact (proj2 (proj1 (onThumbnailsClick_intercepts demo_platform demo_window
                           (constructor demo_options) (demo_click 12 false)))
             (conj eq_refl eq_refl)).
  - apply (proj2 (proj2 (onThumbnailsClick_intercepts demo_platform demo_window
                           (constructor demo_options) (demo_click 10 false)))).
    intros Hin.
    apply (proj1 (onThumbnailsClick_intercepts demo_platform demo_window
                    (constructor demo_options) (demo_click 10 false))) in Hin.
    destruct Hin as [_ Hge]. discriminate Hge.
Defined.

(** X3: what an intercepted click hands to the viewer.  The options then
    hold the resolved index, the clicked gallery as data source, and as
    initial pointer position the click coordinates, or [null] when both
    coordinates are falsy (0 or undefined: a keyboard activation); a
    click with only one coordinate at 0 keeps its point.  No other option
    and nothing of the registry or the stylesheet list is touched. *)
Theorem onThumbnailsClick_stores (P : Platform) (window : Window.t)
    (this : Lightbox) (e : Event.t) :
  passes_through P window e = false ->
  ge0 (getClickedIndex P this e) = true ->
  let o := options (this_after (onThumbnailsClick P window this e)) in
  Options.index o = getClickedIndex P this e
  /\ Options.dataSource o = Some (DSGallery (Event.currentTarget e))
  /\ Options.initialPointerPos o = initialPoint_of e
  /\ (initialPoint_of e = None <->
      js_not (Event.clientX e) = true /\ js_not (Event.clientY e) = true)
  /\ Options.set_index (Options.index (options this))
       (Options.set_initialPointerPos (Options.initialPointerPos (options this))
          (Options.set_dataSource (Options.dataSource (options this)) o))
     = options this
  /\ _pluginClasses (this_after (onThumbnailsClick P window this e))
     = _pluginClasses this
  /\ _additionalDynamicCSS (this_after (onThumbnailsClick P window this e))
     = _additionalDynamicCSS this.
Proof.
  intros Hpass Hge o. subst o. unfold onThumbnailsClick.
  unfold passes_through in Hpass. rewrite Hpass, Hge.
  assert (Hslot : occupied (Window.pswp window) = false).
  { destruct (occupied (Window.pswp window)); [|reflexivity].
    now rewrite orb_true_r in Hpass. }
  unfold loadAndOpen. rewrite Hslot. cbn.
  split; [reflexivity|]. split; [reflexivity|]. split; [reflexivity|].
  split; [|split; [|split; reflexivity]].
  - unfold initialPoint_of.
    destruct (js_not (Event.clientX e)), (js_not (Event.clientY e)); simpl;
      split; try (intros Hnone; discriminate Hnone);
      try (intros [Hx Hy]; discriminate); auto.
  - now destruct (options this).
Qed.

Lemma onThumbnailsClick_stores_witness :
  Options.initialPointerPos
    (options (this_after (onThumbnailsClick demo_platform demo_window
                            (constructor demo_options) (demo_click 12 false))))
  = Some {| point_x := VNum 5; point_y := VNum 7 |}.
Proof.
  exact (proj1 (proj2 (proj2 (onThumbnailsClick_stores demo_platform demo_window
                                (constructor demo_options) (demo_click 12 false)
                                eq_refl eq_refl)))).
Defined.

(** ** _openPhotoswipe: the rule as written *)

Lemma is_Some_not_None {A : Type} (x : option A) : is_Some x <-> x <> None.
Proof.
  destruct x as [a|]; split; eauto; try congruence.
  intros [y Hy]. discriminate Hy.
Qed.

Lemma openPhotoswipe_created_iff (window : Window.t) (this : Lightbox)
    (self : LbId) (fresh : ViewerId) (module : JsItem) (uid : Z) :
  is_Some (created (_openPhotoswipe window this self fresh module uid)) <->
  (uid = _uid this \/ shouldOpen this = false)
  /\ Window.pswp window = None
  /\ is_Some (constructor_of module).
Proof.
  unfold _openPhotoswipe.
  destruct (negb (uid =? _uid this)%Z && shouldOpen this) eqn:Hg.
  { apply andb_true_iff in Hg as [Hu Hflag].
    apply negb_true_iff, Z.eqb_neq in Hu. cbn.
    rewrite is_Some_not_None, Hflag. intuition congruence. }
  assert (Hpast : uid = _uid this \/ shouldOpen this = false).
  { apply andb_false_iff in Hg as [Hu | Hflag]; [left | now right].
    now apply negb_false_iff, Z.eqb_eq in Hu. }
  destruct (Window.pswp window) as [v0|] eqn:Hslot; cbn [occupied].
  { cbn. rewrite is_Some_not_None. intuition congruence. }
  destruct (constructor_of module) as [c|] eqn:Hc.
  2:{ cbn. rewrite !is_Some_not_None. intuition congruence. }
  cbn [_listeners set_pswp set_shouldOpen].
  destruct (_listeners this) as [ls|] eqn:Hls; cbn; rewrite !is_Some_not_None;
    intuition congruence.
Qed.

(** X4: [_openPhotoswipe] builds a viewer exactly when the token is the
    current one or [shouldOpen] is false, the slot is empty and the
    module yields a constructor.  It throws exactly when it got past the
    guard and the slot check and then either the module yields no
    constructor or [_listeners] is [null].  Afterwards [shouldOpen] is
    still true only if the call was turned away as stale; in every other
    case, opened or not, the flag has been cleared. *)
Theorem openPhotoswipe_admits_iff (window : Window.t) (this : Lightbox)
    (self : LbId) (fresh : ViewerId) (module : JsItem) (uid : Z) :
  let r := _openPhotoswipe window this self fresh module uid in
  (is_Some (created r) <->
   (uid = _uid this \/ shouldOpen this = false)
   /\ Window.pswp window = None
   /\ is_Some (constructor_of module))
  /\ (completion r = Thrown <->
      (uid = _uid this \/ shouldOpen this = false)
      /\ Window.pswp window = None
      /\ (constructor_of module = None \/ _listeners this = None))
  /\ (shouldOpen (lightbox_after r) = true <->
      uid <> _uid this /\ shouldOpen this = true).
Proof.
  unfold _openPhotoswipe.
  assert (Hsome : forall (A : Type) (x : option A), is_Some x <-> x <> None).
  { intros A [x|]; split; eauto; try congruence.
    intros [y Hy]; discriminate Hy. }
  destruct (negb (uid =? _uid this)%Z && shouldOpen this) eqn:Hg.
  { apply andb_true_iff in Hg as [Hu Hflag].
    apply negb_true_iff, Z.eqb_neq in Hu. cbn.
    rewrite Hsome, Hflag. intuition congruence. }
  assert (Hpast : uid = _uid this \/ shouldOpen this = false).
  { apply andb_false_iff in Hg as [Hu | Hflag]; [left | now right].
    now apply negb_false_iff, Z.eqb_eq in Hu. }
  assert (Hflag' : ~ (uid <> _uid this /\ shouldOpen this = true))
    by (intros [Hu Hf]; destruct Hpast; congruence).
  destruct (Window.pswp window) as [v0|] eqn:Hslot; cbn [occupied].
  { cbn. rewrite Hsome. intuition congruence. }
  destruct (constructor_of module) as [c|] eqn:Hc.
  2:{ cbn. rewrite !Hsome. intuition congruence. }
  cbn [_listeners set_pswp set_shouldOpen].
  destruct (_listeners this) as [ls|] eqn:Hls; cbn; rewrite !Hsome;
    intuition congruence.
Qed.

(** ** addPlugin and the registry *)

Lemma obj_get_None_keys {V : Type} (k : string) (o : Obj V) :
  obj_get k o = None <-> k ∉ map fst o.
Proof.
  induction o as [|[k' v] rest IH]; simpl.
  - split; [intros _ H; now apply elem_of_nil in H | reflexivity].
  - destruct (String.eqb_spec k' k) as [->|Hne].
    + split; [discriminate|]. intros H. exfalso. apply H. apply elem_of_cons. now left.
    + rewrite IH. rewrite not_elem_of_cons. split; [auto | intros [_ H]; exact H].
Qed.

Lemma array_index_inj (k k' : string) (n : N) :
  array_index k = Some n -> array_index k' = Some n -> k = k'.
Proof.
  unfold array_index. intros Hk Hk'.
  destruct (NilZero.uint_of_string k) as [d|]; [|discriminate Hk].
  destruct (NilZero.uint_of_string k') as [d'|]; [|discriminate Hk'].
  cbv zeta in Hk, Hk'.
  destruct (String.eqb_spec (NilZero.string_of_uint (N.to_uint (N.of_uint d))) k)
    as [E|_]; [|discriminate Hk].
  destruct (String.eqb_spec (NilZero.string_of_uint (N.to_uint (N.of_uint d'))) k')
    as [E'|_]; [|discriminate Hk'].
  destruct (N.of_uint d <=? 4294967294)%N; [|discriminate Hk].
  destruct (N.of_uint d' <=? 4294967294)%N; [|discriminate Hk'].
  simpl in Hk, Hk'. injection Hk as Hn. injection Hk' as Hn'.
  rewrite <- E, <- E', Hn, Hn'. reflexivity.
Qed.

Lemma obj_replace_keys {V : Type} (k : string) (v : V) (o : Obj V) :
  map fst (obj_replace k v o) = map fst o.
Proof.
  induction o as [|[k' v'] rest IH]; simpl; [reflexivity|].
  destruct (String.eqb k' k); simpl; [reflexivity | now rewrite IH].
Qed.

(** Where a new array index lands among the keys. *)
Lemma obj_insert_index_keys {V : Type} (n : N) (k : string) (v : V) (o : Obj V) :
  exists before after,
    map fst o = before ++ after
    /\ map fst (obj_insert_index n k v o) = before ++ k :: after
    /\ Forall (fun k' => exists m, array_index k' = Some m /\ (m < n)%N) before
    /\ (forall k', head after = Some k' ->
          forall m, array_index k' = Some m -> (n <= m)%N).
Proof.
  induction o as [|[k' v'] rest IH]; simpl.
  - exists [], []. repeat split; auto. intros k' Hk'. discriminate Hk'.
  - destruct (array_index k') as [m|] eqn:Hm.
    + destruct (N.ltb_spec m n) as [Hlt|Hge].
      * destruct IH as (before & after & Hkeys & Hkeys' & Hsmall & Hhead).
        exists (k' :: before), after. simpl. rewrite Hkeys, Hkeys'.
        repeat split; auto. constructor; [now exists m | exact Hsmall].
      * exists [], (k' :: map fst rest). simpl. repeat split; auto.
        intros k0 Hk0 m0 Hm0. injection Hk0 as <-. congruence.
    + exists [], (k' :: map fst rest). simpl. repeat split; auto.
      intros k0 Hk0 m0 Hm0. injection Hk0 as <-. congruence.
Qed.

Lemma forallb_names_later (n : N) (ks : list string) :
  forallb is_name ks = true -> forallb (later_key n) ks = true.
Proof.
  rewrite !forallb_forall. intros H k Hk. specialize (H k Hk).
  unfold is_name in H. unfold later_key. now destruct (array_index k).
Qed.

Lemma forallb_later_weaken (m n : N) (ks : list string) :
  (n <= m)%N -> forallb (later_key m) ks = true -> forallb (later_key n) ks = true.
Proof.
  intros Hle. rewrite !forallb_forall. intros H k Hk. specialize (H k Hk).
  unfold later_key in *. destruct (array_index k) as [x|]; [|reflexivity].
  apply N.ltb_lt in H. apply N.ltb_lt. lia.
Qed.

(** A key list in the order of [Object.keys] stays in that order when a
    new name is put at its end. *)
Lemma keys_ordered_name (k : string) (ks : list string) :
  array_index k = None -> keys_ordered ks = true -> keys_ordered (ks ++ [k]) = true.
Proof.
  intros Hk. induction ks as [|k' rest IH]; simpl.
  - now rewrite Hk.
  - destruct (array_index k') as [m|].
    + rewrite !andb_true_iff. intros [Hlater Hrest]. split; [|now apply IH].
      rewrite forallb_app, Hlater. simpl. unfold later_key. now rewrite Hk.
    + intros Hnames. rewrite forallb_app, Hnames. simpl. unfold is_name.
      now rewrite Hk.
Qed.

(** It stays in that order, too, when a new array index is put behind
    the smaller indices and before a name or a larger index. *)
Lemma keys_ordered_index (k : string) (n : N) (before after : list string) :
  array_index k = Some n ->
  k ∉ before ++ after ->
  Forall (fun k' => exists m, array_index k' = Some m /\ (m < n)%N) before ->
  (forall k', head after = Some k' -> forall m, array_index k' = Some m -> (n <= m)%N) ->
  keys_ordered (before ++ after) = true ->
  keys_ordered (before ++ k :: after) = true.
Proof.
  intros Hk. induction before as [|k' before IH]; simpl; intros Hnew Hsmall Hhead Hord.
  - rewrite Hk. rewrite andb_true_iff. split; [|exact Hord].
    destruct after as [|k0 after]; [reflexivity|]. simpl in *.
    apply not_elem_of_cons in Hnew as [Hne _].
    destruct (array_index k0) as [m|] eqn:Hm.
    + apply andb_true_iff in Hord as [Hlater Hrest].
      assert (Hle : (n <= m)%N) by (apply (Hhead k0 eq_refl m); exact Hm).
      assert (Hnm : n <> m).
      { intros ->. apply Hne. exact (array_index_inj k k0 m Hk Hm). }
      rewrite andb_true_iff. split.
      * unfold later_key. rewrite Hm. apply N.ltb_lt. lia.
      * now apply (forallb_later_weaken m n).
    + rewrite andb_true_iff. split.
      * unfold later_key. now rewrite Hm.
      * now apply forallb_names_later.
  - apply not_elem_of_cons in Hnew as [Hne Hnew].
    apply Forall_cons in Hsmall as [(m & Hm & Hlt) Hsmall].
    rewrite Hm in *. apply andb_true_iff in Hord as [Hlater Hrest].
    rewrite andb_true_iff. split; [|now apply IH].
    rewrite forallb_app in *. apply andb_true_iff in Hlater as [H1 H2].
    rewrite H1. simpl. rewrite H2, andb_true_r.
    unfold later_key. rewrite Hk. now apply N.ltb_lt.
Qed.

(** How one assignment changes the keys of a table. *)
Lemma obj_set_keys {V : Type} (k : string) (v : V) (o : Obj V) :
  k <> "__proto__"%string ->
  let keys := map fst o in
  let keys' := map fst (obj_set k v o) in
  (k ∈ keys -> keys' = keys)
  /\ (k ∉ keys ->
      exists before after,
        keys = before ++ after /\ keys' = before ++ k :: after
        /\ match array_index k with
           | None => after = []
           | Some n =>
               Forall (fun k' => exists m, array_index k' = Some m /\ (m < n)%N) before
               /\ (forall k', head after = Some k' ->
                     forall m, array_index k' = Some m -> (n < m)%N)
           end)
  /\ (NoDup keys -> NoDup keys')
  /\ (keys_ordered keys = true -> keys_ordered keys' = true).
Proof.
  intros Hproto keys keys'. subst keys keys'.
  unfold obj_set. destruct (String.eqb_spec k "__proto__") as [|_]; [contradiction|].
  destruct (obj_get k o) as [x|] eqn:Hget.
  - (* the key is there *)
    rewrite obj_replace_keys. repeat split; auto.
    intros Hnew. exfalso. apply obj_get_None_keys in Hnew. congruence.
  - (* a new key *)
    pose proof (proj1 (obj_get_None_keys k _) Hget) as Hnew.
    split; [intros Hin; contradiction|].
    destruct (array_index k) as [n|] eqn:Hn.
    + destruct (obj_insert_index_keys n k v o)
        as (before & after & Hkeys & Hkeys' & Hsmall & Hhead).
      rewrite Hkeys'. split; [|split].
      * intros _. exists before, after. repeat split; auto.
        intros k' Hk' m Hm. specialize (Hhead k' Hk' m Hm).
        assert (Hnm : n <> m).
        { intros ->. apply Hnew. rewrite (array_index_inj k k' m Hn Hm), Hkeys.
          apply elem_of_app. right. destruct after; [discriminate Hk'|].
          injection Hk' as ->. apply elem_of_cons. now left. }
        lia.
      * rewrite Hkeys. intros Hnd. apply NoDup_app in Hnd as (Hb & Hba & Ha).
        rewrite Hkeys in Hnew. apply not_elem_of_app in Hnew as [Hnb Hna].
        apply NoDup_app. split; [exact Hb|]. split.
        -- intros x Hx Hx'. apply elem_of_cons in Hx' as [-> | Hx']; [contradiction|].
           now apply (Hba x).
        -- apply NoDup_cons. now split.
      * rewrite Hkeys. rewrite Hkeys in Hnew. intros Hord.
        now apply (keys_ordered_index k n).
    + rewrite map_app. cbn [map fst]. split; [|split].
      * intros _. exists (map fst o), []. rewrite app_nil_r. auto.
      * intros Hnd. apply NoDup_app. split; [exact Hnd|]. split.
        -- intros x Hx Hx'. apply list_elem_of_singleton in Hx'. now subst x.
        -- apply NoDup_singleton.
      * now apply keys_ordered_name.
Qed.



(** ** The merge of the callback: what it leaves alone *)

(** X6: when a join is fulfilled, the callback never removes a name from
    the registry, and a name carried by none of the pairs the guard
    accepts keeps its reference; this holds whether or not a viewer is
    then opened. *)
Theorem then_callback_keeps_registry (window : Window.t) (this : Lightbox)
    (self : LbId) (fresh : ViewerId) (items : list JsItem) (uid : Z) (k : string) :
  let r := then_callback window this self fresh items uid in
  (is_Some (obj_get k (_pluginClasses this)) ->
   is_Some (obj_get k (_pluginClasses (lightbox_after r))))
  /\ ((forall item c, item ∈ items -> accepted item <> Some (k, c)) ->
      obj_get k (_pluginClasses (lightbox_after r)) = obj_get k (_pluginClasses this)).
Proof.
  intros r.
  pose proof (then_callback_frame window this self fresh items uid) as (_ & Hreg & _).
  fold r in Hreg. rewrite Hreg. split.
  - apply merged_keeps_names.
  - apply merged_other_names.
Qed.

Lemma then_callback_keeps_registry_witness :
  obj_get "caption"
    (_pluginClasses
       (lightbox_after
          (then_callback demo_window
             (addPlugin (constructor demo_options) "caption" (PluginPath "caption.js"))
             0 0 demo_results 0)))
  = Some (PluginPath "caption.js").
Proof.
  refine (proj2 (then_callback_keeps_registry demo_window
                   (addPlugin (constructor demo_options) "caption"
                      (PluginPath "caption.js"))
                   0 0 demo_results 0 "caption") _).
  intros item c Hin. apply list_elem_of_In in Hin. simpl in Hin.
  destruct Hin as [<- | [<- | [<- | []]]]; discriminate.
Defined.

(** ** init and destroy *)

(** [destroy] calls [close] on the viewer [this.pswp] holds, and on no
    other. *)
Lemma destroy_closes (P : Platform) (this : Lightbox) (v : ViewerId) :
  pswp_close v ∈ calls (destroy P this) <-> pswp this = Some v.
Proof.
  unfold destroy.
  assert (Hclose : pswp_close v
                   ∈ match pswp this with Some v' => [pswp_close v'] | None => [] end
                   <-> pswp this = Some v).
  { destruct (pswp this) as [v'|].
    - rewrite list_elem_of_singleton. split; congruence.
    - split; [intros H; now apply elem_of_nil in H | discriminate]. }
  destruct (document_querySelectorAll P _) as [els|]; cbn [calls]; [|exact Hclose].
  rewrite elem_of_app, Hclose. split; [|auto].
  intros [H | H]; [exact H|]. apply list_elem_of_In, in_map_iff in H.
  destruct H as (el & Heq & _). discriminate Heq.
Qed.

(** *** Listeners on the page *)

(** [bind] returns an object that is not its target. *)
Lemma Bound_new (f : ClickListener) : Bound f <> f.
Proof. induction f as [|f IH]; [discriminate|]. intros H. injection H as H. auto. Qed.

Lemma listeners_after_app (ls : list (Element * ClickListener)) (l1 l2 : list ExtCall) :
  listeners_after ls (l1 ++ l2) = listeners_after (listeners_after ls l1) l2.
Proof. apply fold_left_app. Qed.

(** Adding one function object to elements that do not have it yet. *)
Lemma listeners_after_add (f : ClickListener) (els : list Element) :
  forall ls : list (Element * ClickListener),
    NoDup els -> (forall el, el ∈ els -> (el, f) ∉ ls) ->
    listeners_after ls (map (fun el => addEventListener el f) els)
    = ls ++ map (fun el => (el, f)) els.
Proof.
  induction els as [|el els IH]; intros ls Hnd Hnew; cbn.
  - now rewrite app_nil_r.
  - apply NoDup_cons in Hnd as [Hel Hnd].
    rewrite bool_decide_eq_false_2 by (apply Hnew; apply elem_of_cons; now left).
    fold (listeners_after (ls ++ [(el, f)]) (map (fun el => addEventListener el f) els)).
    rewrite IH; [now rewrite <- app_assoc | exact Hnd |].
    intros el' Hel' Hin. apply elem_of_app in Hin as [Hin | Hin].
    + apply (Hnew el'); [apply elem_of_cons; now right | exact Hin].
    + apply list_elem_of_singleton in Hin. injection Hin as ->. contradiction.
Qed.

Lemma filter_filter_and {A : Type} (f g : A -> bool) (l : list A) :
  List.filter f (List.filter g l) = List.filter (fun x => g x && f x) l.
Proof.
  induction l as [|x l IH]; cbn; [reflexivity|].
  destruct (g x); cbn; [destruct (f x)|]; now rewrite IH.
Qed.

(** Removing one function object from a list of elements. *)
Lemma listeners_after_remove (f : ClickListener) (els : list Element) :
  forall ls : list (Element * ClickListener),
    listeners_after ls (map (fun el => removeEventListener el f) els)
    = List.filter
        (fun p => negb (bool_decide (p ∈ map (fun el => (el, f)) els))) ls.
Proof.
  induction els as [|el els IH]; intros ls; cbn.
  - induction ls as [|p ls IHls]; cbn; [reflexivity|].
    rewrite bool_decide_eq_false_2 by apply not_elem_of_nil. cbn. now rewrite <- IHls.
  - fold (listeners_after
            (List.filter (fun p => negb (bool_decide (p = (el, f)))) ls)
            (map (fun el => removeEventListener el f) els)).
    rewrite IH, filter_filter_and. apply List.filter_ext. intros q.
    destruct (decide (q = (el, f))) as [->|Hne].
    + rewrite bool_decide_eq_true_2 by reflexivity. cbn.
      rewrite bool_decide_eq_true_2 by (apply elem_of_cons; now left). reflexivity.
    + rewrite bool_decide_eq_false_2 by exact Hne. cbn.
      f_equal. apply bool_decide_ext. rewrite elem_of_cons. tauto.
Qed.

Lemma filter_keeps_all {A : Type} (f : A -> bool) (l : list A) :
  (forall x, x ∈ l -> f x = true) -> List.filter f l = l.
Proof.
  induction l as [|x l IH]; intros Hall; cbn; [reflexivity|].
  rewrite Hall by (apply elem_of_cons; now left).
  rewrite IH; [reflexivity|]. intros y Hy. apply Hall. apply elem_of_cons. now right.
Qed.

Lemma filter_drops_all {A : Type} (f : A -> bool) (l : list A) :
  (forall x, x ∈ l -> f x = false) -> List.filter f l = [].
Proof.
  induction l as [|x l IH]; intros Hall; cbn; [reflexivity|].
  rewrite Hall by (apply elem_of_cons; now left).
  apply IH. intros y Hy. apply Hall. apply elem_of_cons. now right.
Qed.

Lemma elem_of_bound_pairs (f g : ClickListener) (el : Element) (els : list Element) :
  (el, g) ∈ map (fun el => (el, f)) els <-> g = f /\ el ∈ els.
Proof.
  split.
  - intros Hin. apply list_elem_of_In, in_map_iff in Hin as (x & Heq & Hin).
    injection Heq as -> ->. split; [reflexivity | now apply list_elem_of_In].
  - intros [-> Hin]. apply list_elem_of_In, in_map_iff.
    exists el. split; [reflexivity | now apply list_elem_of_In].
Qed.

(** The calls of [init], and of [destroy] apart from [close], when the
    selector query returns. *)
Lemma init_calls (P : Platform) (this : Lightbox) (sel : string) (els : list Element) :
  Options.gallerySelector (options this) = Some sel -> str_truthy sel = true ->
  document_querySelectorAll P sel = Some els ->
  init P this
  = {| value := Returned;
       this_after := set_onThumbnailsClick (Bound (this_onThumbnailsClick this)) this;
       calls := map (fun el => addEventListener el (Bound (this_onThumbnailsClick this)))
                  els;
       joined := None |}.
Proof.
  intros Hsel Ht Hels. unfold init. cbn [options set_onThumbnailsClick].
  rewrite Hsel. cbn [opt_truthy selector_text]. now rewrite Ht, Hels.
Qed.

Lemma destroy_listeners (P : Platform) (this : Lightbox)
    (ls : list (Element * ClickListener)) :
  listeners_after ls (calls (destroy P this))
  = match
      document_querySelectorAll P (selector_text (Options.gallerySelector (options this)))
    with
    | Some els =>
        List.filter
          (fun p => negb (bool_decide
                            (p ∈ map (fun el => (el, this_onThumbnailsClick this)) els)))
          ls
    | None => ls
    end.
Proof.
  unfold destroy. cbn [options set_listeners set_shouldOpen this_onThumbnailsClick].
  destruct (document_querySelectorAll P _) as [els|]; cbn [calls].
  - rewrite listeners_after_app.
    replace (listeners_after ls
               match pswp this with Some v => [pswp_close v] | None => [] end)
      with ls by now destruct (pswp this).
    apply listeners_after_remove.
  - now destruct (pswp this).
Qed.

(** X7: [init] binds [onThumbnailsClick] anew, stores the new function
    object in the lightbox and, when the gallery selector is truthy and
    the query returns, adds it as click listener to every element the
    selector matches.  A [destroy] that runs while the lightbox still
    holds that function object removes it from every element the
    selector matches then.  So when the elements [init] found still
    match, every listener [init] added is gone and the listeners of the
    page are as before [init]; an element that no longer matches keeps
    its listener. *)
Theorem init_destroy_listeners (P P' : Platform) (this later : Lightbox)
    (sel : string) (els els' : list Element) (ls : list (Element * ClickListener)) :
  Options.gallerySelector (options this) = Some sel -> str_truthy sel = true ->
  document_querySelectorAll P sel = Some els ->
  Options.gallerySelector (options later) = Some sel ->
  document_querySelectorAll P' sel = Some els' ->
  let f := Bound (this_onThumbnailsClick this) in
  this_onThumbnailsClick later = f ->
  (forall el, (el, f) ∉ ls) ->
  let r := init P this in
  let d := destroy P' later in
  value r = Returned
  /\ this_after r = set_onThumbnailsClick f this
  /\ listeners_after ls (calls r) = ls ++ map (fun el => (el, f)) els
  /\ value d = Returned
  /\ ((forall el, el ∈ els -> el ∈ els') ->
      listeners_after ls (calls r ++ calls d) = ls)
  /\ (forall el, el ∈ els -> el ∉ els' ->
        (el, f) ∈ listeners_after ls (calls r ++ calls d))
  /\ (forall q, q ∈ ls -> q ∈ listeners_after ls (calls r ++ calls d)).
Proof.
  intros Hsel Ht Hels Hsel' Hels' f Hf Hnew r d.
  assert (Er : r = {| value := Returned; this_after := set_onThumbnailsClick f this;
                      calls := map (fun el => addEventListener el f) els;
                      joined := None |})
    by now apply (init_calls P this sel).
  assert (Hadd : listeners_after ls (calls r) = ls ++ map (fun el => (el, f)) els).
  { rewrite Er. cbn [calls]. apply listeners_after_add.
    - exact (document_querySelectorAll_NoDup P sel els Hels).
    - intros el _. apply Hnew. }
  assert (Hd : value d = Returned).
  { subst d. unfold destroy. cbn [options set_listeners set_shouldOpen].
    rewrite Hsel'. cbn [selector_text]. now rewrite Hels'. }
  assert (Hall : listeners_after ls (calls r ++ calls d)
                 = List.filter
                     (fun p => negb (bool_decide (p ∈ map (fun el => (el, f)) els')))
                     (ls ++ map (fun el => (el, f)) els)).
  { rewrite listeners_after_app, Hadd. subst d. rewrite destroy_listeners.
    rewrite Hsel'. cbn [selector_text]. now rewrite Hels', Hf. }
  assert (Hkeep : List.filter
                    (fun p => negb (bool_decide (p ∈ map (fun el => (el, f)) els'))) ls
                  = ls).
  { apply filter_keeps_all. intros [el g] Hq. apply negb_true_iff.
    apply bool_decide_eq_false_2. rewrite elem_of_bound_pairs. intros [-> _].
    now apply (Hnew el). }
  split; [now rewrite Er|]. split; [now rewrite Er|]. split; [exact Hadd|].
  split; [exact Hd|]. rewrite Hall, List.filter_app, Hkeep.
  split; [|split].
  - intros Hsub. rewrite filter_drops_all; [apply app_nil_r|].
    intros [el g] Hq. apply negb_false_iff. apply bool_decide_eq_true_2.
    apply elem_of_bound_pairs in Hq as [-> Hq]. apply elem_of_bound_pairs. auto.
  - intros el Hin Hout. apply elem_of_app. right.
    apply list_elem_of_In, List.filter_In. split.
    + apply list_elem_of_In, elem_of_bound_pairs. auto.
    + apply negb_true_iff, bool_decide_eq_false_2. rewrite elem_of_bound_pairs.
      intros [_ Hin']. contradiction.
  - intros q Hq. apply elem_of_app. now left.
Qed.

Lemma init_destroy_listeners_witness :
  listeners_after []
    (calls (init demo_platform (constructor demo_options))
     ++ calls (destroy demo_platform
                 (this_after (init demo_platform (constructor demo_options)))))
  = [].
Proof.
  refine (proj1 (proj2 (proj2 (proj2 (proj2
            (init_destroy_listeners demo_platform demo_platform
               (constructor demo_options)
               (this_after (init demo_platform (constructor demo_options)))
               ".gallery" [10] [10] [] eq_refl eq_refl eq_refl eq_refl eq_refl
               eq_refl _))))) _).
  - intros el. apply not_elem_of_nil.
  - auto.
Defined.

(** X18: [init] called twice leaves listeners that [destroy] cannot
    remove.  Each [init] binds a new function object and adds it to the
    gallery elements; [destroy] removes only the one the lightbox holds,
    the second.  On a page whose galleries stay the same, after [init],
    [init], [destroy] every gallery element still carries the function
    object of the first [init]. *)
Theorem init_twice_leaves_listeners (P : Platform) (this : Lightbox) (sel : string)
    (els : list Element) (ls : list (Element * ClickListener)) :
  Options.gallerySelector (options this) = Some sel -> str_truthy sel = true ->
  document_querySelectorAll P sel = Some els ->
  let f1 := Bound (this_onThumbnailsClick this) in
  let f2 := Bound f1 in
  (forall el, (el, f1) ∉ ls) -> (forall el, (el, f2) ∉ ls) ->
  let r1 := init P this in
  let r2 := init P (this_after r1) in
  let d := destroy P (this_after r2) in
  this_onThumbnailsClick (this_after r2) = f2
  /\ listeners_after ls (calls r1 ++ calls r2 ++ calls d)
     = ls ++ map (fun el => (el, f1)) els.
Proof.
  intros Hsel Ht Hels f1 f2 Hnew1 Hnew2 r1 r2 d.
  assert (Hnd : NoDup els) by exact (document_querySelectorAll_NoDup P sel els Hels).
  assert (E1 : r1 = {| value := Returned; this_after := set_onThumbnailsClick f1 this;
                       calls := map (fun el => addEventListener el f1) els;
                       joined := None |})
    by now apply (init_calls P this sel).
  assert (E2 : r2 = {| value := Returned;
                       this_after :=
                         set_onThumbnailsClick f2 (set_onThumbnailsClick f1 this);
                       calls := map (fun el => addEventListener el f2) els;
                       joined := None |}).
  { subst r2. rewrite E1. cbn [this_after].
    exact (init_calls P (set_onThumbnailsClick f1 this) sel els Hsel Ht Hels). }
  split; [now rewrite E2|].
  rewrite !listeners_after_app. subst d. rewrite destroy_listeners.
  rewrite E2. cbn [this_after calls options set_onThumbnailsClick
                   this_onThumbnailsClick].
  rewrite Hsel. cbn [selector_text]. rewrite Hels, E1. cbn [calls].
  rewrite (listeners_after_add f1 els ls Hnd) by (intros el _; apply Hnew1).
  rewrite (listeners_after_add f2 els _ Hnd).
  2:{ intros el _ Hin. apply elem_of_app in Hin as [Hin | Hin].
      - now apply (Hnew2 el).
      - apply elem_of_bound_pairs in Hin as [Hin _]. now apply Bound_new in Hin. }
  rewrite List.filter_app.
  rewrite (filter_drops_all _ (map (fun el => (el, f2)) els)).
  2:{ intros [el g] Hq. apply negb_false_iff, bool_decide_eq_true_2. exact Hq. }
  rewrite app_nil_r. apply filter_keeps_all.
  intros [el g] Hq. apply negb_true_iff, bool_decide_eq_false_2.
  rewrite elem_of_bound_pairs. intros [-> _].
  apply elem_of_app in Hq as [Hq | Hq].
  - now apply (Hnew2 el).
  - apply elem_of_bound_pairs in Hq as [Hq _]. exact (Bound_new f1 Hq).
Qed.

Lemma init_twice_leaves_listeners_witness :
  listeners_after []
    (calls (init demo_platform (constructor demo_options))
     ++ calls (init demo_platform
                 (this_after (init demo_platform (constructor demo_options))))
     ++ calls (destroy demo_platform
                 (this_after
                    (init demo_platform
                       (this_after (init demo_platform (constructor demo_options)))))))
  = [(10, Bound PrototypeMethod)].
Proof.
  refine (proj2 (init_twice_leaves_listeners demo_platform (constructor demo_options)
                   ".gallery" [10] [] eq_refl eq_refl eq_refl _ _));
    intros el; apply not_elem_of_nil.
Defined.

(** X19: [destroy] queries the gallery selector without the test [init]
    makes.  When the query throws (the selector is not valid; the empty
    string, with which [init] returns without a query, is such a
    selector), [destroy] has already called [close] on the viewer it
    holds and cleared [shouldOpen] and [_listeners], and it removes no
    listener. *)
Theorem destroy_invalid_selector (P : Platform) (this : Lightbox)
    (ls : list (Element * ClickListener)) :
  document_querySelectorAll P (selector_text (Options.gallerySelector (options this)))
  = None ->
  let d := destroy P this in
  value d = Thrown
  /\ this_after d = set_listeners None (set_shouldOpen false this)
  /\ calls d = match pswp this with Some v => [pswp_close v] | None => [] end
  /\ listeners_after ls (calls d) = ls
  /\ (Options.gallerySelector (options this) = Some EmptyString ->
      value (init P this) = Returned /\ calls (init P this) = []).
Proof.
  intros Hq d.
  assert (Ed : d = {| value := Thrown;
                      this_after := set_listeners None (set_shouldOpen false this);
                      calls := match pswp this with
                               | Some v => [pswp_close v]
                               | None => []
                               end;
                      joined := None |}).
  { subst d. unfold destroy. cbn [options set_listeners set_shouldOpen].
    now rewrite Hq. }
  split; [now rewrite Ed|]. split; [now rewrite Ed|]. split; [now rewrite Ed|].
  split.
  - subst d. rewrite destroy_listeners. now rewrite Hq.
  - intros Hsel. unfold init. cbn [options set_onThumbnailsClick].
    rewrite Hsel. cbn. auto.
Qed.

Lemma destroy_invalid_selector_witness :
  value (destroy demo_platform
           (constructor
              {| Options.gallerySelector := Some EmptyString;
                 Options.childSelector := None;
                 Options.getClickedIndexFn := None;
                 Options.pswpModule := ModuleUndefined;
                 Options.pswpCSS := None;
                 Options.openPromise := None;
                 Options.preloadFirstSlide := None;
                 Options.index := VUndefined;
                 Options.initialPointerPos := None;
                 Options.dataSource := None |}))
  = Thrown.
Proof.
  refine (proj1 (destroy_invalid_selector demo_platform _ [] _)).
  apply (document_querySelectorAll_empty demo_platform).
Defined.

(** * Further properties of the page *)

Section PageOverTime.

Context (P : Platform).

Ltac case_action a :=
  destruct a as [opts | i0 e | i0 | i0 idx ds pt | i0 idx ds | i0 m u | i0 nm pc
                 | i0 href | i0 | i0 b | j items | j | v | o].

(** ** What no action undoes *)

Lemma grows_refl (lb : Lightbox) : grows lb lb.
Proof.
  repeat split; auto; [|lia]. exists []. now rewrite app_nil_r.
Qed.

Lemma grows_trans (a b c : Lightbox) : grows a b -> grows b c -> grows a c.
Proof.
  intros (Hc1 & [m1 Hs1] & Hr1 & Hu1) (Hc2 & [m2 Hs2] & Hr2 & Hu2).
  repeat split; [congruence | | auto | lia].
  exists (m1 ++ m2). now rewrite Hs2, Hs1, app_assoc.
Qed.

Lemma grows_same_static (lb lb' : Lightbox) :
  configuration (options lb') = configuration (options lb) ->
  _additionalDynamicCSS lb' = _additionalDynamicCSS lb ->
  (forall k, is_Some (obj_get k (_pluginClasses lb)) ->
             is_Some (obj_get k (_pluginClasses lb'))) ->
  (_uid lb <= _uid lb')%Z ->
  grows lb lb'.
Proof.
  intros Hc Hs Hr Hu. repeat split; auto. exists []. now rewrite app_nil_r.
Qed.

Lemma preload_static (this : Lightbox) (index : JsVal) (dataSource : option DataSource) :
  configuration (options (this_after (preload this index dataSource)))
  = configuration (options this)
  /\ _additionalDynamicCSS (this_after (preload this index dataSource))
     = _additionalDynamicCSS this
  /\ _pluginClasses (this_after (preload this index dataSource)) = _pluginClasses this
  /\ pswp (this_after (preload this index dataSource)) = pswp this
  /\ _listeners (this_after (preload this index dataSource)) = _listeners this.
Proof. unfold preload. cbn. destruct dataSource; repeat split. Qed.

Lemma loadAndOpen_static (window : Window.t) (this : Lightbox) (index : JsVal)
    (dataSource : option DataSource) (initialPoint : option Point) :
  let this' := this_after (loadAndOpen window this index dataSource initialPoint) in
  configuration (options this') = configuration (options this)
  /\ _additionalDynamicCSS this' = _additionalDynamicCSS this
  /\ _pluginClasses this' = _pluginClasses this
  /\ pswp this' = pswp this
  /\ _listeners this' = _listeners this.
Proof.
  unfold loadAndOpen. destruct (occupied (Window.pswp window)); cbn; [repeat split|].
  destruct dataSource; repeat split.
Qed.

Lemma onThumbnailsClick_static (window : Window.t) (this : Lightbox) (e : Event.t) :
  let this' := this_after (onThumbnailsClick P window this e) in
  configuration (options this') = configuration (options this)
  /\ _additionalDynamicCSS this' = _additionalDynamicCSS this
  /\ _pluginClasses this' = _pluginClasses this
  /\ pswp this' = pswp this
  /\ _listeners this' = _listeners this.
Proof.
  unfold onThumbnailsClick.
  destruct (specialKeyUsed P e || occupied (Window.pswp window)
            || is_false (Window.onLine window)); [cbn; repeat split|].
  destruct (ge0 (getClickedIndex P this e)); [|cbn; repeat split].
  apply (loadAndOpen_static window this).
Qed.

Lemma openPhotoswipe_static (window : Window.t) (this : Lightbox) (self : LbId)
    (fresh : ViewerId) (module : JsItem) (uid : Z) :
  let this' := lightbox_after (_openPhotoswipe window this self fresh module uid) in
  options this' = options this
  /\ _additionalDynamicCSS this' = _additionalDynamicCSS this
  /\ _pluginClasses this' = _pluginClasses this
  /\ _uid this' = _uid this
  /\ _listeners this' = _listeners this.
Proof.
  unfold _openPhotoswipe.
  destruct (negb (uid =? _uid this)%Z && shouldOpen this); [cbn; repeat split|].
  destruct (occupied (Window.pswp window)); [cbn; repeat split|].
  destruct (constructor_of module); [|cbn; repeat split].
  cbn [_listeners set_pswp set_shouldOpen].
  destruct (_listeners this) eqn:Hls; cbn; repeat split; now rewrite Hls.
Qed.

Lemma then_callback_static (window : Window.t) (this : Lightbox) (self : LbId)
    (fresh : ViewerId) (items : list JsItem) (uid : Z) :
  let this' := lightbox_after (then_callback window this self fresh items uid) in
  options this' = options this
  /\ _additionalDynamicCSS this' = _additionalDynamicCSS this
  /\ _pluginClasses this' = fold_left merge_plugin items (_pluginClasses this)
  /\ _uid this' = _uid this
  /\ _listeners this' = _listeners this.
Proof.
  unfold then_callback. cbn [shouldOpen set_pluginClasses].
  destruct (shouldOpen this); [|cbn; repeat split].
  pose proof (openPhotoswipe_static window
                (set_pluginClasses (fold_left merge_plugin items (_pluginClasses this))
                   this) self fresh (nth 0 items ItUndefined) uid) as H.
  cbn in H. exact H.
Qed.

Lemma lightbox_after_action_grows (w : World) (a : Action) (i : LbId)
    (lb lb' : Lightbox) :
  lightbox_after_action P w a i lb lb' -> grows lb lb'.
Proof.
  intros H. pose proof (lightbox_after_action_uid P w a i lb lb' H) as Hu.
  destruct H as [-> | H]; [apply grows_refl|].
  case_action a; try (exfalso; exact H).
  - destruct H as [_ ->].
    destruct (onThumbnailsClick_static (w_window w) lb e) as (Hc & Hs & Hr & _).
    apply grows_same_static; [exact Hc | exact Hs | intros k; now rewrite Hr | exact Hu].
  - destruct H as [_ ->]. rewrite (proj1 (init_this P lb)) in *.
    apply grows_same_static; [reflexivity | reflexivity | auto | exact Hu].
  - destruct H as [_ ->].
    destruct (loadAndOpen_static (w_window w) lb idx ds pt) as (Hc & Hs & Hr & _).
    apply grows_same_static; [exact Hc | exact Hs | intros k; now rewrite Hr | exact Hu].
  - destruct H as [_ ->].
    destruct (preload_static lb idx ds) as (Hc & Hs & Hr & _).
    apply grows_same_static; [exact Hc | exact Hs | intros k; now rewrite Hr | exact Hu].
  - destruct H as [_ ->].
    destruct (openPhotoswipe_static (w_window w) lb i (length (w_heap w)) m u)
      as (Hc & Hs & Hr & _).
    apply grows_same_static; [now rewrite Hc | exact Hs | intros k; now rewrite Hr | exact Hu].
  - destruct H as [_ ->].
    apply grows_same_static; [reflexivity | reflexivity | | exact Hu].
    intros k Hk. cbn. now apply obj_set_keeps.
  - destruct H as [_ ->].
    split; [reflexivity|]. split; [now exists [href]|]. split; [auto | exact Hu].
  - destruct H as [_ ->]. rewrite (proj1 (destroy_this P lb)) in *.
    apply grows_same_static; [reflexivity | reflexivity | auto | exact Hu].
  - destruct H as [_ ->].
    apply grows_same_static; [reflexivity | reflexivity | auto | exact Hu].
  - destruct H as (p & _ & _ & _ & ->).
    destruct (then_callback_static (w_window w) lb i (length (w_heap w)) items
                (uid (p_join p))) as (Hc & Hs & Hr & _).
    apply grows_same_static; [now rewrite Hc | exact Hs | | exact Hu].
    intros k Hk. rewrite Hr. now apply merged_keeps_names.
  - destruct (same_but_pswp_fields lb lb' H) as (_ & _ & Hr & Hc).
    apply grows_same_static; [now rewrite Hc | | intros k; now rewrite Hr | exact Hu].
    unfold same_but_pswp in H. now apply (f_equal _additionalDynamicCSS) in H.
Qed.

Lemma run_grows (l : list Action) :
  forall (w : World) (i : LbId) (lb : Lightbox),
    w_lightboxes w !! i = Some lb ->
    exists lb', w_lightboxes (run P w l) !! i = Some lb' /\ grows lb lb'.
Proof.
  induction l as [|a l IH]; intros w i lb Hi; simpl.
  - exists lb. split; [exact Hi | apply grows_refl].
  - destruct (step_lightbox P w a i lb Hi) as (lb1 & Hi1 & Hact).
    destruct (IH (step P w a) i lb1 Hi1) as (lb' & Hi' & Hg).
    exists lb'. split; [exact Hi'|].
    eapply grows_trans; [|exact Hg]. now apply (lightbox_after_action_grows w a i).
Qed.

(** X8: whatever happens on the page, a lightbox stays on it and its
    configuration stays as given: no action writes an option other than
    [index], [initialPointerPos] and [dataSource]. *)
Theorem configuration_never_written (w : World) (l : list Action) (i : LbId)
    (lb : Lightbox) :
  w_lightboxes w !! i = Some lb ->
  exists lb', w_lightboxes (run P w l) !! i = Some lb'
              /\ configuration (options lb') = configuration (options lb).
Proof.
  intros Hi. destruct (run_grows l w i lb Hi) as (lb' & Hi' & Hc & _).
  now exists lb'.
Qed.



(** X10: the list of extra stylesheets is only ever appended to: once
    [addCSS] has been called, the stylesheet stays in the list behind
    those registered before it, and every later [preload] of that
    lightbox awaits one [loadCSS] per entry, in registration order, as
    the last members of its promise array. *)
Theorem extra_css_always_awaited (w : World) (l : list Action) (i : LbId)
    (lb : Lightbox) (href : string) :
  w_lightboxes w !! i = Some lb ->
  exists lb' more,
    w_lightboxes (run P w (CallAddCSS i href :: l)) !! i = Some lb'
    /\ _additionalDynamicCSS lb' = _additionalDynamicCSS lb ++ href :: more
    /\ forall index dataSource,
         exists j front,
           joined (preload lb' index dataSource) = Some j
           /\ promiseArray j = front ++ map loadCSS (_additionalDynamicCSS lb').
Proof.
  intros Hi. cbn [run fold_left step]. rewrite Hi.
  assert (Hi1 : w_lightboxes (set_lightbox i (addCSS lb href) w) !! i
                = Some (addCSS lb href)).
  { cbn. apply list_lookup_insert_eq. now apply lookup_lt_Some in Hi. }
  destruct (run_grows l _ i _ Hi1) as (lb' & Hi' & _ & [more Hs] & _).
  exists lb', more. split; [exact Hi'|]. split.
  - rewrite Hs. unfold addCSS. cbn. now rewrite <- app_assoc.
  - intros index dataSource. eexists _, _. split; [reflexivity|]. cbn.
    rewrite app_comm_cons. reflexivity.
Qed.

(** ** The registry on a reachable page *)

Lemma step_lightboxes_length (w : World) (a : Action) :
  length (w_lightboxes (step P w a))
  = match a with
    | New _ => S (length (w_lightboxes w))
    | _ => length (w_lightboxes w)
    end.
Proof.
  case_action a; cbn [step];
    try (destruct (w_lightboxes w !! i0) as [this|]; [|reflexivity]; cbn;
         now rewrite length_insert).
  - cbn. rewrite length_app. cbn. lia.
  - unfold join_fulfilled.
    destruct (w_joins w !! j) as [p|]; [|reflexivity].
    destruct (settled p || _); [reflexivity|].
    destruct (w_lightboxes w !! owner p); [|reflexivity].
    cbn. now rewrite length_insert.
  - unfold join_rejected.
    destruct (w_joins w !! j) as [p|]; [|reflexivity].
    now destruct (settled p).
  - unfold viewer_destroyed.
    destruct (w_heap w !! v) as [vw|]; [|reflexivity].
    destruct (v_destroyed vw); [reflexivity|].
    pose proof (run_destroy_listeners_frame (v_on vw) (mark_destroyed v w))
      as (_ & _ & _ & Hlen & _).
    exact Hlen.
  - reflexivity.
Qed.

(** Where a lightbox of the page after an action comes from: it was
    there before, or the action constructed it. *)
Lemma step_lightbox_back (w : World) (a : Action) (i : LbId) (lb' : Lightbox) :
  w_lightboxes (step P w a) !! i = Some lb' ->
  (exists lb, w_lightboxes w !! i = Some lb /\ lightbox_after_action P w a i lb lb')
  \/ (exists opts, a = New opts /\ lb' = constructor opts).
Proof.
  intros Hi'. destruct (w_lightboxes w !! i) as [lb|] eqn:Hi.
  - left. destruct (step_lightbox P w a i lb Hi) as (lb'' & Hlb'' & Hact).
    exists lb. split; [reflexivity|]. congruence.
  - right. apply lookup_ge_None in Hi.
    pose proof (lookup_lt_Some _ _ _ Hi') as Hlt.
    rewrite step_lightboxes_length in Hlt.
    destruct a as [opts| | | | | | | | | | | | |]; try lia.
    exists opts. split; [reflexivity|].
    cbn [step w_lightboxes] in Hi'.
    apply lookup_snoc_Some in Hi' as [[Hlt' _] | [_ <-]]; [lia | reflexivity].
Qed.

Lemma obj_set_registry_ok (k : string) (c : PluginRef) (reg : Obj PluginRef) :
  registry_ok reg -> registry_ok (obj_set k c reg).
Proof.
  intros (Hnd & Hord & Hproto).
  destruct (String.eqb_spec k "__proto__") as [->|Hne]; [now repeat split|].
  destruct (obj_set_keys k c reg Hne) as (_ & _ & Hnd' & Hord').
  split; [auto|]. split; [auto|]. now rewrite obj_get_set_ne.
Qed.

Lemma merged_registry_ok (items : list JsItem) :
  forall reg : Obj PluginRef,
    registry_ok reg -> registry_ok (fold_left merge_plugin items reg).
Proof.
  induction items as [|item items IH]; intros reg Hok; cbn; [exact Hok|].
  apply IH. rewrite merge_plugin_accepted.
  destruct (accepted item) as [[k c]|]; [|exact Hok].
  now apply obj_set_registry_ok.
Qed.

Lemma lightbox_after_action_registry_ok (w : World) (a : Action) (i : LbId)
    (lb lb' : Lightbox) :
  lightbox_after_action P w a i lb lb' ->
  registry_ok (_pluginClasses lb) -> registry_ok (_pluginClasses lb').
Proof.
  intros [-> | H] Hok; [exact Hok|].
  case_action a; try (exfalso; exact H).
  - destruct H as [_ ->].
    destruct (onThumbnailsClick_static (w_window w) lb e) as (_ & _ & Hr & _).
    now rewrite Hr.
  - destruct H as [_ ->]. now rewrite (proj1 (init_this P lb)).
  - destruct H as [_ ->].
    destruct (loadAndOpen_static (w_window w) lb idx ds pt) as (_ & _ & Hr & _).
    now rewrite Hr.
  - destruct H as [_ ->].
    destruct (preload_static lb idx ds) as (_ & _ & Hr & _). now rewrite Hr.
  - destruct H as [_ ->].
    destruct (openPhotoswipe_static (w_window w) lb i (length (w_heap w)) m u)
      as (_ & _ & Hr & _).
    now rewrite Hr.
  - destruct H as [_ ->]. cbn. now apply obj_set_registry_ok.
  - destruct H as [_ ->]. exact Hok.
  - destruct H as [_ ->]. now rewrite (proj1 (destroy_this P lb)).
  - destruct H as [_ ->]. exact Hok.
  - destruct H as (p & _ & _ & _ & ->).
    destruct (then_callback_static (w_window w) lb i (length (w_heap w)) items
                (uid (p_join p))) as (_ & _ & Hr & _).
    rewrite Hr. now apply merged_registry_ok.
  - destruct (same_but_pswp_fields lb lb' H) as (_ & _ & Hr & _). now rewrite Hr.
Qed.

Lemma reachable_registry_ok (w : World) :
  reachable P w ->
  forall i lb, w_lightboxes w !! i = Some lb -> registry_ok (_pluginClasses lb).
Proof.
  induction 1 as [o | w a _ IH]; intros i lb' Hi.
  - discriminate Hi.
  - destruct (step_lightbox_back w a i lb' Hi)
      as [(lb & Hlb & Hact) | (opts & _ & ->)].
    + apply (lightbox_after_action_registry_ok w a i lb lb' Hact). now apply (IH i).
    + repeat split. constructor.
Qed.

Lemma filter_plugin_calls (reg : Obj PluginRef) :
  List.filter is_plugin_call
    (map (fun kv => dynamicImportPlugin (fst kv) (snd kv)) reg)
  = map (fun kv => dynamicImportPlugin (fst kv) (snd kv)) reg.
Proof. now apply filter_map_all. Qed.

(** The plugin acquisitions among the members of the join [preload]
    registers: one per entry of the registry, in its order. *)
Lemma preload_plugin_requests (this : Lightbox) (index : JsVal)
    (dataSource : option DataSource) :
  exists j, joined (preload this index dataSource) = Some j
            /\ List.filter is_plugin_call (promiseArray j)
               = map (fun kv => dynamicImportPlugin (fst kv) (snd kv))
                   (_pluginClasses this).
Proof.
  eexists. split; [reflexivity|]. cbn [promiseArray].
  rewrite !List.filter_app, filter_plugin_calls.
  rewrite (filter_map_none is_plugin_call loadCSS) by reflexivity.
  cbn [List.filter is_plugin_call app].
  replace (List.filter is_plugin_call
             match Options.openPromise _ with
             | Some f => [call_openPromise f]
             | None => []
             end) with (@nil ExtCall) by now destruct (Options.openPromise _).
  replace (List.filter is_plugin_call
             match Options.pswpCSS _ with
             | Some href => if str_truthy href then [loadCSS href] else []
             | None => []
             end) with (@nil ExtCall)
    by (destruct (Options.pswpCSS _) as [href|]; [destruct (str_truthy href)|];
        reflexivity).
  now rewrite !app_nil_r.
Qed.

(** X20: on every reachable page the registry of a lightbox is a
    well-formed table: no name is held twice, the keys are in the order
    in which [Object.keys] lists them (array indices by ascending value,
    then names as registered), and [__proto__] is not among them.
    [preload] requests one plugin acquisition per key, in that order, so
    it never requests one under the name [__proto__]. *)
Theorem registry_on_reachable_pages (w : World) (i : LbId) (lb : Lightbox)
    (index : JsVal) (dataSource : option DataSource) :
  reachable P w ->
  w_lightboxes w !! i = Some lb ->
  NoDup (map fst (_pluginClasses lb))
  /\ keys_ordered (map fst (_pluginClasses lb)) = true
  /\ ("__proto__"%string ∉ map fst (_pluginClasses lb))
  /\ exists j,
       joined (preload lb index dataSource) = Some j
       /\ List.filter is_plugin_call (promiseArray j)
          = map (fun kv => dynamicImportPlugin (fst kv) (snd kv)) (_pluginClasses lb)
       /\ forall r, dynamicImportPlugin "__proto__" r ∉ promiseArray j.
Proof.
  intros Hreach Hi.
  destruct (reachable_registry_ok w Hreach i lb Hi) as (Hnd & Hord & Hproto).
  apply obj_get_None_keys in Hproto.
  split; [exact Hnd|]. split; [exact Hord|]. split; [exact Hproto|].
  destruct (preload_plugin_requests lb index dataSource) as (j & Hj & Hreq).
  exists j. split; [exact Hj|]. split; [exact Hreq|].
  intros r Hin. apply Hproto.
  assert (Hin' : dynamicImportPlugin "__proto__" r
                 ∈ List.filter is_plugin_call (promiseArray j)).
  { apply list_elem_of_In, List.filter_In. split; [now apply list_elem_of_In|].
    reflexivity. }
  rewrite Hreq in Hin'. apply list_elem_of_In, in_map_iff in Hin'.
  destruct Hin' as ([k c] & Heq & Hkc). cbn in Heq. injection Heq as -> ->.
  apply list_elem_of_In, in_map_iff. exists ("__proto__"%string, r).
  split; [reflexivity | exact Hkc].
Qed.

(** ** Which fulfilled join opens a viewer *)

Lemma join_fulfilled_runs (w : World) (j : nat) (items : list JsItem) (p : Pending)
    (lb : Lightbox) :
  w_joins w !! j = Some p -> settled p = false ->
  length items = length (promiseArray (p_join p)) ->
  w_lightboxes w !! owner p = Some lb ->
  step P w (JoinFulfilled j items)
  = mark_settled j
      (commit_opened (owner p)
         (then_callback (w_window w) lb (owner p) (length (w_heap w)) items
            (uid (p_join p))) w).
Proof.
  intros Hj Hs Hlen Hlb. cbn [step]. unfold join_fulfilled.
  rewrite Hj, Hs, Hlen, Nat.eqb_refl, Hlb. reflexivity.
Qed.

Lemma then_callback_created_iff (window : Window.t) (this : Lightbox) (self : LbId)
    (fresh : ViewerId) (items : list JsItem) (uid : Z) :
  is_Some (created (then_callback window this self fresh items uid)) <->
  shouldOpen this = true /\ uid = _uid this /\ Window.pswp window = None
  /\ is_Some (constructor_of (nth 0 items ItUndefined)).
Proof.
  unfold then_callback. cbn [shouldOpen set_pluginClasses].
  destruct (shouldOpen this) eqn:Hflag.
  - rewrite openPhotoswipe_created_iff. cbn. rewrite Hflag. intuition congruence.
  - cbn. rewrite is_Some_not_None. intuition congruence.
Qed.

(** X11: the fulfilment of a join builds a viewer exactly when the join
    is on record and unsettled, its lightbox has [shouldOpen] set and
    still carries the join's token, the slot is empty and the first
    resolved item yields a constructor.  In every other case the heap of
    viewers and the window are left as they were. *)
Theorem join_opens_iff (w : World) (j : nat) (items : list JsItem) :
  let w' := step P w (JoinFulfilled j items) in
  (length (w_heap w') = S (length (w_heap w)) <->
   exists p lb,
     w_joins w !! j = Some p /\ settled p = false
     /\ length items = length (promiseArray (p_join p))
     /\ w_lightboxes w !! owner p = Some lb
     /\ shouldOpen lb = true /\ uid (p_join p) = _uid lb
     /\ Window.pswp (w_window w) = None
     /\ is_Some (constructor_of (nth 0 items ItUndefined)))
  /\ (length (w_heap w') <> S (length (w_heap w)) ->
      w_heap w' = w_heap w /\ w_window w' = w_window w).
Proof.
  cbn [step]. unfold join_fulfilled.
  destruct (w_joins w !! j) as [p|] eqn:Hj.
  2:{ split; [|auto]. split; [lia|]. intros (p & lb & Hp & _). discriminate Hp. }
  destruct (settled p) eqn:Hs; cbn [orb].
  { split; [|auto]. split; [lia|].
    intros (p' & lb & Hp & Hs' & _). congruence. }
  destruct (Nat.eqb_spec (length items) (length (promiseArray (p_join p))))
    as [Hlen|Hlen]; cbn [negb].
  2:{ split; [|auto]. split; [lia|].
      intros (p' & lb & Hp & _ & Hlen' & _). congruence. }
  destruct (w_lightboxes w !! owner p) as [lb|] eqn:Hlb.
  2:{ split; [|auto]. split; [lia|].
      intros (p' & lb & Hp & _ & _ & Hlb' & _). congruence. }
  cbn [mark_settled commit_opened w_heap w_window].
  pose proof (then_callback_created_iff (w_window w) lb (owner p)
                (length (w_heap w)) items (uid (p_join p))) as Hiff.
  pose proof (then_callback_frame (w_window w) lb (owner p) (length (w_heap w))
                items (uid (p_join p))) as (_ & _ & _ & _ & _ & Hc).
  destruct (created (then_callback (w_window w) lb (owner p) (length (w_heap w))
                       items (uid (p_join p)))) as [vw|].
  - cbn. rewrite length_app. cbn. split.
    + split; [|lia]. intros _.
      destruct (proj1 Hiff) as (Hf & Hu & Hslot & Hm); [eauto|].
      exists p, lb. repeat split; auto.
    + intros Hne. lia.
  - cbn. rewrite app_nil_r. split.
    + split; [lia|].
      intros (p' & lb' & Hp & _ & _ & Hlb' & Hf & Hu & Hslot & Hm).
      assert (p' = p) by congruence. subst p'.
      assert (lb' = lb) by congruence. subst lb'.
      destruct (proj2 Hiff) as [x Hx]; [auto | discriminate Hx].
    + intros _. split; [reflexivity | apply Hc].
Qed.

(** X12: a join that is due to open (current token, flag set, empty slot)
    but whose first resolved item yields no constructor opens nothing:
    heap and window stay as they were, the join is settled, and
    [shouldOpen] has been cleared all the same. *)
Theorem unconstructible_module_consumes_flag (w : World) (j : nat)
    (items : list JsItem) (p : Pending) (lb : Lightbox) :
  w_joins w !! j = Some p -> settled p = false ->
  length items = length (promiseArray (p_join p)) ->
  w_lightboxes w !! owner p = Some lb ->
  shouldOpen lb = true -> uid (p_join p) = _uid lb ->
  Window.pswp (w_window w) = None ->
  constructor_of (nth 0 items ItUndefined) = None ->
  let w' := step P w (JoinFulfilled j items) in
  w_heap w' = w_heap w /\ w_window w' = w_window w
  /\ w_joins w' !! j = Some (settle p)
  /\ exists lb', w_lightboxes w' !! owner p = Some lb'
                 /\ shouldOpen lb' = false /\ pswp lb' = pswp lb
                 /\ _uid lb' = _uid lb.
Proof.
  intros Hj Hs Hlen Hlb Hflag Hu Hslot Hm w'. subst w'.
  rewrite (join_fulfilled_runs w j items p lb Hj Hs Hlen Hlb).
  unfold then_callback, _openPhotoswipe.
  cbn [shouldOpen set_pluginClasses _uid]. rewrite Hflag, Hu, Z.eqb_refl.
  cbn [negb andb]. rewrite Hslot. cbn [occupied]. rewrite Hm.
  cbn. rewrite app_nil_r. repeat split.
  - rewrite list_lookup_alter_eq, Hj. reflexivity.
  - eexists. split.
    + apply list_lookup_insert_eq. now apply lookup_lt_Some in Hlb.
    + repeat split.
Qed.

(** ** destroy *)

Lemma join_fulfilled_flag_false (w : World) (j : nat) (items : list JsItem)
    (p : Pending) (lb : Lightbox) :
  w_joins w !! j = Some p -> w_lightboxes w !! owner p = Some lb ->
  shouldOpen lb = false ->
  w_heap (step P w (JoinFulfilled j items)) = w_heap w
  /\ w_window (step P w (JoinFulfilled j items)) = w_window w.
Proof.
  intros Hj Hlb Hflag. cbn [step]. unfold join_fulfilled. rewrite Hj.
  destruct (settled p || _); [auto|]. rewrite Hlb.
  unfold then_callback. cbn [shouldOpen set_pluginClasses]. rewrite Hflag.
  cbn. now rewrite app_nil_r.
Qed.

Lemma step_keeps_flag_unset (w : World) (a : Action) (i : LbId) (lb lb' : Lightbox) :
  lightbox_after_action P w a i lb lb' ->
  sets_flag i a = false -> shouldOpen lb = false -> shouldOpen lb' = false.
Proof.
  intros [-> | H] Hquiet Hflag; [exact Hflag|].
  case_action a; cbn [sets_flag] in Hquiet; try (exfalso; exact H).
  - destruct H as [-> _]. now rewrite Nat.eqb_refl in Hquiet.
  - destruct H as [_ ->]. now rewrite (proj1 (init_this P lb)).
  - destruct H as [-> _]. now rewrite Nat.eqb_refl in Hquiet.
  - destruct H as [_ ->]. now rewrite preload_keeps_shouldOpen.
  - destruct H as [_ ->].
    pose proof (openPhotoswipe_frame (w_window w) lb i (length (w_heap w)) m u)
      as (_ & _ & _ & _ & Hkeep & _).
    destruct (shouldOpen (lightbox_after _)); [|reflexivity].
    rewrite Hkeep in Hflag by reflexivity. discriminate Hflag.
  - destruct H as [_ ->]. exact Hflag.
  - destruct H as [_ ->]. exact Hflag.
  - destruct H as [_ ->]. now rewrite (proj1 (destroy_this P lb)).
  - destruct H as [-> ->]. rewrite Nat.eqb_refl in Hquiet. cbn in *.
    exact Hquiet.
  - destruct H as (p & _ & _ & _ & ->).
    pose proof (then_callback_frame (w_window w) lb i (length (w_heap w))
                  items (uid (p_join p))) as (_ & _ & _ & _ & Hkeep & _).
    destruct (shouldOpen (lightbox_after _)); [|reflexivity].
    rewrite Hkeep in Hflag by reflexivity. discriminate Hflag.
  - apply same_but_pswp_fields in H as (_ & Hf & _). congruence.
Qed.

Lemma run_keeps_flag_unset (l : list Action) :
  forall (w : World) (i : LbId) (lb : Lightbox),
    w_lightboxes w !! i = Some lb -> shouldOpen lb = false ->
    forallb (fun a => negb (sets_flag i a)) l = true ->
    exists lb', w_lightboxes (run P w l) !! i = Some lb' /\ shouldOpen lb' = false.
Proof.
  induction l as [|a l IH]; intros w i lb Hi Hflag Hquiet; simpl.
  - now exists lb.
  - simpl in Hquiet. apply andb_true_iff in Hquiet as [Ha Hl].
    apply negb_true_iff in Ha.
    destruct (step_lightbox P w a i lb Hi) as (lb1 & Hi1 & Hact).
    apply (IH (step P w a) i lb1 Hi1); [|exact Hl].
    now apply (step_keeps_flag_unset w a i lb lb1).
Qed.

(** X13: [destroy] cancels the loads of its lightbox, those in flight and
    those a bare [preload] starts later, and is idempotent.  It leaves
    the window (with the slot), the heap and the record of joins alone,
    and a second [destroy] changes nothing more.  Whatever happens on the
    page afterwards, as long as nothing sets [shouldOpen] of that
    lightbox again (no click reaches it, [loadAndOpen] is not called on
    it and [true] is not written to the field), the flag stays false and
    every join of that lightbox that is fulfilled builds no viewer and
    does not touch the window. *)
Theorem destroy_cancels_loads (w : World) (i : LbId) (lb : Lightbox)
    (l : list Action) :
  w_lightboxes w !! i = Some lb ->
  forallb (fun a => negb (sets_flag i a)) l = true ->
  let w1 := step P w (CallDestroy i) in
  let w2 := run P w1 l in
  step P w1 (CallDestroy i) = w1
  /\ w_window w1 = w_window w /\ w_heap w1 = w_heap w /\ w_joins w1 = w_joins w
  /\ (exists lb2, w_lightboxes w2 !! i = Some lb2 /\ shouldOpen lb2 = false)
  /\ (forall j items p,
         w_joins w2 !! j = Some p -> owner p = i ->
         w_heap (step P w2 (JoinFulfilled j items)) = w_heap w2
         /\ w_window (step P w2 (JoinFulfilled j items)) = w_window w2).
Proof.
  intros Hi Hquiet w1 w2.
  assert (E1 : w1 = {| w_window := w_window w;
                       w_lightboxes :=
                         <[i := set_listeners None (set_shouldOpen false lb)]>
                           (w_lightboxes w);
                       w_heap := w_heap w; w_joins := w_joins w |}).
  { subst w1. cbn [step]. rewrite Hi. unfold commit.
    rewrite (proj1 (destroy_this P lb)), (proj2 (destroy_this P lb)).
    cbn [pending_of]. now rewrite app_nil_r. }
  assert (Hi1 : w_lightboxes w1 !! i
                = Some (set_listeners None (set_shouldOpen false lb))).
  { rewrite E1. cbn [w_lightboxes].
    apply list_lookup_insert_eq. now apply lookup_lt_Some in Hi. }
  destruct (run_keeps_flag_unset l w1 i _ Hi1 eq_refl Hquiet) as (lb2 & Hi2 & Hflag2).
  fold w2 in Hi2.
  split; [|split; [|split; [|split; [|split]]]].
  - cbn [step]. rewrite Hi1.
    apply (commit_nothing i _ w1 (set_listeners None (set_shouldOpen false lb)));
      [exact Hi1 | | apply destroy_this].
    now rewrite (proj1 (destroy_this P _)).
  - now rewrite E1.
  - now rewrite E1.
  - now rewrite E1.
  - now exists lb2.
  - intros j items p Hp Ho. rewrite <- Ho in Hi2.
    exact (join_fulfilled_flag_false w2 j items p lb2 Hp Hi2 Hflag2).
Qed.

(** X14: a load started after [destroy] cannot complete its opening.
    [destroy] has set [_listeners] to [null]; [loadAndOpen] still accepts
    and registers a join; when that join is fulfilled with a usable
    module, the viewer is built and written to [this.pswp] and to the
    slot, and then the replay of the listeners throws: the viewer carries
    no listener at all, not even the one that clears the slot, and is not
    initialised.  When that viewer later announces its destruction the
    slot stays occupied. *)
Theorem open_after_destroy_is_stuck (w : World) (i : LbId) (lb : Lightbox)
    (index : JsVal) (dataSource : option DataSource) (initialPoint : option Point)
    (items : list JsItem) (c : ClassId) :
  w_lightboxes w !! i = Some lb ->
  Window.pswp (w_window w) = None ->
  constructor_of (nth 0 items ItUndefined) = Some c ->
  let w1 := step P w (CallDestroy i) in
  let w2 := step P w1 (CallLoadAndOpen i index dataSource initialPoint) in
  let j := length (w_joins w) in
  let v := length (w_heap w) in
  (exists p, w_joins w2 !! j = Some p /\ owner p = i /\ settled p = false
             /\ (length items = length (promiseArray (p_join p)) ->
                 let w3 := step P w2 (JoinFulfilled j items) in
                 Window.pswp (w_window w3) = Some v
                 /\ w_heap w3
                    = w_heap w ++ [{| v_class := c; v_options := i;
                                      pluginClasses := Some i; v_on := [];
                                      v_init := false; v_destroyed := false |}]
                 /\ (exists lb3, w_lightboxes w3 !! i = Some lb3
                                 /\ pswp lb3 = Some v /\ _listeners lb3 = None
                                 /\ shouldOpen lb3 = false)
                 /\ Window.pswp (w_window (step P w3 (ViewerDestroyed v)))
                    = Some v)).
Proof.
  intros Hi Hslot Hm w1 w2 j v.
  assert (Hlt : i < length (w_lightboxes w)) by now apply lookup_lt_Some in Hi.
  set (lb1 := set_listeners None (set_shouldOpen false lb)).
  assert (E1 : w1 = {| w_window := w_window w;
                       w_lightboxes := <[i := lb1]> (w_lightboxes w);
                       w_heap := w_heap w; w_joins := w_joins w |}).
  { subst w1. cbn [step]. rewrite Hi. unfold commit.
    rewrite (proj1 (destroy_this P lb)), (proj2 (destroy_this P lb)).
    cbn [pending_of]. now rewrite app_nil_r. }
  set (r2 := loadAndOpen (w_window w) lb1 index dataSource initialPoint).
  assert (E2 : w2 = {| w_window := w_window w;
                       w_lightboxes := <[i := this_after r2]> (w_lightboxes w);
                       w_heap := w_heap w;
                       w_joins := w_joins w ++ pending_of i (joined r2) |}).
  { subst w2. rewrite E1. cbn [step w_lightboxes w_window].
    rewrite list_lookup_insert_eq by exact Hlt.
    unfold commit. cbn. now rewrite list_insert_insert_eq. }
  assert (Hr2 : exists pa,
             joined r2 = Some {| uid := (_uid lb + 1)%Z; promiseArray := pa |}
             /\ shouldOpen (this_after r2) = true
             /\ _uid (this_after r2) = (_uid lb + 1)%Z
             /\ _listeners (this_after r2) = None
             /\ pswp (this_after r2) = pswp lb).
  { subst r2. unfold loadAndOpen. rewrite Hslot. cbn. eexists. repeat split. }
  destruct Hr2 as (pa & Hj2 & Hf2 & Hu2 & Hl2 & Hp2).
  exists {| owner := i; p_join := {| uid := (_uid lb + 1)%Z; promiseArray := pa |};
            settled := false |}.
  split.
  { rewrite E2. cbn [w_joins]. rewrite Hj2. cbn [pending_of].
    now apply list_lookup_middle. }
  split; [reflexivity|]. split; [reflexivity|].
  cbn [p_join promiseArray]. intros Hlen.
  set (w3 := step P w2 (JoinFulfilled j items)).
  assert (Hj : w_joins w2 !! j
               = Some {| owner := i;
                         p_join := {| uid := (_uid lb + 1)%Z; promiseArray := pa |};
                         settled := false |}).
  { rewrite E2. cbn [w_joins]. rewrite Hj2. cbn [pending_of].
    now apply list_lookup_middle. }
  assert (Hlb2 : w_lightboxes w2 !! i = Some (this_after r2)).
  { rewrite E2. cbn [w_lightboxes]. now apply list_lookup_insert_eq. }
  assert (E3 : w3 = mark_settled j
                      (commit_opened i
                         (then_callback (w_window w2) (this_after r2) i
                            (length (w_heap w2)) items (_uid lb + 1)%Z) w2)).
  { subst w3. now rewrite (join_fulfilled_runs w2 j items _ _ Hj eq_refl Hlen Hlb2). }
  assert (Hcb : then_callback (w_window w2) (this_after r2) i (length (w_heap w2))
                  items (_uid lb + 1)%Z
                = {| window_after := Window.set_pswp (Some v) (w_window w);
                     lightbox_after :=
                       set_pswp (Some v)
                         (set_shouldOpen false
                            (set_pluginClasses
                               (fold_left merge_plugin items
                                  (_pluginClasses (this_after r2)))
                               (this_after r2)));
                     created := Some {| v_class := c; v_options := i;
                                        pluginClasses := Some i; v_on := [];
                                        v_init := false; v_destroyed := false |};
                     completion := Thrown |}).
  { rewrite E2. cbn [w_window w_heap]. unfold then_callback, _openPhotoswipe.
    cbn [shouldOpen set_pluginClasses _uid]. rewrite Hf2, Hu2, Z.eqb_refl.
    cbn [negb andb]. rewrite Hslot. cbn [occupied]. rewrite Hm.
    cbn [_listeners set_pswp set_shouldOpen set_pluginClasses]. rewrite Hl2.
    reflexivity. }
  rewrite Hcb in E3.
  assert (Hh3 : w_heap w3
                = w_heap w ++ [{| v_class := c; v_options := i;
                                  pluginClasses := Some i; v_on := [];
                                  v_init := false; v_destroyed := false |}]).
  { rewrite E3, E2. reflexivity. }
  assert (Hw3 : Window.pswp (w_window w3) = Some v).
  { rewrite E3. reflexivity. }
  split; [exact Hw3|]. split; [exact Hh3|]. split.
  - eexists. split.
    + rewrite E3. cbn [mark_settled commit_opened w_lightboxes lightbox_after].
      apply list_lookup_insert_eq. rewrite E2. cbn [w_lightboxes].
      now rewrite length_insert.
    + cbn. repeat split. exact Hl2.
  - cbn [step]. unfold viewer_destroyed. rewrite Hh3.
    rewrite list_lookup_middle by reflexivity. cbn. exact Hw3.
Qed.

(** ** The token counts the loads *)

Lemma tokens_of_app (i : LbId) (l1 l2 : list Pending) :
  tokens_of i (l1 ++ l2) = tokens_of i l1 ++ tokens_of i l2.
Proof. unfold tokens_of. now rewrite List.filter_app, map_app. Qed.

Lemma tokens_of_alter_settle (i : LbId) (j : nat) (l : list Pending) :
  tokens_of i (alter settle j l) = tokens_of i l.
Proof.
  revert j. induction l as [|p l IH]; intros [|j]; try reflexivity.
  - unfold tokens_of. cbn. now destruct (Nat.eqb (owner p) i).
  - unfold tokens_of in *. cbn. specialize (IH j).
    destruct (Nat.eqb (owner p) i); cbn; now rewrite IH.
Qed.

Lemma tokens_of_unowned (i : LbId) (joins : list Pending) :
  (forall k p, joins !! k = Some p -> owner p <> i) -> tokens_of i joins = [].
Proof.
  induction joins as [|p l IH]; intros Hno; [reflexivity|].
  unfold tokens_of in *. cbn.
  destruct (Nat.eqb_spec (owner p) i) as [Heq|_].
  - now destruct (Hno 0 p eq_refl).
  - apply IH. intros k q Hq. apply (Hno (S k) q Hq).
Qed.

Lemma first_tokens_next (n : Z) :
  (0 <= n)%Z -> first_tokens (n + 1) = first_tokens n ++ [(n + 1)%Z].
Proof.
  intros Hn. unfold first_tokens.
  replace (Z.to_nat (n + 1)) with (S (Z.to_nat n)) by lia.
  rewrite seq_S, map_app. cbn. do 2 f_equal. lia.
Qed.

Lemma counts_pointwise (lbs lbs' : list Lightbox) (joins joins' : list Pending) :
  (forall i, tokens_of i joins' = tokens_of i joins) ->
  (forall k lb', lbs' !! k = Some lb' ->
     exists lb, lbs !! k = Some lb /\ _uid lb' = _uid lb) ->
  counts lbs joins -> counts lbs' joins'.
Proof.
  intros Hj Hl Hc i lb' Hi. destruct (Hl i lb' Hi) as (lb & Hlb & Hu).
  rewrite Hj, Hu. now apply Hc.
Qed.

Lemma insert_same_uid (lbs : list Lightbox) (i : LbId) (this x : Lightbox) :
  lbs !! i = Some this -> _uid x = _uid this ->
  forall k lb', <[i := x]> lbs !! k = Some lb' ->
    exists lb, lbs !! k = Some lb /\ _uid lb' = _uid lb.
Proof.
  intros Hi Hu k lb' Hk. destruct (decide (i = k)) as [<-|Hne].
  - rewrite list_lookup_insert_eq in Hk by now apply lookup_lt_Some in Hi.
    injection Hk as <-. eauto.
  - rewrite list_lookup_insert_ne in Hk by exact Hne. eauto.
Qed.

Lemma counts_commit {A : Type} (i : LbId) (r : Ret A) (w : World) (this : Lightbox) :
  w_lightboxes w !! i = Some this -> token_advanced this r ->
  counts (w_lightboxes w) (w_joins w) ->
  counts (w_lightboxes (commit i r w)) (w_joins (commit i r w)).
Proof.
  intros Hi Htok Hc. unfold commit. cbn [w_lightboxes w_joins].
  intros k lb' Hk. rewrite tokens_of_app.
  unfold token_advanced in Htok.
  assert (Hone : forall jn,
             tokens_of k [{| owner := i; p_join := jn; settled := false |}]
             = if Nat.eqb i k then [uid jn] else []).
  { intros jn. unfold tokens_of. cbn. now destruct (Nat.eqb i k). }
  destruct (decide (i = k)) as [<-|Hne].
  - rewrite list_lookup_insert_eq in Hk by now apply lookup_lt_Some in Hi.
    injection Hk as <-. destruct (Hc i this Hi) as [Hpos Htoks].
    destruct (joined r) as [jn|]; cbn [pending_of].
    + destruct Htok as [Hu Hu'].
      rewrite Hone, Nat.eqb_refl, Htoks, Hu', first_tokens_next by exact Hpos.
      split; [lia|]. now rewrite Hu, Hu'.
    + rewrite Htok. split; [exact Hpos|]. rewrite <- Htoks. apply app_nil_r.
  - rewrite list_lookup_insert_ne in Hk by exact Hne.
    destruct (Hc k lb' Hk) as [Hpos Htoks]. split; [exact Hpos|].
    rewrite <- Htoks. destruct (joined r) as [jn|]; cbn [pending_of].
    + rewrite Hone. destruct (Nat.eqb_spec i k); [contradiction | apply app_nil_r].
    + apply app_nil_r.
Qed.

Lemma counts_step (w : World) (a : Action) :
  token_invariant w ->
  counts (w_lightboxes w) (w_joins w) ->
  counts (w_lightboxes (step P w a)) (w_joins (step P w a)).
Proof.
  intros Hown Hc.
  case_action a; cbn [step];
    try (destruct (w_lightboxes w !! i0) as [this|] eqn:Hi0; [|exact Hc]).
  - (* New *)
    intros k lb' Hk. cbn in *. apply lookup_snoc_Some in Hk as [[_ Hk] | [-> <-]].
    + now apply Hc.
    + split; [cbn; lia|]. cbn [constructor _uid].
      apply tokens_of_unowned. intros n q Hq.
      destruct (Hown n q Hq) as (lb & Hlb & _).
      apply lookup_lt_Some in Hlb. lia.
  - apply (counts_commit i0 _ w this Hi0); auto.
    apply onThumbnailsClick_token_advanced.
  - apply (counts_commit i0 _ w this Hi0); auto.
    unfold token_advanced.
    now rewrite (proj2 (init_this P this)), (proj1 (init_this P this)).
  - apply (counts_commit i0 _ w this Hi0); auto.
    apply loadAndOpen_token_advanced.
  - apply (counts_commit i0 _ w this Hi0); auto. apply preload_token_advanced.
  - apply (counts_pointwise (w_lightboxes w) _ (w_joins w)); auto. cbn.
    apply (insert_same_uid _ i0 this); auto.
    apply (openPhotoswipe_static (w_window w) this i0 (length (w_heap w)) m u).
  - apply (counts_pointwise (w_lightboxes w) _ (w_joins w)); auto. cbn.
    now apply (insert_same_uid _ i0 this).
  - apply (counts_pointwise (w_lightboxes w) _ (w_joins w)); auto. cbn.
    now apply (insert_same_uid _ i0 this).
  - apply (counts_commit i0 _ w this Hi0); auto.
    unfold token_advanced.
    now rewrite (proj2 (destroy_this P this)), (proj1 (destroy_this P this)).
  - apply (counts_pointwise (w_lightboxes w) _ (w_joins w)); auto. cbn.
    now apply (insert_same_uid _ i0 this).
  - unfold join_fulfilled.
    destruct (w_joins w !! j) as [p|]; [|exact Hc].
    destruct (settled p || _); [exact Hc|].
    destruct (w_lightboxes w !! owner p) as [this|] eqn:Hi0; [|exact Hc].
    apply (counts_pointwise (w_lightboxes w) _ (w_joins w)); auto; cbn.
    + intros i. apply tokens_of_alter_settle.
    + apply (insert_same_uid _ (owner p) this); auto.
      apply (then_callback_static (w_window w) this (owner p) (length (w_heap w))
               items (uid (p_join p))).
  - unfold join_rejected.
    destruct (w_joins w !! j) as [p|]; [|exact Hc].
    destruct (settled p); [exact Hc|].
    apply (counts_pointwise (w_lightboxes w) _ (w_joins w)); auto; cbn.
    + intros i. apply tokens_of_alter_settle.
    + eauto.
  - unfold viewer_destroyed.
    destruct (w_heap w !! v) as [vw|]; [|exact Hc].
    destruct (v_destroyed vw); [exact Hc|].
    pose proof (run_destroy_listeners_frame (v_on vw) (mark_destroyed v w))
      as (_ & Hjoins & _ & Hlen & Hlbs & _).
    cbn in Hjoins, Hlen, Hlbs.
    apply (counts_pointwise (w_lightboxes w) _ (w_joins w)); auto.
    + intros i. now rewrite Hjoins.
    + intros k lb' Hk.
      assert (Hk' : is_Some (w_lightboxes w !! k)).
      { apply lookup_lt_is_Some. apply lookup_lt_Some in Hk. lia. }
      destruct Hk' as [lb Hlb]. destruct (Hlbs k lb Hlb) as (lb'' & Hk'' & Hsame).
      exists lb. split; [exact Hlb|].
      assert (lb'' = lb') by congruence. subst lb''.
      now apply same_but_pswp_fields in Hsame.
  - exact Hc.
Qed.

Lemma reachable_counts (w : World) :
  reachable P w -> counts (w_lightboxes w) (w_joins w).
Proof.
  induction 1 as [o | w a Hw IH].
  - intros i lb Hi. discriminate Hi.
  - apply counts_step; [now apply (reachable_token_invariant P) | exact IH].
Qed.

(** X15: on every reachable page the token of a lightbox is the number
    of joins it has registered, and those joins carry, oldest first, the
    tokens 1, 2, ..., [_uid]: no token is skipped or handed out twice,
    so at most one join of a lightbox carries its current token. *)
Theorem token_counts_loads (w : World) (i : LbId) (lb : Lightbox) :
  reachable P w ->
  w_lightboxes w !! i = Some lb ->
  (0 <= _uid lb)%Z
  /\ tokens_of i (w_joins w) = first_tokens (_uid lb)
  /\ length (tokens_of i (w_joins w)) = Z.to_nat (_uid lb)
  /\ NoDup (tokens_of i (w_joins w)).
Proof.
  intros Hreach Hi. destruct (reachable_counts w Hreach i lb Hi) as [Hpos Htoks].
  split; [exact Hpos|]. split; [exact Htoks|]. rewrite Htoks. unfold first_tokens.
  split.
  - now rewrite length_map, length_seq.
  - apply NoDup_fmap_2; [|apply NoDup_seq].
    intros x y Hxy. lia.
Qed.

(** ** [this.pswp] and the slot *)

Lemma map_listeners_user (ls : Obj (list FnId)) (name : string) (i : LbId) :
  (name, ClearPublicVariables i) ∉ map_listeners ls.
Proof.
  unfold map_listeners. intros Hin. apply list_elem_of_In, in_flat_map in Hin.
  destruct Hin as ([n fns] & _ & Hin). apply in_map_iff in Hin.
  destruct Hin as (fn & Heq & _). discriminate Heq.
Qed.

Lemma openPhotoswipe_viewer (window : Window.t) (this : Lightbox) (self : LbId)
    (fresh : ViewerId) (module : JsItem) (uid : Z) (vw : Viewer) :
  created (_openPhotoswipe window this self fresh module uid) = Some vw ->
  v_options vw = self
  /\ forall name i, (name, ClearPublicVariables i) ∈ v_on vw ->
                    i = self /\ name = "destroy"%string.
Proof.
  unfold _openPhotoswipe.
  destruct (negb (uid =? _uid this)%Z && shouldOpen this); [discriminate|].
  destruct (occupied (Window.pswp window)); [discriminate|].
  destruct (constructor_of module) as [c|]; [|discriminate].
  cbn [_listeners set_pswp set_shouldOpen].
  destruct (_listeners this) as [ls|]; cbn; intros H; injection H as <-; cbn.
  - split; [reflexivity|]. intros name i Hin.
    apply elem_of_app in Hin as [Hin | Hin].
    + now apply map_listeners_user in Hin.
    + apply list_elem_of_singleton in Hin. injection Hin as -> ->. auto.
  - split; [reflexivity|]. intros name i Hin. now apply elem_of_nil in Hin.
Qed.

Lemma then_callback_viewer (window : Window.t) (this : Lightbox) (self : LbId)
    (fresh : ViewerId) (items : list JsItem) (uid : Z) (vw : Viewer) :
  created (then_callback window this self fresh items uid) = Some vw ->
  v_options vw = self
  /\ forall name i, (name, ClearPublicVariables i) ∈ v_on vw ->
                    i = self /\ name = "destroy"%string.
Proof.
  unfold then_callback. cbn [shouldOpen set_pluginClasses].
  destruct (shouldOpen this); [apply openPhotoswipe_viewer | discriminate].
Qed.

Lemma held_insert_same_pswp (slot : option ViewerId) (lbs : list Lightbox)
    (heap : list Viewer) (i : LbId) (this x : Lightbox) :
  lbs !! i = Some this -> pswp x = pswp this ->
  held slot lbs heap -> held slot (<[i := x]> lbs) heap.
Proof.
  intros Hi Hp (H1 & H2 & H3).
  assert (Hlt : i < length lbs) by now apply lookup_lt_Some in Hi.
  split; [|split; [|exact H3]].
  - intros k lb v Hk Hv. destruct (decide (i = k)) as [<-|Hne].
    + rewrite list_lookup_insert_eq in Hk by exact Hlt. injection Hk as <-.
      apply (H1 i this v Hi). congruence.
    + rewrite list_lookup_insert_ne in Hk by exact Hne. now apply (H1 k lb v).
  - intros v Hv. destruct (H2 v Hv) as (vw & lb & Hvw & Hlb & Hpv).
    destruct (decide (i = v_options vw)) as [Heq|Hne].
    + exists vw, x. rewrite <- Heq in *.
      rewrite list_lookup_insert_eq by exact Hlt. repeat split; auto.
      assert (lb = this) by congruence. subst lb. congruence.
    + exists vw, lb. rewrite list_lookup_insert_ne by exact Hne. auto.
Qed.

Lemma held_opened (w : World) (i : LbId) (this : Lightbox) (o : Opened) :
  w_lightboxes w !! i = Some this ->
  match created o with
  | Some vw =>
      Window.pswp (w_window w) = None
      /\ Window.pswp (window_after o) = Some (length (w_heap w))
      /\ pswp (lightbox_after o) = Some (length (w_heap w))
      /\ v_options vw = i
      /\ (forall name k, (name, ClearPublicVariables k) ∈ v_on vw ->
            k = i /\ name = "destroy"%string)
  | None => window_after o = w_window w /\ pswp (lightbox_after o) = pswp this
  end ->
  held (Window.pswp (w_window w)) (w_lightboxes w) (w_heap w) ->
  held (Window.pswp (window_after o)) (<[i := lightbox_after o]> (w_lightboxes w))
    (w_heap w ++ option_list (created o)).
Proof.
  intros Hi Ho Hheld.
  assert (Hlt : i < length (w_lightboxes w)) by now apply lookup_lt_Some in Hi.
  destruct (created o) as [vw|]; cbn [option_list].
  2:{ destruct Ho as [-> Hp]. rewrite app_nil_r.
      now apply (held_insert_same_pswp _ _ _ i this). }
  destruct Ho as (Hempty & -> & Hp & Hown & Hh).
  destruct Hheld as (H1 & H2 & H3).
  split; [|split].
  - intros k lb v Hk Hv. destruct (decide (i = k)) as [<-|Hne].
    + rewrite list_lookup_insert_eq in Hk by exact Hlt. injection Hk as <-.
      rewrite Hp in Hv. injection Hv as <-. split; [reflexivity|].
      exists vw. split; [now apply list_lookup_middle | exact Hown].
    + rewrite list_lookup_insert_ne in Hk by exact Hne.
      destruct (H1 k lb v Hk Hv) as [Hslot _]. congruence.
  - intros v Hv. injection Hv as <-. exists vw, (lightbox_after o).
    split; [now apply list_lookup_middle|]. rewrite Hown.
    split; [now apply list_lookup_insert_eq | exact Hp].
  - intros v vw' name k Hv Hin.
    apply lookup_snoc_Some in Hv as [[_ Hv] | [_ <-]].
    + now apply (H3 v vw' name k).
    + rewrite Hown. now apply Hh.
Qed.

Lemma run_destroy_listeners_owned (hs : list (string * Handler)) (i0 : LbId) :
  forall w : World,
    (forall name i, (name, ClearPublicVariables i) ∈ hs ->
                    i = i0 /\ name = "destroy"%string) ->
    let w' := fold_left run_destroy_listener hs w in
    w' = w
    \/ (Window.pswp (w_window w') = None /\ w_heap w' = w_heap w
        /\ forall k, w_lightboxes w' !! k
                     = if decide (k = i0)
                       then set_pswp None <$> (w_lightboxes w !! k)
                       else w_lightboxes w !! k).
Proof.
  induction hs as [|h hs IH]; intros w Hown; cbn [fold_left]; [now left|].
  assert (Hown' : forall name i, (name, ClearPublicVariables i) ∈ hs ->
                                 i = i0 /\ name = "destroy"%string).
  { intros name i Hin. apply Hown. apply elem_of_cons. now right. }
  destruct h as [name [fn | i]].
  - cbn [run_destroy_listener]. now apply IH.
  - destruct (Hown name i) as [Hi Hn]; [apply elem_of_cons; now left|].
    subst i name.
    cbn [run_destroy_listener]. rewrite String.eqb_refl. right.
    match goal with
    | |- context [fold_left run_destroy_listener hs ?w0] =>
        destruct (IH w0 Hown') as [-> | (Hslot & Hheap & Hlbs)]
    end.
    + cbn. repeat split. intros k. rewrite list_lookup_alter.
      destruct (decide (i0 = k)) as [Heq|Hne]; destruct (decide (k = i0));
        try congruence; subst; reflexivity.
    + split; [exact Hslot|]. split; [exact Hheap|].
      intros k. rewrite Hlbs. cbn. rewrite list_lookup_alter.
      destruct (decide (k = i0)) as [->|Hne].
      * destruct (decide (i0 = i0)); [|congruence].
        now destruct (w_lightboxes w !! i0).
      * destruct (decide (i0 = k)); [congruence | reflexivity].
Qed.

Lemma held_step (w : World) (a : Action) :
  slot_invariant w ->
  held (Window.pswp (w_window w)) (w_lightboxes w) (w_heap w) ->
  held (Window.pswp (w_window (step P w a))) (w_lightboxes (step P w a))
    (w_heap (step P w a)).
Proof.
  intros [Hopen _] Hheld.
  case_action a; cbn [step];
    try (destruct (w_lightboxes w !! i0) as [this|] eqn:Hi0; [|exact Hheld]).
  - (* New *)
    cbn. destruct Hheld as (H1 & H2 & H3). split; [|split; [|exact H3]].
    + intros k lb v Hk Hv. apply lookup_snoc_Some in Hk as [[_ Hk] | [_ <-]].
      * now apply (H1 k lb v).
      * discriminate Hv.
    + intros v Hv. destruct (H2 v Hv) as (vw & lb & Hvw & Hlb & Hp).
      exists vw, lb. repeat split; auto. now apply lookup_app_l_Some.
  - apply (held_insert_same_pswp _ _ _ i0 this _ Hi0); [|exact Hheld].
    apply (onThumbnailsClick_static (w_window w) this e).
  - apply (held_insert_same_pswp _ _ _ i0 this _ Hi0); [|exact Hheld].
    now rewrite (proj1 (init_this P this)).
  - apply (held_insert_same_pswp _ _ _ i0 this _ Hi0); [|exact Hheld].
    apply (loadAndOpen_static (w_window w) this idx ds pt).
  - apply (held_insert_same_pswp _ _ _ i0 this _ Hi0); [|exact Hheld].
    apply (preload_static this idx ds).
  - apply (held_opened w i0 this); auto.
    pose proof (openPhotoswipe_frame (w_window w) this i0 (length (w_heap w)) m u)
      as (_ & _ & _ & _ & _ & Hc).
    pose proof (openPhotoswipe_viewer (w_window w) this i0 (length (w_heap w)) m u)
      as Hv.
    destruct (created _) as [vw|]; [|exact Hc].
    destruct Hc as (He & Hs & Hp & _). destruct (Hv vw eq_refl) as [Ho Hh].
    split; [exact He|]. split; [exact Hs|]. split; [exact Hp|].
    split; [exact Ho | exact Hh].
  - apply (held_insert_same_pswp _ _ _ i0 this _ Hi0); [reflexivity | exact Hheld].
  - apply (held_insert_same_pswp _ _ _ i0 this _ Hi0); [reflexivity | exact Hheld].
  - apply (held_insert_same_pswp _ _ _ i0 this _ Hi0); [|exact Hheld].
    now rewrite (proj1 (destroy_this P this)).
  - apply (held_insert_same_pswp _ _ _ i0 this _ Hi0); [reflexivity | exact Hheld].
  - unfold join_fulfilled.
    destruct (w_joins w !! j) as [p|]; [|exact Hheld].
    destruct (settled p || _); [exact Hheld|].
    destruct (w_lightboxes w !! owner p) as [this|] eqn:Hi0; [|exact Hheld].
    cbn [mark_settled commit_opened w_window w_lightboxes w_heap].
    apply (held_opened w (owner p) this); auto.
    pose proof (then_callback_frame (w_window w) this (owner p) (length (w_heap w))
                  items (uid (p_join p))) as (_ & _ & _ & _ & _ & Hc).
    pose proof (then_callback_viewer (w_window w) this (owner p)
                  (length (w_heap w)) items (uid (p_join p))) as Hv.
    destruct (created _) as [vw|]; [|exact Hc].
    destruct Hc as (He & Hs & Hp & _). destruct (Hv vw eq_refl) as [Ho Hh].
    split; [exact He|]. split; [exact Hs|]. split; [exact Hp|].
    split; [exact Ho | exact Hh].
  - unfold join_rejected.
    destruct (w_joins w !! j) as [p|]; [|exact Hheld].
    destruct (settled p); exact Hheld.
  - unfold viewer_destroyed.
    destruct (w_heap w !! v) as [vw|] eqn:Hv; [|exact Hheld].
    destruct (v_destroyed vw) eqn:Hd; [exact Hheld|].
    destruct Hheld as (H1 & H2 & H3).
    assert (Hslot : Window.pswp (w_window w) = Some v)
      by (apply Hopen; now exists vw).
    assert (Hheap : held (Window.pswp (w_window w)) (w_lightboxes w)
                      (alter set_destroyed v (w_heap w))).
    { split; [|split].
      - intros k lb v' Hk Hv'. destruct (H1 k lb v' Hk Hv') as (Hs & vw' & Hvw' & Ho).
        split; [exact Hs|]. rewrite list_lookup_alter.
        destruct (decide (v = v')) as [<-|Hne].
        + rewrite Hv. cbn. eexists. split; [reflexivity|]. cbn. congruence.
        + eauto.
      - intros v' Hv'. destruct (H2 v' Hv') as (vw' & lb & Hvw' & Hlb & Hp).
        rewrite list_lookup_alter. destruct (decide (v = v')) as [<-|Hne].
        + rewrite Hv. cbn. exists (set_destroyed vw), lb.
          split; [reflexivity|]. cbn. assert (vw' = vw) by congruence. subst vw'. auto.
        + eauto.
      - intros v' vw' name k Hv' Hin. rewrite list_lookup_alter in Hv'.
        destruct (decide (v = v')) as [<-|Hne].
        + rewrite Hv in Hv'. cbn in Hv'. injection Hv' as <-. cbn in *.
          now apply (H3 v vw name k).
        + now apply (H3 v' vw' name k). }
    destruct (run_destroy_listeners_owned (v_on vw) (v_options vw)
                (mark_destroyed v w)) as [-> | (Hnone & Hsame & Hlbs)].
    { intros name i Hin. now apply (H3 v vw name i). }
    { exact Hheap. }
    rewrite Hnone, Hsame. cbn [mark_destroyed w_heap].
    destruct Hheap as (_ & _ & H3'). split; [|split; [|exact H3']].
    + intros k lb v' Hk Hv'. exfalso. rewrite Hlbs in Hk. cbn in Hk.
      destruct (decide (k = v_options vw)) as [->|Hne].
      * destruct (w_lightboxes w !! v_options vw); [|discriminate Hk].
        cbn in Hk. injection Hk as <-. discriminate Hv'.
      * destruct (H1 k lb v' Hk Hv') as (Hs & vw' & Hvw' & Ho).
        assert (v' = v) by congruence. subst v'.
        assert (vw' = vw) by congruence. subst vw'. congruence.
    + intros v' Hv'. discriminate Hv'.
  - exact Hheld.
Qed.

Lemma reachable_held (w : World) :
  reachable P w ->
  held (Window.pswp (w_window w)) (w_lightboxes w) (w_heap w).
Proof.
  induction 1 as [o | w a Hw IH].
  - split; [|split].
    + intros i lb v Hi. discriminate Hi.
    + intros v Hv. discriminate Hv.
    + intros v vw name i Hv. discriminate Hv.
  - apply held_step; [now apply (reachable_slot_invariant P) | exact IH].
Qed.

(** X16: on every reachable page [this.pswp] and the slot agree.  A
    lightbox whose [this.pswp] is set holds the viewer that is in the
    slot, and built it; the viewer in the slot is held by the lightbox
    that built it; so at most one lightbox holds a viewer, and the viewer
    [destroy] closes is the one in the slot. *)
Theorem active_viewer_is_slot (w : World) (i : LbId) (lb : Lightbox) :
  reachable P w ->
  w_lightboxes w !! i = Some lb ->
  (forall v, pswp lb = Some v ->
     Window.pswp (w_window w) = Some v
     /\ (exists vw, w_heap w !! v = Some vw /\ v_options vw = i)
     /\ pswp_close v ∈ calls (destroy P lb)
     /\ (forall k lb', w_lightboxes w !! k = Some lb' -> is_Some (pswp lb') -> k = i))
  /\ (forall v vw, Window.pswp (w_window w) = Some v -> w_heap w !! v = Some vw ->
        v_options vw = i -> pswp lb = Some v)
  /\ (pswp lb = None -> forall v, pswp_close v ∉ calls (destroy P lb)).
Proof.
  intros Hreach Hi. destruct (reachable_held w Hreach) as (H1 & H2 & _).
  split; [|split].
  - intros v Hv. destruct (H1 i lb v Hi Hv) as (Hslot & vw & Hvw & Ho).
    split; [exact Hslot|]. split; [eauto|]. split.
    + now apply destroy_closes.
    + intros k lb' Hk [v' Hv']. destruct (H1 k lb' v' Hk Hv') as (Hs' & vw' & Hvw' & Ho').
      assert (v' = v) by congruence. subst v'. congruence.
  - intros v vw Hslot Hvw Ho. destruct (H2 v Hslot) as (vw' & lb' & Hvw' & Hlb' & Hp).
    assert (vw' = vw) by congruence. subst vw'. rewrite Ho in Hlb'. congruence.
  - intros Hnone v Hin. apply destroy_closes in Hin. congruence.
Qed.

End PageOverTime.

(** ** The demo page, over time *)

Lemma openPhotoswipe_admits_iff_witness :
  is_Some
    (created
       (_openPhotoswipe demo_window
          (set_shouldOpen true (set_uid 1 (constructor demo_options)))
          0 0 demo_module 1)).
Proof.
  apply (proj1 (openPhotoswipe_admits_iff demo_window
                  (set_shouldOpen true (set_uid 1 (constructor demo_options)))
                  0 0 demo_module 1)).
  split; [left; reflexivity|]. split; [reflexivity|]. eexists. reflexivity.
Defined.

Lemma configuration_never_written_witness :
  exists lb',
    w_lightboxes
      (run demo_platform demo_one_lightbox
         [Click 0 (demo_click 12 false); CallDestroy 0]) !! 0 = Some lb'
    /\ configuration (options lb') = configuration demo_options.
Proof.
  exact (configuration_never_written demo_platform demo_one_lightbox
           [Click 0 (demo_click 12 false); CallDestroy 0] 0
           (constructor demo_options) eq_refl).
Defined.


Lemma extra_css_always_awaited_witness :
  exists lb' more,
    w_lightboxes
      (run demo_platform demo_one_lightbox
         [CallAddCSS 0 "caption.css"; CallAddCSS 0 "zoom.css"]) !! 0 = Some lb'
    /\ _additionalDynamicCSS lb' = [] ++ "caption.css"%string :: more
    /\ forall index dataSource,
         exists j front,
           joined (preload lb' index dataSource) = Some j
           /\ promiseArray j = front ++ map loadCSS (_additionalDynamicCSS lb').
Proof.
  exact (extra_css_always_awaited demo_platform demo_one_lightbox
           [CallAddCSS 0 "zoom.css"] 0 (constructor demo_options) "caption.css"
           eq_refl).
Defined.

Lemma join_opens_iff_witness :
  length (w_heap (step demo_platform demo_two_clicks (JoinFulfilled 1 demo_results)))
  = S (length (w_heap demo_two_clicks))
  /\ w_heap (step demo_platform demo_two_clicks (JoinFulfilled 0 demo_results))
     = w_heap demo_two_clicks.
Proof.
  split.
  - apply (proj2 (proj1 (join_opens_iff demo_platform demo_two_clicks 1
                           demo_results))).
    exists {| owner := 0;
              p_join :=
                {| uid := 2;
                   promiseArray :=
                     [dynamicImportModule (ModulePath "photoswipe.esm.js");
                      dynamicImportPlugin "zoom" (PluginPath "zoom.js");
                      loadCSS "photoswipe.css"] |};
              settled := false |}, demo_clicked.
    split; [vm_compute; reflexivity|]. split; [reflexivity|].
    split; [reflexivity|]. split; [vm_compute; reflexivity|].
    split; [vm_compute; reflexivity|]. split; [vm_compute; reflexivity|].
    split; [vm_compute; reflexivity|]. exists 7. reflexivity.
  - apply (proj2 (join_opens_iff demo_platform demo_two_clicks 0 demo_results)).
    vm_compute. discriminate.
Defined.

Lemma unconstructible_module_consumes_flag_witness :
  w_heap (step demo_platform demo_two_clicks (JoinFulfilled 1 demo_bad_results))
  = w_heap demo_two_clicks.
Proof.
  refine (proj1 (unconstructible_module_consumes_flag demo_platform demo_two_clicks 1
                   demo_bad_results
                   {| owner := 0;
                      p_join :=
                        {| uid := 2;
                           promiseArray :=
                             [dynamicImportModule (ModulePath "photoswipe.esm.js");
                              dynamicImportPlugin "zoom" (PluginPath "zoom.js");
                              loadCSS "photoswipe.css"] |};
                      settled := false |}
                   demo_clicked _ eq_refl eq_refl _ _ _ _ eq_refl));
    vm_compute; reflexivity.
Defined.

Lemma destroy_cancels_loads_witness :
  w_heap
    (step demo_platform
       (run demo_platform (step demo_platform demo_two_clicks (CallDestroy 0))
          [CallPreload 0 (VNum 1) None])
       (JoinFulfilled 2 demo_results))
  = w_heap
      (run demo_platform (step demo_platform demo_two_clicks (CallDestroy 0))
         [CallPreload 0 (VNum 1) None]).
Proof.
  pose proof (destroy_cancels_loads demo_platform demo_two_clicks 0 demo_clicked
                [CallPreload 0 (VNum 1) None]
                ltac:(vm_compute; reflexivity) eq_refl)
    as (_ & _ & _ & _ & _ & Hjoins).
  refine (proj1 (Hjoins 2 demo_results
                   {| owner := 0;
                      p_join :=
                        {| uid := 3;
                           promiseArray :=
                             [dynamicImportModule (ModulePath "photoswipe.esm.js");
                              dynamicImportPlugin "zoom" (PluginPath "zoom.js");
                              loadCSS "photoswipe.css"] |};
                      settled := false |} _ eq_refl)).
  vm_compute. reflexivity.
Defined.

Lemma open_after_destroy_is_stuck_witness :
  Window.pswp (w_window demo_after_destroy) = Some 0.
Proof.
  destruct (open_after_destroy_is_stuck demo_platform demo_one_lightbox 0
              (constructor demo_options) (VNum 0) None None
              [demo_module; ItUndefined] 7 eq_refl eq_refl eq_refl)
    as (p & Hp & _ & _ & Hstuck).
  vm_compute in Hp. injection Hp as <-.
  exact (proj2 (proj2 (proj2 (Hstuck eq_refl)))).
Defined.

Lemma token_counts_loads_witness :
  reachable demo_platform demo_two_clicks
  /\ tokens_of 0 (w_joins demo_two_clicks) = first_tokens (_uid demo_clicked)
  /\ _uid demo_clicked = 2%Z.
Proof.
  assert (Hreach : reachable demo_platform demo_two_clicks)
    by apply reachable_run, reach_start.
  assert (Hi : w_lightboxes demo_two_clicks !! 0 = Some demo_clicked)
    by (vm_compute; reflexivity).
  split; [exact Hreach|]. split; [|vm_compute; reflexivity].
  exact (proj1 (proj2 (token_counts_loads demo_platform demo_two_clicks 0
                         demo_clicked Hreach Hi))).
Defined.

Lemma active_viewer_is_slot_witness :
  reachable demo_platform demo_opened
  /\ pswp demo_holding = Some 0
  /\ Window.pswp (w_window demo_opened) = Some 0.
Proof.
  assert (Hreach : reachable demo_platform demo_opened)
    by (apply reachable_run, reachable_run, reach_start).
  assert (Hi : w_lightboxes demo_opened !! 0 = Some demo_holding)
    by (vm_compute; reflexivity).
  assert (Hp : pswp demo_holding = Some 0) by (vm_compute; reflexivity).
  split; [exact Hreach|]. split; [exact Hp|].
  exact (proj1 (proj1 (active_viewer_is_slot demo_platform demo_opened 0
                         demo_holding Hreach Hi) 0 Hp)).
Defined.

Lemma registry_on_reachable_pages_witness :
  reachable demo_platform demo_two_clicks
  /\ map fst (_pluginClasses demo_clicked) = ["zoom"%string]
  /\ NoDup (map fst (_pluginClasses demo_clicked)).
Proof.
  assert (Hreach : reachable demo_platform demo_two_clicks)
    by apply reachable_run, reach_start.
  assert (Hi : w_lightboxes demo_two_clicks !! 0 = Some demo_clicked)
    by (vm_compute; reflexivity).
  split; [exact Hreach|]. split; [vm_compute; reflexivity|].
  exact (proj1 (registry_on_reachable_pages demo_platform demo_two_clicks 0
                  demo_clicked (VNum 0) None Hreach Hi)).
Defined.
